(** * midterm.py: shooting-efficiency pipeline over a player roster

    A shallow embedding of [src/midterm.py].  Python objects are modelled as
    follows.

    - [str] is [string]; the model covers ASCII text, on which [upper],
      [lower] and [replace] are defined below.
    - [int] is [Z] (unbounded, as in Python).
    - [float] is [spec_float] at binary64 ([prec = 53], [emax = 1024]);
      the arithmetic of the interpreter ([int / int], [round], [float],
      comparisons) is written out over it.
    - a row ([list] object) is a location in a store of lists of values,
      so that in-place updates and aliasing are visible.
    - a raised exception is the [Raise] outcome of a computation. *)

From Stdlib Require Import ZArith List String Ascii Lia Bool.
From Stdlib Require Import Floats.SpecFloat.
From stdpp Require Import gmap list strings sorting.

Open Scope Z_scope.

(** ** Outcomes of a call *)

Inductive exn : Set :=
| ZeroDivisionError
| OverflowError
| ValueError
| IndexError
| TypeError
| AttributeError.

Global Instance exn_eq_dec : EqDecision exn.
Proof. solve_decision. Defined.

Inductive result (A : Type) : Type :=
| Ok (a : A)
| Raise (e : exn).
Arguments Ok {A} a.
Arguments Raise {A} e.

Definition rbind {A B} (r : result A) (k : A -> result B) : result B :=
  match r with
  | Ok a => k a
  | Raise e => Raise e
  end.

(** [try: body except e: handler] *)
Definition try_except {A} (body : result A) (e : exn) (handler : result A)
  : result A :=
  match body with
  | Ok a => Ok a
  | Raise e' => if decide (e' = e) then handler else Raise e'
  end.

(** ** Binary64 arithmetic of the interpreter *)

Module Float.

Definition prec : Z := 53.
Definition emax : Z := 1024.

Abbreviation float := spec_float.

Definition is_nan (x : float) : bool :=
  match x with S754_nan => true | _ => false end.

Definition is_finite (x : float) : bool :=
  match x with S754_zero _ | S754_finite _ _ _ => true | _ => false end.

(** The double nearest to [(-1)^s * n / d] (ties to even); an infinity
    when the quotient is out of range.  [n] and [d] are magnitudes. *)
Definition nearest_ratio (s : bool) (n : N) (d : positive) : float :=
  let x := match n with
           | N0 => S754_zero s
           | Npos p => S754_finite s p 0
           end in
  SFdiv prec emax x (S754_finite false d 0).

(** The double nearest to [(-1)^s * n * 10^e10]: what [strtod] returns
    for the decimal string with digits [n] and exponent [e10]. *)
Definition of_decimal (s : bool) (n : N) (e10 : Z) : float :=
  if 0 <=? e10
  then nearest_ratio s (n * N.pow 10 (Z.to_N e10)) 1
  else nearest_ratio s n (Pos.pow 10 (Z.to_pos (- e10))).

(** Comparison operators on floats ([None] from [SFcompare] is a NaN
    operand, on which every ordered comparison is false). *)
Definition ge (x y : float) : bool := SFleb y x.
Definition lt (x y : float) : bool := SFltb x y.
Definition eq (x y : float) : bool := SFeqb x y.

(** [int / int] (long_true_divide): correctly rounded quotient,
    [ZeroDivisionError] on a zero divisor, [OverflowError] when the
    quotient does not fit a double. *)
Definition int_truediv (a b : Z) : result float :=
  if b =? 0 then Raise ZeroDivisionError
  else
    let negate := xorb (a <? 0) (b <? 0) in
    match nearest_ratio negate (Z.abs_N a) (Z.to_pos (Z.abs b)) with
    | S754_infinity _ => Raise OverflowError
    | q => Ok q
    end.

(** [float(n)] for an int [n] (PyLong_AsDouble). *)
Definition of_int (n : Z) : result float :=
  match nearest_ratio (n <? 0) (Z.abs_N n) 1 with
  | S754_infinity _ => Raise OverflowError
  | q => Ok q
  end.

(** Round-half-even of the quotient [n / d] of two non-negative
    integers, [d > 0]. *)
Definition div_half_even (n d : Z) : Z :=
  let q := n / d in
  match (2 * (n mod d)) ?= d with
  | Lt => q
  | Gt => q + 1
  | Eq => if Z.even q then q else q + 1
  end.

(** The digits dtoa (mode 3) produces for [m * 2^e] at [ndigits]
    decimal places, as an integer: [m * 2^e * 10^ndigits] rounded half
    to even on the exact binary value. *)
Definition decimal_digits (m : positive) (e ndigits : Z) : N :=
  let num := Zpos m * 2 ^ Z.max e 0 * 10 ^ Z.max ndigits 0 in
  let den := 2 ^ Z.max (- e) 0 * 10 ^ Z.max (- ndigits) 0 in
  Z.to_N (div_half_even num den).

(** double_round: to a decimal string at [ndigits] places, then back
    to the nearest double. *)
Definition double_round (x : float) (ndigits : Z) : result float :=
  match x with
  | S754_finite s m e =>
      match of_decimal s (decimal_digits m e ndigits) (- ndigits) with
      | S754_infinity _ => Raise OverflowError
      | r => Ok r
      end
  | _ => Ok x
  end.

Definition NDIGITS_MAX : Z := 323.
Definition NDIGITS_MIN : Z := -308.

(** [round(x, ndigits)] for a float [x] and an int [ndigits]
    (float___round___impl). *)
Definition round (x : float) (ndigits : Z) : result float :=
  if negb (is_finite x) then Ok x
  else if NDIGITS_MAX <? ndigits then Ok x
  else if ndigits <? NDIGITS_MIN then
    Ok (match x with
        | S754_finite s _ _ => S754_zero s
        | _ => x
        end)
  else double_round x ndigits.

(** Float literals of the program. *)
Definition zero : float := S754_zero false.
Definition lit_0_4 : float := Eval vm_compute in of_decimal false 4 (-1).
Definition lit_0_3 : float := Eval vm_compute in of_decimal false 3 (-1).
Definition lit_0_2 : float := Eval vm_compute in of_decimal false 2 (-1).

End Float.

Import Float.

(** ** Field normalizers *)

(** [calculate_shot_conversion_rate(goals, shots, precision=2)] *)
Definition calculate_shot_conversion_rate (goals shots : Z) (precision : Z)
  : result float :=
  try_except
    (rbind (int_truediv goals shots) (fun q => round q precision))
    ZeroDivisionError
    (Ok zero).


(** ** Strings *)

Definition upper_char (c : ascii) : ascii :=
  let n := N_of_ascii c in
  if ((97 <=? n) && (n <=? 122))%N then ascii_of_N (n - 32) else c.

Definition lower_char (c : ascii) : ascii :=
  let n := N_of_ascii c in
  if ((65 <=? n) && (n <=? 90))%N then ascii_of_N (n + 32) else c.

Fixpoint map_chars (f : ascii -> ascii) (s : string) : string :=
  match s with
  | EmptyString => EmptyString
  | String c s' => String (f c) (map_chars f s')
  end.

(** [s.upper()], [s.lower()] *)
Definition upper (s : string) : string := map_chars upper_char s.
Definition lower (s : string) : string := map_chars lower_char s.

(** [s.replace(old, new)] for one-character [old] and [new] *)
Definition replace (old new : ascii) (s : string) : string :=
  map_chars (fun c => if Ascii.eqb c old then new else c) s.

(** ** Slices

    A [slice(start, stop)] object with step [None]; [None] bounds are the
    omitted ones of [s[:2]] and [s[3:]]. *)

Record slice : Set := mk_slice { start : option Z; stop : option Z }.

(** PySlice_AdjustIndices for step 1: negative bounds count from the end,
    and both are clipped to [0, len]. *)
Definition adjust_index (len : nat) (i : Z) : nat :=
  if i <? 0 then Z.to_nat (Z.max (i + Z.of_nat len) 0)
  else Z.to_nat (Z.min i (Z.of_nat len)).

Definition slice_bounds (len : nat) (sl : slice) : nat * nat :=
  (match start sl with None => 0%nat | Some i => adjust_index len i end,
   match stop sl with None => len | Some j => adjust_index len j end).

(** [l[sl]]: a new list *)
Definition list_slice {A} (l : list A) (sl : slice) : list A :=
  let '(lo, hi) := slice_bounds (length l) sl in
  take (hi - lo) (drop lo l).

(** [s[sl]] on a string *)
Definition str_slice (s : string) (sl : slice) : string :=
  let '(lo, hi) := slice_bounds (String.length s) sl in
  substring lo (hi - lo) s.

(** [clean_squad(squad)] *)
Definition clean_squad (squad : string) : string * string :=
  (upper (str_slice squad (mk_slice None (Some 2))),
   str_slice squad (mk_slice (Some 3) None)).

(** [format_player_position(position)] *)
Definition format_player_position (position : string) : string :=
  replace "," "|" position.

(** ** Values and [int()] *)

Inductive value : Set :=
| VStr (s : string)
| VInt (n : Z)
| VFloat (f : float).

Global Instance float_eq_dec : EqDecision float.
Proof. solve_decision. Defined.

Global Instance value_eq_dec : EqDecision value.
Proof. solve_decision. Defined.

(** The whitespace that [int()] and [float()] skip around a literal in an
    ASCII string: tab, line feed, vertical tab, form feed, carriage
    return and space. *)
Definition is_space (c : ascii) : bool :=
  let n := N_of_ascii c in
  (((9 <=? n) && (n <=? 13)) || (n =? 32))%N.

Definition is_digit (c : ascii) : bool :=
  let n := N_of_ascii c in ((48 <=? n) && (n <=? 57))%N.

Definition digit_val (c : ascii) : Z := Z.of_N (N_of_ascii c) - 48.

Fixpoint lstrip (cs : list ascii) : list ascii :=
  match cs with
  | c :: cs' => if is_space c then lstrip cs' else cs
  | [] => []
  end.

Definition strip (cs : list ascii) : list ascii :=
  rev (lstrip (rev (lstrip cs))).

(** Decimal digits with single underscores between digits. [after_digit]
    tells whether the previous character was a digit. *)
Fixpoint parse_digits (acc : Z) (after_digit : bool) (cs : list ascii)
  : option Z :=
  match cs with
  | [] => if after_digit then Some acc else None
  | c :: cs' =>
      if is_digit c then parse_digits (10 * acc + digit_val c) true cs'
      else if Ascii.eqb c "_" && after_digit then parse_digits acc false cs'
      else None
  end.

Fixpoint count_digits (cs : list ascii) : nat :=
  match cs with
  | [] => 0
  | c :: cs' => if is_digit c then S (count_digits cs') else count_digits cs'
  end.

(** [sys.get_int_max_str_digits()], at its default: a decimal literal
    with more digits is refused.  Neither the sign nor the underscores
    count. *)
Definition int_max_str_digits : nat := 4300.

(** [int(s)] for a string [s], base 10: surrounding whitespace, an
    optional sign, then the digits, no more of them than the limit. *)
Definition int_of_string (s : string) : result Z :=
  let '(negative, cs) :=
    match strip (list_ascii_of_string s) with
    | "-"%char :: cs => (true, cs)
    | "+"%char :: cs => (false, cs)
    | cs => (false, cs)
    end in
  match parse_digits 0 false cs with
  | Some n =>
      if (int_max_str_digits <? count_digits cs)%nat then Raise ValueError
      else Ok (if negative then - n else n)
  | None => Raise ValueError
  end.

(** [int(x)] for a float [x]: truncation towards zero. *)
Definition int_of_float (x : float) : result Z :=
  match x with
  | S754_zero _ => Ok 0
  | S754_nan => Raise ValueError
  | S754_infinity _ => Raise OverflowError
  | S754_finite s m e =>
      let a := if 0 <=? e then Zpos m * 2 ^ e else Zpos m / 2 ^ (- e) in
      Ok (if s then - a else a)
  end.

Definition py_int (v : value) : result Z :=
  match v with
  | VStr s => int_of_string s
  | VInt n => Ok n
  | VFloat f => int_of_float f
  end.

(** ** List objects

    Indexing with a Python index: negative indices count from the end. *)

Definition norm_index (len : nat) (i : Z) : result nat :=
  let j := if i <? 0 then i + Z.of_nat len else i in
  if (0 <=? j) && (j <? Z.of_nat len) then Ok (Z.to_nat j)
  else Raise IndexError.

(** [l[i]] *)
Definition list_getitem (l : list value) (i : Z) : result value :=
  rbind (norm_index (length l) i) (fun j =>
  match l !! j with
  | Some v => Ok v
  | None => Raise IndexError
  end).

(** [l[i] = v] *)
Definition list_setitem (l : list value) (i : Z) (v : value)
  : result (list value) :=
  rbind (norm_index (length l) i) (fun j => Ok (<[j := v]> l)).

(** [l.insert(i, v)]: the index is clipped, never out of range. *)
Definition list_insert_at (l : list value) (i : Z) (v : value) : list value :=
  let j := adjust_index (length l) i in
  take j l ++ v :: drop j l.

(** [l.index(name)] for a string [name]: position of the first element
    equal to it; a non-string element never equals a string. *)
Fixpoint list_index_from (l : list value) (name : string) (i : Z) : result Z :=
  match l with
  | [] => Raise ValueError
  | v :: l' =>
      match v with
      | VStr s => if String.eqb s name then Ok i
                  else list_index_from l' name (i + 1)
      | _ => list_index_from l' name (i + 1)
      end
  end.

Definition list_index (l : list value) (name : string) : result Z :=
  list_index_from l name 0.

(** ** The store of list objects *)

Definition loc : Set := nat.

Abbreviation heap := (gmap loc (list value)).

Definition M (A : Type) : Type := heap -> result A * heap.

Definition ret {A} (a : A) : M A := fun h => (Ok a, h).
Definition raise {A} (e : exn) : M A := fun h => (Raise e, h).
Definition lift {A} (r : result A) : M A := fun h => (r, h).

Definition bind {A B} (m : M A) (k : A -> M B) : M B :=
  fun h =>
    match m h with
    | (Ok a, h') => k a h'
    | (Raise e, h') => (Raise e, h')
    end.

Declare Scope py_scope.
Delimit Scope py_scope with py.
Notation "x <- m ;; k" := (bind m (fun x => k))
  (at level 100, m at next level, right associativity) : py_scope.
Notation "m ;;; k" := (bind m (fun _ => k))
  (at level 100, right associativity) : py_scope.
Open Scope py_scope.

(** Contents of the list object at [p].  A location that holds no list
    reads as the empty list; the properties below ask that the rows they
    speak of are lists of the store. *)
Definition load (p : loc) : M (list value) := fun h => (Ok (h !!! p), h).
Definition store (p : loc) (l : list value) : M unit :=
  fun h => (Ok tt, <[p := l]> h).
(** A new list object. *)
Definition alloc (l : list value) : M loc :=
  fun h => let p := fresh (dom h) in (Ok p, <[p := l]> h).

Definition getitem (p : loc) (i : Z) : M value :=
  l <- load p ;; lift (list_getitem l i).

Definition setitem (p : loc) (i : Z) (v : value) : M unit :=
  l <- load p ;; l' <- lift (list_setitem l i v) ;; store p l'.

Definition insert_at (p : loc) (i : Z) (v : value) : M unit :=
  l <- load p ;; store p (list_insert_at l i v).

Definition append (p : loc) (v : value) : M unit :=
  l <- load p ;; store p (l ++ [v]).

Definition extend (p : loc) (vs : list value) : M unit :=
  l <- load p ;; store p (l ++ vs).

(** [for x in xs: body(x)], with the local variables the body assigns
    threaded as [s]. *)
Fixpoint for_each {A S} (xs : list A) (body : S -> A -> M S) (s : S) : M S :=
  match xs with
  | [] => ret s
  | x :: xs' => s' <- body s x ;; for_each xs' body s'
  end.

(** ** Aggregators *)

(** The loop body [shooting_numbers[i] = int(shooting_numbers[i])] *)
Definition convert_item (shooting_numbers : loc) (_ : unit) (i : nat)
  : M unit :=
  x <- getitem shooting_numbers (Z.of_nat i) ;;
  n <- lift (py_int x) ;;
  setitem shooting_numbers (Z.of_nat i) (VInt n).

(** [get_player_shooting_numbers(player, slice_)] *)
Definition get_player_shooting_numbers (player : loc) (slice_ : slice)
  : M loc :=
  row <- load player ;;
  shooting_numbers <- alloc (list_slice row slice_) ;;
  l <- load shooting_numbers ;;
  for_each (seq 0 (length l)) (convert_item shooting_numbers) tt ;;;
  ret shooting_numbers.

(** [a, b, c = nums] for the list [get_player_shooting_numbers] returns,
    whose items are ints by then: [ValueError] unless there are exactly
    three.  A string among three items is the [TypeError] of adding it to
    an int count. *)
Definition unpack3 (nums : loc) : M (Z * Z * Z) :=
  l <- load nums ;;
  match l with
  | [VInt a; VInt b; VInt c] => ret (a, b, c)
  | [_; _; _] => raise TypeError
  | _ => raise ValueError
  end.

(** [get_team_shooting_numbers(team, slice_)] *)
Definition get_team_shooting_numbers (team : list loc) (slice_ : slice)
  : M (Z * Z * Z) :=
  for_each team
    (fun '(goals_count, shot_count, shots_on_target_count) player =>
       nums <- get_player_shooting_numbers player slice_ ;;
       t <- unpack3 nums ;;
       let '(goals, shots, shots_on_target) := t in
       ret (goals_count + goals,
            shot_count + shots,
            shots_on_target_count + shots_on_target))
    (0, 0, 0).

(** ** Filters and groupers *)

(** [int(player[gls_idx])] *)
Definition goals_of (player : loc) (gls_idx : Z) : M Z :=
  x <- getitem player gls_idx ;; lift (py_int x).

(** [get_top_scorer(players, gls_idx)] *)
Definition get_top_scorer (players : list loc) (gls_idx : Z)
  : M (list loc) :=
  acc <-
    for_each players
      (fun '(top_scorers, high_score) player =>
         goals <- goals_of player gls_idx ;;
         if (goals >? high_score) && (goals >? 0)
         then ret ([player], goals)
         else if (goals =? high_score) && (goals >? 0)
         then ret (top_scorers ++ [player], high_score)
         else ret (top_scorers, high_score))
      ([], 0) ;;
  ret (fst acc).

(** [v.lower()]: only a string has the method. *)
Definition str_lower (v : value) : result string :=
  match v with
  | VStr s => Ok (lower s)
  | _ => Raise AttributeError
  end.

(** [get_team(players, squad_idx, squad)] *)
Definition get_team (players : list loc) (squad_idx : Z) (squad : string)
  : M (list loc) :=
  for_each players
    (fun team_players player =>
       v <- getitem player squad_idx ;;
       name <- lift (str_lower v) ;;
       if String.eqb name (lower squad)
       then ret (team_players ++ [player])
       else ret team_players)
    [].

(** ** [float()] and comparisons of values *)

(** A run of digits with single underscores between digits: its value,
    the number of digits, and the rest of the input. *)
Fixpoint scan_digits (acc : Z) (n : nat) (after_digit : bool)
  (cs : list ascii) : option (Z * nat * list ascii) :=
  match cs with
  | [] => if after_digit then Some (acc, n, []) else None
  | c :: cs' =>
      if is_digit c then scan_digits (10 * acc + digit_val c) (S n) true cs'
      else if Ascii.eqb c "_"
      then (if after_digit then scan_digits acc n false cs' else None)
      else if after_digit then Some (acc, n, cs) else None
  end.

Definition starts_with_digit (cs : list ascii) : bool :=
  match cs with c :: _ => is_digit c | [] => false end.

Definition split_sign (cs : list ascii) : bool * list ascii :=
  match cs with
  | "-"%char :: cs' => (true, cs')
  | "+"%char :: cs' => (false, cs')
  | _ => (false, cs)
  end.

(** The exponent part: empty, or [e] with an optional sign and digits. *)
Definition scan_exponent (cs : list ascii) : option Z :=
  match cs with
  | [] => Some 0
  | c :: cs' =>
      if Ascii.eqb (lower_char c) "e" then
        let '(neg, ds) := split_sign cs' in
        match scan_digits 0 0 false ds with
        | Some (ex, _, []) => Some (if neg then - ex else ex)
        | _ => None
        end
      else None
  end.

(** The fraction and exponent after the integer digits [ip]; [have_int]
    tells whether there were integer digits. *)
Definition scan_fraction (s : bool) (ip : Z) (have_int : bool)
  (cs : list ascii) : option float :=
  match cs with
  | "."%char :: cs' =>
      if starts_with_digit cs' then
        match scan_digits 0 0 false cs' with
        | Some (fp, nf, rest) =>
            option_map
              (fun ex => of_decimal s (Z.to_N (ip * 10 ^ Z.of_nat nf + fp))
                           (ex - Z.of_nat nf))
              (scan_exponent rest)
        | None => None
        end
      else if have_int then
        option_map (fun ex => of_decimal s (Z.to_N ip) ex) (scan_exponent cs')
      else None
  | _ =>
      if have_int then
        option_map (fun ex => of_decimal s (Z.to_N ip) ex) (scan_exponent cs)
      else None
  end.

(** [float(s)] for a string [s]. *)
Definition float_of_string (s : string) : result float :=
  let '(neg, cs) := split_sign (strip (list_ascii_of_string s)) in
  let word := string_of_list_ascii (map lower_char cs) in
  let parsed :=
    if String.eqb word "inf" || String.eqb word "infinity"
    then Some (S754_infinity neg)
    else if String.eqb word "nan" then Some S754_nan
    else if starts_with_digit cs then
      match scan_digits 0 0 false cs with
      | Some (ip, _, rest) => scan_fraction neg ip true rest
      | None => None
      end
    else scan_fraction neg 0 false cs in
  match parsed with
  | Some f => Ok f
  | None => Raise ValueError
  end.

(** [float(v)] *)
Definition py_float (v : value) : result float :=
  match v with
  | VFloat f => Ok f
  | VInt n => of_int n
  | VStr s => float_of_string s
  end.

(** Exact comparison of an int with a float; [None] on a NaN. *)
Definition compare_int_float (n : Z) (x : float) : option comparison :=
  match x with
  | S754_nan => None
  | S754_infinity s => Some (if s then Gt else Lt)
  | S754_zero _ => Some (n ?= 0)
  | S754_finite s m e =>
      let v := if s then Zneg m else Zpos m in
      Some (if 0 <=? e then n ?= v * 2 ^ e else n * 2 ^ (- e) ?= v)
  end.

(** [a == b] *)
Definition py_eq (a b : value) : bool :=
  match a, b with
  | VStr s, VStr t => String.eqb s t
  | VInt m, VInt n => m =? n
  | VFloat x, VFloat y => Float.eq x y
  | VInt n, VFloat x | VFloat x, VInt n =>
      match compare_int_float n x with Some Eq => true | _ => false end
  | _, _ => false
  end.

(** [a < b]: a string and a number are not ordered. *)
Definition py_lt (a b : value) : result bool :=
  match a, b with
  | VStr s, VStr t => Ok (String.ltb s t)
  | VInt m, VInt n => Ok (m <? n)
  | VFloat x, VFloat y => Ok (Float.lt x y)
  | VInt n, VFloat x =>
      Ok (match compare_int_float n x with Some Lt => true | _ => false end)
  | VFloat x, VInt n =>
      Ok (match compare_int_float n x with Some Gt => true | _ => false end)
  | _, _ => Raise TypeError
  end.

(** ** Classifier and ranker *)

(** The rating ladder of step 12.1-2. *)
Definition efficiency_rating (conv_rate : float) : string :=
  if Float.ge conv_rate lit_0_4 then "Top Tier"
  else if Float.ge conv_rate lit_0_3 then "Upper Middle Tier"
  else if Float.ge conv_rate lit_0_2 then "Lower Middle Tier"
  else "Bottom Tier".

(** Step 12.1-2: rate every team, appending the rating to its list. *)
Definition rate_teams (teams : list loc) : M unit :=
  for_each teams
    (fun _ team =>
       v <- getitem team (-1) ;;
       conv_rate <- lift (py_float v) ;;
       append team (VStr (efficiency_rating conv_rate)))
    tt.

(** The sort key [lambda x: (-float(x[-2]), x[0])]. *)
Definition rank_key (x : loc) : M (float * value) :=
  v <- getitem x (-2) ;;
  rate <- lift (py_float v) ;;
  name <- getitem x 0 ;;
  ret (SFopp rate, name).

(** [k1 < k2] on key tuples: the first items that differ decide. *)
Definition key_lt (k1 k2 : float * value) : result bool :=
  if Float.eq (fst k1) (fst k2) then
    if py_eq (snd k1) (snd k2) then Ok false
    else py_lt (snd k1) (snd k2)
  else Ok (Float.lt (fst k1) (fst k2)).

(** [sorted(xs, key=...)]: the keys are computed once, in order; the
    sort is stable and uses [<] on keys only.  It is modelled by a stable
    insertion sort, which yields the one stable ordering whenever [<]
    raises on no pair of keys and orders them. *)
Fixpoint insert_by_key {A} (x : (float * value) * A)
  (l : list ((float * value) * A)) : result (list ((float * value) * A)) :=
  match l with
  | [] => Ok [x]
  | y :: l' =>
      rbind (key_lt (fst y) (fst x)) (fun b =>
      if b : bool then rbind (insert_by_key x l') (fun r => Ok (y :: r))
      else Ok (x :: y :: l'))
  end.

Fixpoint sort_by_key {A} (l : list ((float * value) * A))
  : result (list ((float * value) * A)) :=
  match l with
  | [] => Ok []
  | x :: l' => rbind (sort_by_key l') (insert_by_key x)
  end.

(** Step 12.4 *)
Definition rank_teams (teams : list loc) : M (list loc) :=
  keyed <- for_each teams
             (fun acc x => k <- rank_key x ;; ret (acc ++ [(k, x)])) [] ;;
  sorted <- lift (sort_by_key keyed) ;;
  ret (snd <$> sorted).

(** ** Pipeline steps of [main] *)

Definition as_str (v : value) (e : exn) : result string :=
  match v with
  | VStr s => Ok s
  | _ => Raise e
  end.

(** Step 1.3: [data[i] = data[i][:10]] for every row, a new list each
    time.  The first of them is the header, the others are the players. *)
Definition truncate_rows (data : list loc) : M (list loc) :=
  for_each data
    (fun rows row =>
       l <- load row ;;
       p <- alloc (list_slice l (mk_slice None (Some 10))) ;;
       ret (rows ++ [p]))
    [].

(** Step 3.2, one player: reformat the position, split the squad and
    insert the country code before the squad name. *)
Definition normalize_player (pos_idx squad_idx : Z) (_ : unit) (player : loc)
  : M unit :=
  v <- getitem player pos_idx ;;
  position <- lift (as_str v AttributeError) ;;
  setitem player pos_idx (VStr (format_player_position position)) ;;;
  w <- getitem player squad_idx ;;
  raw <- lift (as_str w TypeError) ;;
  let '(code, squad) := clean_squad raw in
  insert_at player squad_idx (VStr code) ;;;
  let new_squad_idx := squad_idx + 1 in
  setitem player new_squad_idx (VStr squad).

(** Steps 3.1-3.4: resolve the column indices, normalise every player in
    place, insert the new column name in the header. *)
Definition normalize (headers : loc) (players : list loc) : M (Z * Z) :=
  hs <- load headers ;;
  pos_idx <- lift (list_index hs "Pos") ;;
  squad_idx <- lift (list_index hs "Squad") ;;
  for_each players (normalize_player pos_idx squad_idx) tt ;;;
  insert_at headers squad_idx (VStr "Country_Code") ;;;
  ret (pos_idx, squad_idx + 1).

(** Steps 8.1-5: the top scorers of every country. *)
Definition team_top_scorers (players : list loc) (squad_idx gls_idx : Z)
  (countries : list string) : M (list (list loc)) :=
  for_each countries
    (fun acc country =>
       team <- get_team players squad_idx country ;;
       top_scorers <- get_top_scorer team gls_idx ;;
       ret (acc ++ [top_scorers]))
    [].

(** Steps 10.2-4, one player: append the two conversion rates. *)
Definition add_player_efficiency (slice_ : slice) (_ : unit) (player : loc)
  : M unit :=
  nums <- get_player_shooting_numbers player slice_ ;;
  t <- unpack3 nums ;;
  let '(goals, shots, shots_on_target) := t in
  conversion_rate <- lift (calculate_shot_conversion_rate goals shots 3) ;;
  append player (VFloat conversion_rate) ;;;
  on_target_conversion_rate <-
    lift (calculate_shot_conversion_rate goals shots_on_target 3) ;;
  append player (VFloat on_target_conversion_rate).

(** Steps 10.2-5: the rates of every player, then their names in the
    header. *)
Definition add_efficiency (headers : loc) (players : list loc)
  (slice_ : slice) : M unit :=
  for_each players (add_player_efficiency slice_) tt ;;;
  extend headers
    [VStr "shots_conv_rate"; VStr "shots_on_target_conv_rate"].

(** ** The other filters and groupers *)

(** [s.split(sep)] for a one-character [sep]: the pieces between the
    separators, one more than there are separators. *)
Fixpoint split_on (sep : ascii) (s : string) : list string :=
  match s with
  | EmptyString => [EmptyString]
  | String c s' =>
      if Ascii.eqb c sep then EmptyString :: split_on sep s'
      else match split_on sep s' with
           | piece :: pieces => String c piece :: pieces
           | [] => [String c EmptyString]
           end
  end.

(** [v.split("|")]: only a string has the method. *)
Definition str_split (v : value) : result (list string) :=
  match v with
  | VStr s => Ok (split_on "|" s)
  | _ => Raise AttributeError
  end.

(** [get_multi_position_players(players, pos_idx)] *)
Definition get_multi_position_players (players : list loc) (pos_idx : Z)
  : M (list loc) :=
  for_each players
    (fun multi_position_players player =>
       v <- getitem player pos_idx ;;
       positions <- lift (str_split v) ;;
       if (1 <? length positions)%nat
       then ret (multi_position_players ++ [player])
       else ret multi_position_players)
    [].

(** [v in l]: some item equals [v].  (Two NaN floats are taken to be
    different objects, as the floats of different rows are.) *)
Definition py_contains (l : list value) (v : value) : bool :=
  existsb (fun item => py_eq item v) l.

(** [get_team_names(players, squad_idx)] *)
Definition get_team_names (players : list loc) (squad_idx : Z)
  : M (list value) :=
  for_each players
    (fun team_names player =>
       v <- getitem player squad_idx ;;
       if negb (py_contains team_names v)
       then ret (team_names ++ [v])
       else ret team_names)
    [].

(** Step 11.2 *)
Definition team_headers : list value :=
  [VStr "country"; VStr "goals"; VStr "shots"; VStr "shots_on_target";
   VStr "shots_conv_rate"; VStr "shots_on_target_conv_rate"].

(** Steps 11.3-7, one country: its team, the totals, the two rates, and
    a new list of the six metrics.  [get_team] calls [squad.lower()], so
    a country that is not a string is an [AttributeError]. *)
Definition team_metrics (players : list loc) (squad_idx : Z) (slice_ : slice)
  (teams : list loc) (country : value) : M (list loc) :=
  squad <- lift (as_str country AttributeError) ;;
  team <- get_team players squad_idx squad ;;
  t <- get_team_shooting_numbers team slice_ ;;
  let '(goals, shots, shots_on_target) := t in
  r1 <- lift (calculate_shot_conversion_rate goals shots 3) ;;
  r2 <- lift (calculate_shot_conversion_rate goals shots_on_target 3) ;;
  row <- alloc [country; VInt goals; VInt shots; VInt shots_on_target;
                VFloat r1; VFloat r2] ;;
  ret (teams ++ [row]).

(** Steps 11.3-7 *)
Definition build_teams (players : list loc) (squad_idx : Z) (slice_ : slice)
  : M (list loc) :=
  countries <- get_team_names players squad_idx ;;
  for_each countries (team_metrics players squad_idx slice_) [].

(** ** An example roster *)

Definition roster_header : list value :=
  [VStr "Rk"; VStr "Player"; VStr "Pos"; VStr "Squad"; VStr "Age";
   VStr "Born"; VStr "90s"; VStr "Gls"; VStr "Sh"; VStr "SoT"].

Definition roster : heap :=
  list_to_map
    [(0%nat, roster_header);
     (1%nat, [VStr "1"; VStr "Ada"; VStr "FW,MF"; VStr "ng Nigeria";
              VStr "25"; VStr "1998"; VStr "3.0"; VStr "0"; VStr "4";
              VStr "1"]);
     (2%nat, [VStr "2"; VStr "Bea"; VStr "MF"; VStr "ng Nigeria";
              VStr "27"; VStr "1996"; VStr "3.0"; VStr "3"; VStr "10";
              VStr "4"]);
     (3%nat, [VStr "3"; VStr "Cyd"; VStr "FW"; VStr "za South Africa";
              VStr "22"; VStr "2001"; VStr "2.5"; VStr "5"; VStr "12";
              VStr "7"]);
     (4%nat, [VStr "4"; VStr "Dee"; VStr "DF"; VStr "ng Nigeria";
              VStr "30"; VStr "1993"; VStr "3.0"; VStr "5"; VStr "9";
              VStr "5"]);
     (5%nat, [VStr "5"; VStr "Eve"; VStr "GK"; VStr "za South Africa";
              VStr "24"; VStr "1999"; VStr "3.0"; VStr "2"; VStr "2";
              VStr "2"])].

Definition roster_players : list loc := [1; 2; 3; 4; 5]%nat.

(** The roster after steps 3.1-3.4. *)
Definition roster_normalized : heap :=
  snd (normalize 0%nat roster_players roster).

(** The string in column [i] of a normalised row, and the goals of a raw
    one. *)
Definition roster_field (i : Z) (p : loc) : string :=
  match list_getitem (roster_normalized !!! p) i with
  | Ok (VStr s) => s
  | _ => EmptyString
  end.

Definition roster_goals (p : loc) : Z :=
  match fst (goals_of p 7 roster) with
  | Ok g => g
  | Raise _ => 0
  end.

(** The store after steps 11.3-7 on the normalised roster. *)
Definition roster_teams : heap :=
  snd (build_teams roster_players 4 (mk_slice (Some 8) (Some 11))
         roster_normalized).

(** The goals of a normalised row. *)
Definition roster_normalized_goals (p : loc) : Z :=
  match fst (goals_of p 8 roster_normalized) with
  | Ok g => g
  | Raise _ => 0
  end.

(** The string in column [i] of a raw row. *)
Definition roster_raw_field (i : nat) (p : loc) : string :=
  match (roster !!! p) !! i with
  | Some (VStr s) => s
  | _ => EmptyString
  end.

(** The roster with a sixth player whose goals are not recorded. *)
Definition roster_unrecorded : heap :=
  <[6%nat := [VStr "6"; VStr "Flo"; VStr "MF"; VStr "za South Africa";
              VStr "21"; VStr "2002"; VStr "1.0"; VStr "n/a"; VStr "1";
              VStr "0"]]> roster.

(** A row with a field that is not an integer literal. *)
Definition broken_row : heap :=
  {[ 1%nat := [VStr "7"; VStr "Flo"; VStr "3"; VStr "n/a"; VStr "1"] ]}.

(** Team rows after step 12.1-2: country, totals, rates, rating. *)
Definition team_table : heap :=
  list_to_map
    [(1%nat, [VStr "Nigeria"; VInt 8; VInt 23; VInt 10;
              VFloat (of_decimal false 348 (-3)); VFloat (of_decimal false 8 (-1));
              VStr "Top Tier"]);
     (2%nat, [VStr "Japan"; VInt 7; VInt 14; VInt 9;
              VFloat (of_decimal false 5 (-1)); VFloat (of_decimal false 778 (-3));
              VStr "Top Tier"]);
     (3%nat, [VStr "Brazil"; VInt 4; VInt 12; VInt 5;
              VFloat (of_decimal false 333 (-3)); VFloat (of_decimal false 8 (-1));
              VStr "Top Tier"]);
     (4%nat, [VStr "Haiti"; VInt 0; VInt 9; VInt 0;
              VFloat zero; VFloat zero; VStr "Bottom Tier"])].

(** The rate and the name of a row of [team_table]. *)
Definition team_table_rate (x : loc) : float :=
  match list_getitem (team_table !!! x) (-2) with
  | Ok (VFloat f) => f
  | _ => zero
  end.

Definition team_table_name (x : loc) : string :=
  match list_getitem (team_table !!! x) 0 with
  | Ok (VStr s) => s
  | _ => EmptyString
  end.

(** * Vocabulary of the properties *)

(** ** The store: frames *)

(** [h'] agrees with [h] on every list object of [h]. *)
Definition extends (h h' : heap) : Prop :=
  forall q : loc, is_Some (h !! q) -> h' !! q = h !! q.

(** ** Normalised rows *)

(** A row after step 3.2: the position in column [j] reformatted, and the
    squad field of column [n] replaced by the country code and the squad
    name. *)
Definition normalized_row (j n : nat) (position raw : string)
  (row : list value) : list value :=
  let row1 := <[j := VStr (format_player_position position)]> row in
  take n row1
    ++ [VStr (clean_squad raw).1; VStr (clean_squad raw).2]
    ++ drop (S n) row1.

(** ** Team rows as they are built *)

(** The list at [x] is new in [h'] and holds the six metrics of
    [country], computed on the store [h]: the name, the totals of its
    team and the two rates of the totals. *)
Definition team_entry (players : list loc) (squad_idx : Z) (sl : slice)
  (h h' : heap) (country : value) (x : loc) : Prop :=
  h !! x = None /\
  exists c team goals shots shots_on_target a b,
    country = VStr c /\
    fst (get_team players squad_idx c h) = Ok team /\
    fst (get_team_shooting_numbers team sl h)
    = Ok (goals, shots, shots_on_target) /\
    calculate_shot_conversion_rate goals shots 3 = Ok a /\
    calculate_shot_conversion_rate goals shots_on_target 3 = Ok b /\
    h' !!! x = [country; VInt goals; VInt shots; VInt shots_on_target;
                VFloat a; VFloat b].

(** The totals held by a team row. *)
Definition row_totals (row : list value) : Z * Z * Z :=
  match row with
  | [_; VInt goals; VInt shots; VInt shots_on_target; _; _] =>
      (goals, shots, shots_on_target)
  | _ => (0, 0, 0)
  end.

(** ** Shooting numbers and totals *)

(** [int()] of every item, left to right; the first failure is raised. *)
Fixpoint ints_of (l : list value) : result (list Z) :=
  match l with
  | [] => Ok []
  | v :: l' =>
      rbind (py_int v) (fun n => rbind (ints_of l') (fun ns => Ok (n :: ns)))
  end.

(** The triple [goals, shots, shots_on_target] read off a row. *)
Definition player_numbers (row : list value) (sl : slice)
  : result (Z * Z * Z) :=
  rbind (ints_of (list_slice row sl)) (fun ns =>
  match ns with
  | [a; b; c] => Ok (a, b, c)
  | _ => Raise ValueError
  end).

Definition add3 (a b : Z * Z * Z) : Z * Z * Z :=
  let '(x, y, z) := a in let '(u, v, w) := b in (x + u, y + v, z + w).

(** Componentwise sum *)
Definition sum3 (ts : list (Z * Z * Z)) : Z * Z * Z := foldr add3 (0, 0, 0) ts.

Fixpoint mapM {A B} (f : A -> result B) (l : list A) : result (list B) :=
  match l with
  | [] => Ok []
  | x :: l' => rbind (f x) (fun y => rbind (mapM f l') (fun ys => Ok (y :: ys)))
  end.

(** ** Top scorers *)

(** One turn of the loop on a row with [g] goals. *)
Definition top_step (acc : list loc * Z) (pg : loc * Z) : list loc * Z :=
  let '(top_scorers, high_score) := acc in
  let '(player, g) := pg in
  if (g >? high_score) && (g >? 0) then ([player], g)
  else if (g =? high_score) && (g >? 0)
  then (top_scorers ++ [player], high_score)
  else (top_scorers, high_score).

(** ** Stable insertion sort *)

Section StableSort.
Context {A : Type} (cmp : A -> A -> comparison).

Fixpoint insert_sorted (x : A) (l : list A) : list A :=
  match l with
  | [] => [x]
  | y :: l' =>
      match cmp y x with
      | Lt => y :: insert_sorted x l'
      | _ => x :: y :: l'
      end
  end.

Fixpoint insertion_sort (l : list A) : list A :=
  match l with
  | [] => []
  | x :: l' => insert_sorted x (insertion_sort l')
  end.

Definition cmp_le (x y : A) : Prop := cmp x y <> Gt.

End StableSort.

(** ** The order on sort keys *)

Definition fcmp (x y : float) : comparison := default Eq (SFcompare x y).

Definition str_of (v : value) : string :=
  match v with VStr s => s | _ => EmptyString end.

(** Three-way comparison of two key tuples with a float that is not a NaN
    and a string. *)
Definition key_cmp (k1 k2 : float * value) : comparison :=
  match fcmp k1.1 k2.1 with
  | Eq => String.compare (str_of k1.2) (str_of k2.2)
  | c => c
  end.

Definition nice_key (k : float * value) : Prop :=
  is_nan k.1 = false /\ exists c, k.2 = VStr c.

Definition pair_cmp {A} (a b : (float * value) * A) : comparison :=
  key_cmp a.1 b.1.

(** ** Team rows and their ranking *)

(** The list at [x] has the float [rate], not a NaN, second from the end
    and the string [name] first: the shape of a team row. *)
Definition team_row (h : heap) (x : loc) (rate : float) (name : string)
  : Prop :=
  list_getitem (h !!! x) (-2) = Ok (VFloat rate) /\
  is_nan rate = false /\
  list_getitem (h !!! x) 0 = Ok (VStr name).

Definition keyed (rate : loc -> float) (name : loc -> string) (x : loc)
  : (float * value) * loc :=
  ((SFopp (rate x), VStr (name x)), x).

(** Descending by rate, ascending by name among equal rates. *)
Definition ranked_before (rate : loc -> float) (name : loc -> string)
  (x y : loc) : Prop :=
  Float.ge (rate x) (rate y) = true /\
  (Float.eq (rate x) (rate y) = true -> String.leb (name x) (name y) = true).

(** The rows with a given rate and name: the ties of the sort. *)
Definition tied (rate : loc -> float) (name : loc -> string)
  (f : float) (c : string) (x : loc) : Prop :=
  Float.eq (rate x) f = true /\ name x = c.

Global Instance tied_dec rate name f c x : Decision (tied rate name f c x).
Proof. unfold tied. apply _. Defined.

(** ** Characters of a string *)

(** [c in s] for a character [c] *)
Fixpoint contains_char (c : ascii) (s : string) : bool :=
  match s with
  | EmptyString => false
  | String d s' => Ascii.eqb d c || contains_char c s'
  end.

(** ** First occurrences *)

(** The names of [l] not yet in [acc], appended to [acc] in the order in
    which they first occur. *)
Definition firsts (acc l : list string) : list string :=
  foldl (fun acc n => if bool_decide (n ∈ acc) then acc else acc ++ [n]) acc l.

(** [n] occurs in [l] before every occurrence of [m]. *)
Definition occurs_first (l : list string) (n m : string) : Prop :=
  exists k : nat, l !! k = Some n /\ forall k', l !! k' = Some m -> (k < k')%nat.

(** ** The best goal count *)

(** The largest of the goal counts [g q] of the rows of [l], or zero. *)
Definition best (g : loc -> Z) (l : list loc) : Z :=
  fold_left Z.max (g <$> l) 0.

(** ** [main] up to step 8 *)

(** [l.sort()] on a list of strings: ascending by [<], stable. *)
Fixpoint insert_string (x : string) (l : list string) : list string :=
  match l with
  | [] => [x]
  | y :: l' =>
      if String.ltb y x then y :: insert_string x l' else x :: y :: l'
  end.

Definition sort_strings (l : list string) : list string :=
  foldr insert_string [] l.

(** Steps 1.3 to 8.5 of [main] on the rows that [read_csv] returned,
    without the prints, the assertions and the calls of [write_csv]: the
    table of step 8, the countries of step 6.2 and the header.  After
    step 3.2 every squad field is a string, so are the countries. *)
Definition main_to_step_8 (data : list loc)
  : M (list (list loc) * list value * loc) :=
  rows <- truncate_rows data ;;
  match rows with
  | [] => raise IndexError
  | headers :: players =>
      idx <- normalize headers players ;;
      let '(pos_idx, squad_idx) := idx in
      get_multi_position_players players pos_idx ;;;
      get_team players squad_idx "China PR" ;;;
      get_team players squad_idx "Morocco" ;;;
      countries <- get_team_names players squad_idx ;;
      names <- lift (mapM (fun v => as_str v TypeError) countries) ;;
      let sorted := sort_strings names in
      hs <- load headers ;;
      gls_idx <- lift (list_index hs "Gls") ;;
      get_top_scorer players gls_idx ;;;
      table <- team_top_scorers players squad_idx gls_idx sorted ;;
      ret (table, countries, headers)
  end.

(** ** A roster of thirty-two squads

    One player for each squad, the first with one goal from ten shots,
    four of them on target, and Spain's last: a file that passes the
    assertions of [main]. *)

Definition sample_player (rk player squad gls sh sot : string) : list value :=
  [VStr rk; VStr player; VStr "MF"; VStr squad; VStr "25"; VStr "1998";
   VStr "3.0"; VStr gls; VStr sh; VStr sot].

Definition wwc_sample_rows : list (list value) :=
  [VStr "Rk"; VStr "Player"; VStr "Pos"; VStr "Squad"; VStr "Age";
   VStr "Born"; VStr "90s"; VStr "Gls"; VStr "Sh"; VStr "SoT"]
  :: [
     sample_player "1" "Player 1" "ar Argentina" "1" "10" "4";
     sample_player "2" "Player 2" "au Australia" "2" "8" "3";
     sample_player "3" "Player 3" "br Brazil" "0" "2" "1";
     sample_player "4" "Player 4" "ca Canada" "1" "5" "2";
     sample_player "5" "Player 5" "cn China PR" "2" "8" "3";
     sample_player "6" "Player 6" "co Colombia" "0" "2" "1";
     sample_player "7" "Player 7" "cr Costa Rica" "1" "5" "2";
     sample_player "8" "Player 8" "dk Denmark" "2" "8" "3";
     sample_player "9" "Player 9" "en England" "0" "2" "1";
     sample_player "10" "Player 10" "fr France" "1" "5" "2";
     sample_player "11" "Player 11" "de Germany" "2" "8" "3";
     sample_player "12" "Player 12" "ht Haiti" "0" "2" "1";
     sample_player "13" "Player 13" "it Italy" "1" "5" "2";
     sample_player "14" "Player 14" "jm Jamaica" "2" "8" "3";
     sample_player "15" "Player 15" "jp Japan" "0" "2" "1";
     sample_player "16" "Player 16" "kr Korea Republic" "1" "5" "2";
     sample_player "17" "Player 17" "ma Morocco" "2" "8" "3";
     sample_player "18" "Player 18" "nl Netherlands" "0" "2" "1";
     sample_player "19" "Player 19" "nz New Zealand" "1" "5" "2";
     sample_player "20" "Player 20" "ng Nigeria" "2" "8" "3";
     sample_player "21" "Player 21" "no Norway" "0" "2" "1";
     sample_player "22" "Player 22" "pa Panama" "1" "5" "2";
     sample_player "23" "Player 23" "ph Philippines" "2" "8" "3";
     sample_player "24" "Player 24" "pt Portugal" "0" "2" "1";
     sample_player "25" "Player 25" "ie Republic of Ireland" "1" "5" "2";
     sample_player "26" "Player 26" "za South Africa" "2" "8" "3";
     sample_player "27" "Player 27" "se Sweden" "0" "2" "1";
     sample_player "28" "Player 28" "ch Switzerland" "1" "5" "2";
     sample_player "29" "Player 29" "us United States" "2" "8" "3";
     sample_player "30" "Player 30" "vn Vietnam" "0" "2" "1";
     sample_player "31" "Player 31" "zm Zambia" "1" "5" "2";
     [VStr "619"; VStr "Claudia Zornoza"; VStr "MF"; VStr "es Spain";
      VStr "32"; VStr "1990"; VStr "0.4"; VStr "0"; VStr "0"; VStr "0"]].

Definition wwc_sample : heap :=
  list_to_map (zip (seq 0 33) wwc_sample_rows).

(** * Properties *)

(** ** The order on floats *)

Ltac cmp_cases :=
  repeat match goal with
    | H : context [Pos.compare_cont Eq ?a ?b] |- _ =>
        change (Pos.compare_cont Eq a b) with (Pos.compare a b) in H
    | |- context [Pos.compare_cont Eq ?a ?b] =>
        change (Pos.compare_cont Eq a b) with (Pos.compare a b)
    end;
  repeat match goal with
    | H : context [Z.compare ?a ?b] |- _ =>
        destruct (Z.compare_spec a b); simpl in H
    | H : context [Pos.compare ?a ?b] |- _ =>
        destruct (Pos.compare_spec a b); simpl in H
    | |- context [Z.compare ?a ?b] => destruct (Z.compare_spec a b); simpl
    | |- context [Pos.compare ?a ?b] => destruct (Pos.compare_spec a b); simpl
    end;
  subst; try congruence; try lia.

Lemma SFcompare_antisym (x y : float) :
  SFcompare y x = option_map CompOpp (SFcompare x y).
Proof.
  destruct x as [[]|[]| |[] m1 e1], y as [[]|[]| |[] m2 e2];
    simpl; try reflexivity; cmp_cases.
Qed.

Lemma SFcompare_trans (x y z : float) (c : comparison) :
  SFcompare x y = Some c -> SFcompare y z = Some c -> SFcompare x z = Some c.
Proof.
  destruct x as [[]|[]| |[] m1 e1], y as [[]|[]| |[] m2 e2],
      z as [[]|[]| |[] m3 e3]; simpl; intros H1 H2;
    try congruence; cmp_cases.
Qed.

Lemma SFcompare_eq_l (x y z : float) :
  SFcompare x y = Some Eq -> SFcompare x z = SFcompare y z.
Proof.
  destruct x as [[]|[]| |[] m1 e1], y as [[]|[]| |[] m2 e2],
      z as [[]|[]| |[] m3 e3]; simpl; intros H1;
    try congruence; cmp_cases.
Qed.

Lemma SFcompare_some (x y : float) :
  is_nan x = false -> is_nan y = false -> exists c, SFcompare x y = Some c.
Proof.
  destruct x, y; simpl; intros; try discriminate; eauto.
Qed.

Lemma SFcompare_opp (x y : float) :
  SFcompare (SFopp x) (SFopp y) = SFcompare y x.
Proof.
  destruct x as [[]|[]| |[] m1 e1], y as [[]|[]| |[] m2 e2];
    simpl; try reflexivity; cmp_cases.
Qed.

Lemma SFleb_trans (x y z : float) :
  SFleb x y = true -> SFleb y z = true -> SFleb x z = true.
Proof.
  unfold SFleb.
  destruct (SFcompare x y) as [[]|] eqn:H1; try discriminate;
    destruct (SFcompare y z) as [[]|] eqn:H2; try discriminate; intros _ _.
  - now rewrite (SFcompare_trans _ _ _ _ H1 H2).
  - now rewrite (SFcompare_eq_l _ _ z H1), H2.
  - pose proof (SFcompare_antisym y z) as H3. rewrite H2 in H3. simpl in H3.
    pose proof (SFcompare_eq_l _ _ x H3) as H4.
    rewrite (SFcompare_antisym x y), H1 in H4. simpl in H4.
    rewrite (SFcompare_antisym z x), H4. reflexivity.
  - now rewrite (SFcompare_trans _ _ _ _ H1 H2).
Qed.

Lemma ge_false_lt (r c : float) :
  is_nan r = false -> is_nan c = false ->
  Float.ge r c = false <-> Float.lt r c = true.
Proof.
  intros Hr Hc. unfold Float.ge, Float.lt, SFleb, SFltb.
  rewrite (SFcompare_antisym r c).
  destruct (SFcompare_some r c Hr Hc) as [k ->].
  destruct k; simpl; split; congruence.
Qed.

(** ** Division and rounding never produce a NaN *)

Lemma iter_pos_inv {A} (P : A -> Prop) (f : A -> A) :
  (forall a, P a -> P (f a)) -> forall n a, P a -> P (SpecFloat.iter_pos f n a).
Proof.
  intros Hf. induction n as [n IH|n IH|]; simpl; intros a Ha; auto.
Qed.

Lemma shr_1_nonneg mrs : 0 <= shr_m mrs -> 0 <= shr_m (shr_1 mrs).
Proof.
  destruct mrs as [m r s]. simpl.
  destruct m as [|[p|p|]|[p|p|]]; simpl; lia.
Qed.

Lemma shr_fexp_nonneg m e l :
  0 <= m -> 0 <= shr_m (fst (shr_fexp prec emax m e l)).
Proof.
  intros Hm. unfold shr_fexp, shr.
  assert (H0 : 0 <= shr_m (shr_record_of_loc m l))
    by (destruct l as [|[]]; simpl; exact Hm).
  destruct (fexp prec emax (Zdigits2 m + e) - e); simpl; auto.
  apply (iter_pos_inv (fun r => 0 <= shr_m r)); auto using shr_1_nonneg.
Qed.

Lemma round_nearest_even_nonneg m l : 0 <= m -> 0 <= round_nearest_even m l.
Proof.
  intros Hm. destruct l as [|[]]; simpl; try lia.
  destruct (Z.even m); lia.
Qed.

Lemma binary_round_aux_not_nan s m e l :
  0 <= m -> is_nan (binary_round_aux prec emax s m e l) = false.
Proof.
  intros Hm. unfold binary_round_aux.
  pose proof (shr_fexp_nonneg m e l Hm) as H1.
  destruct (shr_fexp prec emax m e l) as [mrs' e']. simpl in H1.
  pose proof (shr_fexp_nonneg
                (round_nearest_even (shr_m mrs') (loc_of_shr_record mrs'))
                e' loc_Exact (round_nearest_even_nonneg _ _ H1)) as H2.
  destruct (shr_fexp prec emax _ e' loc_Exact) as [mrs'' e'']. simpl in H2.
  destruct (shr_m mrs''); try lia; try reflexivity.
  destruct (e'' <=? emax - prec); reflexivity.
Qed.

Lemma nearest_ratio_not_nan s n d : is_nan (nearest_ratio s n d) = false.
Proof.
  unfold nearest_ratio. destruct n as [|p]; simpl; [reflexivity|].
  unfold SFdiv_core_binary.
  set (e' := Z.min _ _). set (m' := match 0 - 0 - e' with 0 => _ | _ => _ end).
  assert (Hm' : 0 <= m').
  { subst m'. destruct (0 - 0 - e'); try lia. apply Z.shiftl_nonneg. lia. }
  pose proof (Z.div_eucl_eq m' (Z.pos d) ltac:(lia)) as Hq.
  pose proof (Z.mod_pos_bound m' (Z.pos d) ltac:(lia)) as Hr.
  unfold Z.modulo in Hr.
  destruct (Z.div_eucl m' (Z.pos d)) as [q r].
  apply binary_round_aux_not_nan. nia.
Qed.

Lemma of_decimal_not_nan s n e10 : is_nan (of_decimal s n e10) = false.
Proof.
  unfold of_decimal. destruct (0 <=? e10); apply nearest_ratio_not_nan.
Qed.

Lemma int_truediv_not_nan a b q :
  int_truediv a b = Ok q -> is_nan q = false.
Proof.
  unfold int_truediv. destruct (b =? 0); [discriminate|].
  pose proof (nearest_ratio_not_nan (xorb (a <? 0) (b <? 0)) (Z.abs_N a)
                (Z.to_pos (Z.abs b))) as H.
  destruct (nearest_ratio _ _ _); inversion 1; subst; exact H.
Qed.

Lemma round_not_nan x p r :
  is_nan x = false -> round x p = Ok r -> is_nan r = false.
Proof.
  unfold round. intros Hx.
  destruct x as [s|s| |s m e]; simpl; try discriminate;
    try (inversion 1; subst; reflexivity);
    (destruct (NDIGITS_MAX <? p); [inversion 1; subst; reflexivity|]);
    (destruct (p <? NDIGITS_MIN); [inversion 1; subst; reflexivity|]).
  - inversion 1; subst; reflexivity.
  - pose proof (of_decimal_not_nan s (decimal_digits m e p) (- p)) as H.
    destruct (of_decimal _ _ _); inversion 1; subst; exact H.
Qed.

(** A conversion rate is never a NaN. *)
Lemma conversion_rate_not_nan goals shots p r :
  calculate_shot_conversion_rate goals shots p = Ok r -> is_nan r = false.
Proof.
  unfold calculate_shot_conversion_rate, try_except, rbind.
  destruct (int_truediv goals shots) as [q|e] eqn:Hq.
  - destruct (round q p) as [r'|e] eqn:Hr.
    + inversion 1; subst. eapply round_not_nan; eauto using int_truediv_not_nan.
    + destruct (decide (e = ZeroDivisionError)); inversion 1; reflexivity.
  - destruct (decide (e = ZeroDivisionError)); inversion 1; reflexivity.
Qed.

(** ** The arithmetic, on values

    Quotients, conversions and roundings with the results the interpreter
    prints for them (mantissa and exponent of the double). *)

Example int_truediv_examples :
  int_truediv 1 3 = Ok (S754_finite false 6004799503160661 (-54)) /\
  int_truediv (-7) 2 = Ok (S754_finite true 7881299347898368 (-51)) /\
  int_truediv (2 ^ 53 + 1) 1 = Ok (S754_finite false 4503599627370496 1) /\
  int_truediv (10 ^ 23) 1 = Ok (S754_finite false 5960464477539062 24) /\
  int_truediv 1 (10 ^ 320) = Ok (S754_finite false 2024 (-1074)) /\
  int_truediv 1 (10 ^ 400) = Ok (S754_zero false) /\
  int_truediv 0 (-5) = Ok (S754_zero true) /\
  int_truediv (10 ^ 400) (10 ^ 399)
  = Ok (S754_finite false 5629499534213120 (-49)) /\
  int_truediv 1 0 = Raise ZeroDivisionError /\
  of_int (2 ^ 1024) = Raise OverflowError.
Proof. vm_compute. repeat split. Qed.

(** [round(0.5, 0) == 0.0], [round(1.5, 0) == 2.0], [round(2.5, 0) ==
    2.0], [round(0.125, 2) == 0.12], [round(0.375, 2) == 0.38],
    [round(-0.4, 0) == -0.0], [round(1234.5678, -2) == 1200.0],
    [round(5e-324, 323) == 0.0], and the largest double overflows at
    [-307] places. *)
Example round_examples :
  round (S754_finite false 4503599627370496 (-53)) 0 = Ok (S754_zero false) /\
  round (S754_finite false 6755399441055744 (-52)) 0
  = Ok (S754_finite false 4503599627370496 (-51)) /\
  round (S754_finite false 5629499534213120 (-51)) 0
  = Ok (S754_finite false 4503599627370496 (-51)) /\
  round (S754_finite false 4503599627370496 (-55)) 2
  = Ok (S754_finite false 8646911284551352 (-56)) /\
  round (S754_finite false 6755399441055744 (-54)) 2
  = Ok (S754_finite false 6845471433603154 (-54)) /\
  round (S754_finite true 7205759403792794 (-54)) 0 = Ok (S754_zero true) /\
  round (S754_finite false 5429686605511341 (-42)) (-2)
  = Ok (S754_finite false 5277655813324800 (-42)) /\
  round (S754_finite false 1 (-1074)) 323 = Ok (S754_zero false) /\
  round (S754_finite false 9007199254740991 971) (-307) = Raise OverflowError.
Proof. vm_compute. repeat split. Qed.

Example int_examples :
  py_int (VStr " 1_000 ") = Ok 1000 /\
  py_int (VStr "-0") = Ok 0 /\
  py_int (VStr "007") = Ok 7 /\
  py_int (VStr "1__0") = Raise ValueError /\
  py_int (VStr "_1") = Raise ValueError /\
  py_int (VStr "- 5") = Raise ValueError /\
  py_int (VStr "") = Raise ValueError /\
  py_int (VStr "n/a") = Raise ValueError /\
  py_int (VStr (String (ascii_of_nat 12) "5")) = Ok 5 /\
  py_int (VStr (String (ascii_of_nat 28) "5")) = Raise ValueError /\
  py_int (VStr (String (ascii_of_nat 31) "5")) = Raise ValueError /\
  py_int (VStr (string_of_list_ascii (repeat "0"%char 4299 ++ ["_"; "7"]%char)))
  = Ok 7 /\
  py_int (VStr (string_of_list_ascii ("-"%char :: repeat "0"%char 4301)))
  = Raise ValueError /\
  py_int (VFloat (S754_finite true 6079859496950170 (-51))) = Ok (-2).
Proof. vm_compute. repeat split. Qed.

Example float_examples :
  py_float (VStr "0.25") = Ok (S754_finite false 4503599627370496 (-54)) /\
  py_float (VStr " 1e3 ") = Ok (S754_finite false 8796093022208000 (-43)) /\
  py_float (VStr "-.5") = Ok (S754_finite true 4503599627370496 (-53)) /\
  py_float (VStr "1_0.2_5e-1")
  = Ok (S754_finite false 4616189618054758 (-52)) /\
  py_float (VStr "1e400") = Ok (S754_infinity false) /\
  py_float (VStr "-Infinity") = Ok (S754_infinity true) /\
  py_float (VStr "nan") = Ok S754_nan /\
  py_float (VStr ".") = Raise ValueError /\
  py_float (VStr "1_.5") = Raise ValueError /\
  py_float (VStr "0x10") = Raise ValueError /\
  py_float (VStr (String (ascii_of_nat 28) "5")) = Raise ValueError /\
  py_float (VInt 3) = Ok (S754_finite false 6755399441055744 (-51)).
Proof. vm_compute. repeat split. Qed.

Example compare_examples :
  py_lt (VStr "Brazil") (VStr "Nigeria") = Ok true /\
  py_lt (VInt 1) (VFloat lit_0_4) = Ok false /\
  py_lt (VFloat lit_0_4) (VInt 1) = Ok true /\
  py_eq (VInt 0) (VFloat (S754_zero true)) = true /\
  py_eq (VStr "1") (VInt 1) = false /\
  py_lt (VStr "a") (VInt 1) = Raise TypeError.
Proof. vm_compute. repeat split. Qed.

(** ** The conversion rate *)

Lemma int_truediv_raise a b e :
  int_truediv a b = Raise e ->
  (e = ZeroDivisionError /\ b = 0) \/ (e = OverflowError /\ b <> 0).
Proof.
  unfold int_truediv. destruct (Z.eqb_spec b 0) as [Hb|Hb].
  - inversion 1; auto.
  - destruct (nearest_ratio _ _ _); inversion 1; auto.
Qed.

Lemma round_raise x p e : round x p = Raise e -> e = OverflowError.
Proof.
  unfold round. destruct (negb (is_finite x)); [discriminate|].
  destruct (NDIGITS_MAX <? p); [discriminate|].
  destruct (p <? NDIGITS_MIN); [discriminate|].
  unfold double_round. destruct x; try discriminate.
  destruct (of_decimal _ _ _); inversion 1; reflexivity.
Qed.

(** C2 (as amended).  With [shots = 0] the rate is exactly [0.0]; otherwise
    it is [round(goals / shots, precision)].  A [ZeroDivisionError] never
    leaves the function; the only exception that does is the
    [OverflowError] of a quotient or rounded value too large for a float. *)
Theorem conversion_rate_spec (goals shots precision : Z) :
  (shots = 0 ->
   calculate_shot_conversion_rate goals shots precision = Ok zero) /\
  (shots <> 0 ->
   calculate_shot_conversion_rate goals shots precision
   = rbind (int_truediv goals shots) (fun q => round q precision)) /\
  (forall e,
     calculate_shot_conversion_rate goals shots precision = Raise e ->
     e = OverflowError /\ shots <> 0).
Proof.
  unfold calculate_shot_conversion_rate, try_except, rbind.
  split; [|split].
  - intros ->. unfold int_truediv. reflexivity.
  - intros Hs. destruct (int_truediv goals shots) as [q|e] eqn:Hq.
    + destruct (round q precision) as [r|e] eqn:Hr; [reflexivity|].
      apply round_raise in Hr as ->. reflexivity.
    + apply int_truediv_raise in Hq as [[-> ->]|[-> _]]; [lia|reflexivity].
  - intros e. destruct (int_truediv goals shots) as [q|e'] eqn:Hq.
    + destruct (round q precision) as [r|e'] eqn:Hr; [discriminate|].
      apply round_raise in Hr as ->. simpl. inversion 1; subst.
      split; [reflexivity|]. intros ->. discriminate Hq.
    + apply int_truediv_raise in Hq as [[-> ->]|[-> Hb]]; simpl.
      * discriminate.
      * inversion 1; auto.
Qed.

Lemma conversion_rate_spec_witness :
  calculate_shot_conversion_rate 0 0 2 = Ok zero /\
  calculate_shot_conversion_rate 5 0 3 = Ok zero /\
  calculate_shot_conversion_rate 1 4 3
  = rbind (int_truediv 1 4) (fun q => round q 3).
Proof.
  split; [|split].
  - apply (proj1 (conversion_rate_spec 0 0 2)). reflexivity.
  - apply (proj1 (conversion_rate_spec 5 0 3)). reflexivity.
  - apply (proj1 (proj2 (conversion_rate_spec 1 4 3))). lia.
Defined.

(** C2 (as stated) fails: the function is not total over all pairs of
    integers.  [10**400 / 1] raises [OverflowError], which is not caught. *)
Lemma conversion_rate_not_total :
  calculate_shot_conversion_rate (10 ^ 400) 1 2 = Raise OverflowError.
Proof. vm_compute. reflexivity. Qed.

(** On every pair of counts up to 60 the rate at three places is
    returned. *)
Example conversion_rate_small_counts :
  forallb
    (fun g =>
       forallb
         (fun s =>
            match calculate_shot_conversion_rate (Z.of_nat g) (Z.of_nat s) 3
            with
            | Ok _ => true
            | Raise _ => false
            end)
         (seq 0 61))
    (seq 0 61)
  = true.
Proof. vm_compute. reflexivity. Qed.

(** [round(1/4, 3) == 0.25], [round(2/5, 3) == 0.4], [round(1/3, 3) ==
    0.333]: the rates are the doubles the literals denote. *)
Example conversion_rate_examples :
  calculate_shot_conversion_rate 1 4 3 = Ok (of_decimal false 25 (-2)) /\
  calculate_shot_conversion_rate 2 5 3 = Ok lit_0_4 /\
  calculate_shot_conversion_rate 1 3 3 = Ok (of_decimal false 333 (-3)) /\
  calculate_shot_conversion_rate 2675 1000 2 = Ok (of_decimal false 267 (-2)).
Proof. vm_compute. repeat split. Qed.

(** ** The rating ladder *)

(** C4.  On every rate (a float that is not a NaN; a conversion rate
    never is one) the ladder gives each tier exactly on its interval, the
    lower bound included. *)
Theorem tier_ladder (r : float) :
  is_nan r = false ->
  (efficiency_rating r = "Top Tier"%string <-> Float.ge r lit_0_4 = true) /\
  (efficiency_rating r = "Upper Middle Tier"%string <->
   Float.ge r lit_0_3 = true /\ Float.lt r lit_0_4 = true) /\
  (efficiency_rating r = "Lower Middle Tier"%string <->
   Float.ge r lit_0_2 = true /\ Float.lt r lit_0_3 = true) /\
  (efficiency_rating r = "Bottom Tier"%string <-> Float.lt r lit_0_2 = true) /\
  efficiency_rating lit_0_4 = "Top Tier"%string /\
  efficiency_rating lit_0_3 = "Upper Middle Tier"%string /\
  efficiency_rating lit_0_2 = "Lower Middle Tier"%string.
Proof.
  intros Hr.
  pose proof (ge_false_lt r lit_0_4 Hr eq_refl) as H4.
  pose proof (ge_false_lt r lit_0_3 Hr eq_refl) as H3.
  pose proof (ge_false_lt r lit_0_2 Hr eq_refl) as H2.
  assert (H43 : Float.ge r lit_0_4 = true -> Float.ge r lit_0_3 = true).
  { unfold Float.ge. apply SFleb_trans. reflexivity. }
  assert (H32 : Float.ge r lit_0_3 = true -> Float.ge r lit_0_2 = true).
  { unfold Float.ge. apply SFleb_trans. reflexivity. }
  repeat apply conj; try reflexivity; unfold efficiency_rating;
    destruct (Float.ge r lit_0_4) eqn:G4, (Float.ge r lit_0_3) eqn:G3,
      (Float.ge r lit_0_2) eqn:G2;
    intuition congruence.
Qed.

Lemma tier_ladder_witness :
  efficiency_rating (of_decimal false 25 (-2)) = "Lower Middle Tier"%string.
Proof.
  apply (proj1 (proj2 (proj2 (tier_ladder (of_decimal false 25 (-2)) eq_refl)))).
  split; reflexivity.
Defined.

(** ** Splitting the squad field *)

Lemma substring_all (s : string) : substring 0 (String.length s) s = s.
Proof. induction s as [|c s IH]; simpl; [reflexivity|]. now rewrite IH. Qed.

(** C8.  On an abbreviation [a b], a separator and a name, the result is
    the upper-cased abbreviation and the name as it is. *)
Theorem clean_squad_split (a b sep : ascii) (name : string) :
  clean_squad (String a (String b (String sep name)))
  = (upper (String a (String b EmptyString)), name) /\
  clean_squad "ng Nigeria" = ("NG"%string, "Nigeria"%string) /\
  clean_squad "za South Africa" = ("ZA"%string, "South Africa"%string).
Proof.
  split; [|split; reflexivity].
  unfold clean_squad, str_slice, slice_bounds. cbn [start stop String.length].
  set (n := String.length name).
  assert (H2 : adjust_index (S (S (S n))) 2 = 2%nat).
  { unfold adjust_index. cbn [Z.ltb Z.compare]. lia. }
  assert (H3 : adjust_index (S (S (S n))) 3 = 3%nat).
  { unfold adjust_index. cbn [Z.ltb Z.compare]. lia. }
  rewrite H2, H3. cbn [Nat.sub substring].
  subst n. rewrite Nat.sub_0_r, substring_all. reflexivity.
Qed.

(** C10.  A string shorter than three characters is not an error: the
    result is its upper-casing and the empty string. *)
Theorem clean_squad_short (s : string) :
  (String.length s < 3)%nat -> clean_squad s = (upper s, EmptyString).
Proof.
  intros H. destruct s as [|a [|b [|c s]]]; try reflexivity.
  simpl in H. lia.
Qed.

Lemma clean_squad_short_witness :
  clean_squad "es" = ("ES"%string, EmptyString) /\
  clean_squad "e" = ("E"%string, EmptyString) /\
  clean_squad "" = (EmptyString, EmptyString).
Proof.
  split; [|split].
  - apply (clean_squad_short "es"). simpl. lia.
  - apply (clean_squad_short "e"). simpl. lia.
  - apply (clean_squad_short ""). simpl. lia.
Defined.

(** ** Looking a column name up *)

Lemma list_index_from_spec (l : list value) (name : string) (i0 : Z) :
  match list_index_from l name i0 with
  | Ok i => exists n : nat,
      i = i0 + Z.of_nat n /\ l !! n = Some (VStr name) /\
      forall j : nat, (j < n)%nat -> l !! j <> Some (VStr name)
  | Raise e => e = ValueError /\ VStr name ∉ l
  end.
Proof.
  revert i0. induction l as [|v l IH]; intros i0; simpl.
  - split; [reflexivity|]. apply not_elem_of_nil.
  - assert (Hnext : v <> VStr name ->
      match list_index_from l name (i0 + 1) with
      | Ok i => exists n : nat,
          i = i0 + Z.of_nat n /\ (v :: l) !! n = Some (VStr name) /\
          forall j : nat, (j < n)%nat -> (v :: l) !! j <> Some (VStr name)
      | Raise e => e = ValueError /\ VStr name ∉ v :: l
      end).
    { intros Hv. specialize (IH (i0 + 1)).
      destruct (list_index_from l name (i0 + 1)) as [i|e].
      - destruct IH as (n & -> & Hn & Hmin). exists (S n).
        split; [lia|]. split; [exact Hn|].
        intros [|j] Hj; simpl; [congruence|]. apply Hmin. lia.
      - destruct IH as [-> Hnot]. split; [reflexivity|].
        rewrite not_elem_of_cons. split; [congruence|exact Hnot]. }
    destruct v as [s|n|f]; try (apply Hnext; discriminate).
    destruct (String.eqb_spec s name) as [->|Hne].
    + exists 0%nat. split; [lia|]. split; [reflexivity|]. lia.
    + apply Hnext. congruence.
Qed.

(** C7.  The lookup returns the zero-based position of the first field
    with that name, and raises when there is none; in [main] the error of
    a missing ["Pos"] or ["Squad"] column leaves the step at once, before
    any row is touched. *)
Theorem header_index (hs : list value) (name : string) :
  (VStr name ∈ hs ->
   exists n : nat,
     list_index hs name = Ok (Z.of_nat n) /\ hs !! n = Some (VStr name) /\
     forall j : nat, (j < n)%nat -> hs !! j <> Some (VStr name)) /\
  (VStr name ∉ hs -> list_index hs name = Raise ValueError) /\
  (VStr name ∉ hs -> name = "Pos"%string \/ name = "Squad"%string ->
   forall (h : heap) (headers : loc) (players : list loc),
     h !!! headers = hs ->
     normalize headers players h = (Raise ValueError, h)).
Proof.
  assert (Habsent :
    forall nm, VStr nm ∉ hs -> list_index hs nm = Raise ValueError).
  { intros nm Hnot. unfold list_index.
    pose proof (list_index_from_spec hs nm 0) as H.
    destruct (list_index_from hs nm 0) as [i|e].
    - destruct H as (n & _ & Hn & _). exfalso. apply Hnot.
      apply list_elem_of_lookup. eauto.
    - destruct H as [-> _]. reflexivity. }
  split; [|split].
  - intros Hin. unfold list_index.
    pose proof (list_index_from_spec hs name 0) as H.
    destruct (list_index_from hs name 0) as [i|e].
    + destruct H as (n & -> & Hn & Hmin). exists n. auto.
    + destruct H as [_ Hnot]. contradiction.
  - apply Habsent.
  - intros Hnot Hname h headers players Hh.
    unfold normalize, bind, load, lift. rewrite Hh.
    destruct Hname as [-> | ->].
    + rewrite (Habsent _ Hnot). reflexivity.
    + rewrite (Habsent _ Hnot).
      pose proof (list_index_from_spec hs "Pos" 0) as H.
      unfold list_index. destruct (list_index_from hs "Pos" 0) as [i|e].
      * reflexivity.
      * destruct H as [-> _]. reflexivity.
Qed.

Lemma header_index_witness :
  (exists n : nat,
     list_index [VStr "Rk"; VStr "Player"; VStr "Pos"; VStr "Squad"] "Squad"
     = Ok (Z.of_nat n) /\
     [VStr "Rk"; VStr "Player"; VStr "Pos"; VStr "Squad"] !! n
     = Some (VStr "Squad") /\
     forall j : nat, (j < n)%nat ->
       [VStr "Rk"; VStr "Player"; VStr "Pos"; VStr "Squad"] !! j
       <> Some (VStr "Squad")) /\
  list_index [VStr "Rk"; VStr "Player"; VStr "Pos"; VStr "Squad"] "Gls"
  = Raise ValueError.
Proof.
  split.
  - apply (proj1 (header_index _ "Squad")).
    do 3 apply list_elem_of_further. apply list_elem_of_here.
  - apply (proj1 (proj2 (header_index _ "Gls"))).
    intros H. repeat (apply elem_of_cons in H as [H|H]; [discriminate|]).
    inversion H.
Defined.

(** ** The store: frames *)

Lemma extends_refl (h : heap) : extends h h.
Proof. intros q _. reflexivity. Qed.

Lemma extends_trans (h1 h2 h3 : heap) :
  extends h1 h2 -> extends h2 h3 -> extends h1 h3.
Proof.
  intros H12 H23 q Hq. rewrite <- (H12 q Hq). apply H23.
  rewrite (H12 q Hq). exact Hq.
Qed.

Lemma extends_total (h h' : heap) (q : loc) :
  extends h h' -> is_Some (h !! q) -> h' !!! q = h !!! q.
Proof.
  intros He Hq. rewrite !lookup_total_alt. now rewrite (He q Hq).
Qed.

Lemma extends_is_Some (h h' : heap) (q : loc) :
  extends h h' -> is_Some (h !! q) -> is_Some (h' !! q).
Proof. intros He Hq. now rewrite (He q Hq). Qed.

Lemma extends_fresh (h : heap) (l : list value) :
  extends h (<[fresh (dom h) := l]> h).
Proof.
  intros q Hq. apply lookup_insert_ne. intros <-.
  apply elem_of_dom in Hq. exact (is_fresh (dom h) Hq).
Qed.

(** ** Indexing with a position *)

Lemma norm_index_nat (len k : nat) :
  (k < len)%nat -> norm_index len (Z.of_nat k) = Ok k.
Proof.
  intros Hk. unfold norm_index.
  destruct (Z.ltb_spec (Z.of_nat k) 0); [lia|].
  destruct (Z.leb_spec 0 (Z.of_nat k)); [|lia].
  destruct (Z.ltb_spec (Z.of_nat k) (Z.of_nat len)); [|lia].
  simpl. now rewrite Nat2Z.id.
Qed.

Lemma list_getitem_nat (l : list value) (k : nat) (v : value) :
  l !! k = Some v -> list_getitem l (Z.of_nat k) = Ok v.
Proof.
  intros Hk. unfold list_getitem.
  rewrite norm_index_nat by (eapply lookup_lt_Some; eauto).
  simpl. now rewrite Hk.
Qed.

Lemma list_setitem_nat (l : list value) (k : nat) (v : value) :
  (k < length l)%nat -> list_setitem l (Z.of_nat k) v = Ok (<[k := v]> l).
Proof.
  intros Hk. unfold list_setitem. now rewrite norm_index_nat.
Qed.

(** ** The shooting numbers of a player *)

Lemma bind_ok {A B} (m : M A) (k : A -> M B) (h h' : heap) (a : A) :
  m h = (Ok a, h') -> bind m k h = k a h'.
Proof. intros H. unfold bind. now rewrite H. Qed.

Lemma bind_raise {A B} (m : M A) (k : A -> M B) (h h' : heap) (e : exn) :
  m h = (Raise e, h') -> bind m k h = (Raise e, h').
Proof. intros H. unfold bind. now rewrite H. Qed.

Lemma getitem_run (p : loc) (i : Z) (h : heap) :
  getitem p i h = (list_getitem (h !!! p) i, h).
Proof. reflexivity. Qed.

Lemma setitem_run (p : loc) (i : Z) (v : value) (h : heap) :
  setitem p i v h
  = match list_setitem (h !!! p) i v with
    | Ok l' => (Ok tt, <[p := l']> h)
    | Raise e => (Raise e, h)
    end.
Proof.
  unfold setitem, bind, load, lift, store.
  destruct (list_setitem _ _ _); reflexivity.
Qed.

Lemma convert_loop (new : loc) (todo : list value) :
  forall (done : list value) (h : heap),
    h !! new = Some (done ++ todo) ->
    match ints_of todo with
    | Ok ns =>
        for_each (seq (length done) (length todo)) (convert_item new) tt h
        = (Ok tt, <[new := done ++ (VInt <$> ns)]> h)
    | Raise e =>
        exists l',
        for_each (seq (length done) (length todo)) (convert_item new) tt h
        = (Raise e, <[new := l']> h)
    end.
Proof.
  induction todo as [|v todo IH]; intros done h Hnew.
  - simpl. unfold ret. rewrite app_nil_r in *.
    now rewrite insert_id.
  - cbn [ints_of length seq for_each].
    assert (Hget : getitem new (Z.of_nat (length done)) h = (Ok v, h)).
    { rewrite getitem_run, (lookup_total_correct _ _ _ Hnew).
      rewrite (list_getitem_nat _ _ v); [reflexivity|].
      now rewrite list_lookup_middle. }
    destruct (py_int v) as [n|e] eqn:Hv; cbn [rbind].
    + assert (Hitem : convert_item new tt (length done) h
                      = (Ok tt, <[new := (done ++ [VInt n]) ++ todo]> h)).
      { unfold convert_item. rewrite (bind_ok _ _ _ _ _ Hget).
        unfold lift at 1. unfold bind at 1. rewrite Hv.
        rewrite setitem_run, (lookup_total_correct _ _ _ Hnew).
        rewrite list_setitem_nat by (rewrite length_app; simpl; lia).
        rewrite insert_app_r_alt by lia. rewrite Nat.sub_diag. simpl.
        now rewrite <- app_assoc. }
      specialize (IH (done ++ [VInt n])
                    (<[new := (done ++ [VInt n]) ++ todo]> h)
                    (lookup_insert_eq _ _ _)).
      rewrite length_app, Nat.add_1_r in IH.
      destruct (ints_of todo) as [ns|e]; cbn [rbind].
      * rewrite (bind_ok _ _ _ _ _ Hitem), IH, insert_insert_eq.
        now rewrite <- app_assoc.
      * destruct IH as [l' IH]. exists l'.
        now rewrite (bind_ok _ _ _ _ _ Hitem), IH, insert_insert_eq.
    + exists (done ++ v :: todo). rewrite insert_id by exact Hnew.
      apply bind_raise. unfold convert_item.
      rewrite (bind_ok _ _ _ _ _ Hget).
      unfold lift, bind. now rewrite Hv.
Qed.

Lemma get_player_shooting_numbers_run (h : heap) (player : loc) (sl : slice) :
  let new := fresh (dom h) in
  match ints_of (list_slice (h !!! player) sl) with
  | Ok ns =>
      get_player_shooting_numbers player sl h
      = (Ok new, <[new := VInt <$> ns]> h)
  | Raise e =>
      exists l',
        get_player_shooting_numbers player sl h = (Raise e, <[new := l']> h)
  end.
Proof.
  intros new. set (l := list_slice (h !!! player) sl).
  assert (Heq : get_player_shooting_numbers player sl h
                = (for_each (seq 0 (length l)) (convert_item new) tt ;;;
                   ret new) (<[new := l]> h)).
  { unfold get_player_shooting_numbers.
    unfold bind at 1. unfold load at 1. unfold bind at 1. unfold alloc.
    fold new. fold l. unfold bind at 1. unfold load at 1.
    now rewrite lookup_total_insert_eq. }
  rewrite Heq.
  pose proof (convert_loop new l [] (<[new := l]> h)
                (lookup_insert_eq _ _ _)) as Hloop.
  simpl in Hloop.
  destruct (ints_of l) as [ns|e].
  - rewrite (bind_ok _ _ _ _ _ Hloop). unfold ret.
    now rewrite insert_insert_eq.
  - destruct Hloop as [l' Hloop]. exists l'.
    now rewrite (bind_raise _ _ _ _ _ Hloop), insert_insert_eq.
Qed.

Lemma get_player_shooting_numbers_frame (h h' : heap) (player : loc)
  (sl : slice) (r : result loc) :
  get_player_shooting_numbers player sl h = (r, h') -> extends h h'.
Proof.
  intros Hrun.
  pose proof (get_player_shooting_numbers_run h player sl) as H.
  simpl in H. destruct (ints_of _) as [ns|e].
  - rewrite H in Hrun. inversion Hrun; subst. apply extends_fresh.
  - destruct H as [l' H]. rewrite H in Hrun. inversion Hrun; subst.
    apply extends_fresh.
Qed.

(** C9.  The call leaves the player row as it was, and with it every list
    of the store, whether it returns or a field fails to parse: the ints
    are written to the new list the slice made. *)
Theorem get_player_shooting_numbers_keeps_row (h h' : heap) (player : loc)
  (sl : slice) (r : result loc) :
  is_Some (h !! player) ->
  get_player_shooting_numbers player sl h = (r, h') ->
  h' !! player = h !! player /\
  (forall q : loc, is_Some (h !! q) -> h' !! q = h !! q) /\
  (forall p : loc, r = Ok p -> p <> player /\ h !! p = None).
Proof.
  intros Hp Hrun.
  pose proof (get_player_shooting_numbers_frame _ _ _ _ _ Hrun) as Hext.
  split; [exact (Hext player Hp)|]. split; [exact Hext|].
  intros p ->.
  pose proof (get_player_shooting_numbers_run h player sl) as H.
  simpl in H. destruct (ints_of _) as [ns|e].
  - rewrite H in Hrun. inversion Hrun; subst.
    assert (Hfresh : h !! fresh (dom h) = None).
    { apply not_elem_of_dom. apply is_fresh. }
    split; [|exact Hfresh]. intros Heq. rewrite Heq in Hfresh.
    destruct Hp as [x Hx]. congruence.
  - destruct H as [l' H]. rewrite H in Hrun. inversion Hrun.
Qed.

(** ** Team totals *)

Lemma unpack3_ints (ns : list Z) (p : loc) (h : heap) :
  h !! p = Some (VInt <$> ns) ->
  unpack3 p h
  = (match ns with [a; b; c] => Ok (a, b, c) | _ => Raise ValueError end, h).
Proof.
  intros Hp. unfold unpack3, bind, load.
  rewrite (lookup_total_correct _ _ _ Hp).
  destruct ns as [|a [|b [|c [|d ns]]]]; reflexivity.
Qed.

Lemma shooting_triple_run (h : heap) (p : loc) (sl : slice) :
  exists h',
    (nums <- get_player_shooting_numbers p sl ;; unpack3 nums) h
    = (player_numbers (h !!! p) sl, h') /\ extends h h'.
Proof.
  pose proof (get_player_shooting_numbers_run h p sl) as H. simpl in H.
  unfold player_numbers. destruct (ints_of _) as [ns|e].
  - eexists. split; [|apply extends_fresh].
    rewrite (bind_ok _ _ _ _ _ H).
    rewrite (unpack3_ints ns) by apply lookup_insert_eq. reflexivity.
  - destruct H as [l' H]. eexists. split; [|apply extends_fresh].
    rewrite (bind_raise _ _ _ _ _ H). reflexivity.
Qed.

Lemma add3_assoc a b c : add3 (add3 a b) c = add3 a (add3 b c).
Proof.
  destruct a as [[? ?] ?], b as [[? ?] ?], c as [[? ?] ?]. simpl.
  f_equal; [f_equal|]; lia.
Qed.

Lemma add3_comm a b : add3 a b = add3 b a.
Proof.
  destruct a as [[? ?] ?], b as [[? ?] ?]. simpl. f_equal; [f_equal|]; lia.
Qed.

Lemma add3_0_r a : add3 a (0, 0, 0) = a.
Proof. destruct a as [[? ?] ?]. simpl. f_equal; [f_equal|]; lia. Qed.

Lemma mapM_ext {A B} (f g : A -> result B) (l : list A) :
  (forall x, x ∈ l -> f x = g x) -> mapM f l = mapM g l.
Proof.
  induction l as [|x l IH]; intros H; simpl; [reflexivity|].
  rewrite (H x) by apply list_elem_of_here.
  rewrite IH; [reflexivity|]. intros y Hy. apply H. now apply list_elem_of_further.
Qed.

Lemma mapM_Forall2 {A B} (f : A -> result B) (l : list A) (ys : list B) :
  mapM f l = Ok ys <-> Forall2 (fun x y => f x = Ok y) l ys.
Proof.
  revert ys. induction l as [|x l IH]; intros ys; simpl.
  - split.
    + inversion 1. constructor.
    + inversion 1. reflexivity.
  - split.
    + destruct (f x) as [y|e] eqn:Hx; simpl; [|discriminate].
      destruct (mapM f l) as [ys'|e] eqn:Hl; simpl; [|discriminate].
      inversion 1; subst. constructor; [exact Hx|]. now apply IH.
    + inversion 1 as [|? y ? ys' Hx Hl]; subst. rewrite Hx. simpl.
      apply IH in Hl. rewrite Hl. reflexivity.
Qed.

Lemma bind_assoc {A B C} (m : M A) (f : A -> M B) (g : B -> M C) (h : heap) :
  bind (bind m f) g h = bind m (fun x => bind (f x) g) h.
Proof. unfold bind. destruct (m h) as [[a|e] h']; reflexivity. Qed.

Lemma totals_step (sl : slice) (h : heap) (p : loc) (gc sc stc : Z) :
  exists h',
    (nums <- get_player_shooting_numbers p sl ;;
     t <- unpack3 nums ;;
     let '(goals, shots, shots_on_target) := t in
     ret (gc + goals, sc + shots, stc + shots_on_target)) h
    = (rbind (player_numbers (h !!! p) sl)
         (fun t => Ok (add3 (gc, sc, stc) t)), h')
    /\ extends h h'.
Proof.
  destruct (shooting_triple_run h p sl) as (h' & Hrun & Hext).
  exists h'. split; [|exact Hext].
  rewrite <- bind_assoc.
  destruct (player_numbers (h !!! p) sl) as [[[g s] st]|e].
  - rewrite (bind_ok _ _ _ _ _ Hrun). reflexivity.
  - rewrite (bind_raise _ _ _ _ _ Hrun). reflexivity.
Qed.

Lemma team_loop (sl : slice) (team : list loc) :
  forall (h : heap) (acc : Z * Z * Z),
    (forall p, p ∈ team -> is_Some (h !! p)) ->
    exists h',
      for_each team
        (fun '(goals_count, shot_count, shots_on_target_count) player =>
           nums <- get_player_shooting_numbers player sl ;;
           t <- unpack3 nums ;;
           let '(goals, shots, shots_on_target) := t in
           ret (goals_count + goals,
                shot_count + shots,
                shots_on_target_count + shots_on_target))
        acc h
      = (match mapM (fun p => player_numbers (h !!! p) sl) team with
         | Ok ts => Ok (add3 acc (sum3 ts))
         | Raise e => Raise e
         end, h')
      /\ extends h h'.
Proof.
  induction team as [|p team IH]; intros h acc Hin.
  - exists h. simpl. rewrite add3_0_r. split; [reflexivity|apply extends_refl].
  - cbn [for_each mapM]. destruct acc as [[gc sc] stc].
    destruct (totals_step sl h p gc sc stc) as (h1 & Hrun & Hext).
    assert (Hin1 : forall q, q ∈ team -> is_Some (h1 !! q)).
    { intros q Hq. apply (extends_is_Some h); [exact Hext|].
      apply Hin. now apply list_elem_of_further. }
    assert (Hsame : mapM (fun q => player_numbers (h1 !!! q) sl) team
                    = mapM (fun q => player_numbers (h !!! q) sl) team).
    { apply mapM_ext. intros q Hq.
      rewrite (extends_total h h1 q Hext); [reflexivity|].
      apply Hin. now apply list_elem_of_further. }
    destruct (player_numbers (h !!! p) sl) as [t|e] eqn:Hp;
      cbn [rbind] in *.
    + destruct (IH h1 (add3 (gc, sc, stc) t) Hin1) as (h' & Hloop & Hext').
      exists h'. split; [|eapply extends_trans; eauto].
      rewrite Hsame in Hloop. clear Hsame.
      rewrite (bind_ok _ _ _ _ _ Hrun), Hloop.
      destruct (mapM _ team) as [ts|e]; [|reflexivity]. cbn [rbind].
      change (sum3 (t :: ts)) with (add3 t (sum3 ts)).
      now rewrite add3_assoc.
    + exists h1. split; [|exact Hext].
      now rewrite (bind_raise _ _ _ _ _ Hrun).
Qed.

Lemma team_totals_run (h : heap) (team : list loc) (sl : slice) :
  (forall p, p ∈ team -> is_Some (h !! p)) ->
  fst (get_team_shooting_numbers team sl h)
  = match mapM (fun p => player_numbers (h !!! p) sl) team with
    | Ok ts => Ok (sum3 ts)
    | Raise e => Raise e
    end.
Proof.
  intros Hin. unfold get_team_shooting_numbers.
  destruct (team_loop sl team h (0, 0, 0) Hin) as (h' & -> & _). simpl.
  destruct (mapM _ team) as [ts|e]; [|reflexivity].
  now destruct (sum3 ts) as [[? ?] ?].
Qed.

Lemma mapM_Permutation {A B} (f : A -> result B) (l l' : list A)
  (ys : list B) :
  l ≡ₚ l' -> mapM f l = Ok ys -> exists ys', mapM f l' = Ok ys' /\ ys ≡ₚ ys'.
Proof.
  intros Hperm. revert ys.
  induction Hperm as [|x l l' Hperm IH|x y l|l1 l2 l3 H12 IH12 H23 IH23];
    intros ys; simpl.
  - inversion 1. exists []. auto.
  - destruct (f x) as [z|e]; simpl; [|discriminate].
    destruct (mapM f l) as [zs|e]; simpl; [|discriminate].
    inversion 1; subst. destruct (IH zs eq_refl) as (zs' & -> & Hzs).
    simpl. exists (z :: zs'). split; [reflexivity|]. now constructor.
  - destruct (f y) as [b|e]; simpl; [|discriminate].
    destruct (f x) as [a|e]; simpl; [|discriminate].
    destruct (mapM f l) as [zs|e]; simpl; [|discriminate].
    inversion 1; subst. exists (a :: b :: zs). split; [reflexivity|].
    apply perm_swap.
  - intros H1. destruct (IH12 ys H1) as (ys2 & H2 & Hp2).
    destruct (IH23 ys2 H2) as (ys3 & H3 & Hp3).
    exists ys3. split; [exact H3|]. now transitivity ys2.
Qed.

Lemma sum3_Permutation (ts ts' : list (Z * Z * Z)) :
  ts ≡ₚ ts' -> sum3 ts = sum3 ts'.
Proof.
  induction 1 as [|x l l' _ IH|x y l|l1 l2 l3 _ IH12 _ IH23].
  - reflexivity.
  - change (add3 x (sum3 l) = add3 x (sum3 l')). now rewrite IH.
  - change (add3 y (add3 x (sum3 l)) = add3 x (add3 y (sum3 l))).
    rewrite <- !add3_assoc. now rewrite (add3_comm y x).
  - congruence.
Qed.

(** C6.  The totals are the componentwise sum of the triples of the rows,
    and any reordering of the rows returns the same totals. *)
Theorem team_totals_sum (h : heap) (team : list loc) (sl : slice) :
  (forall p, p ∈ team -> is_Some (h !! p)) ->
  (forall triples,
     Forall2
       (fun p t =>
          fst ((nums <- get_player_shooting_numbers p sl ;; unpack3 nums) h)
          = Ok t)
       team triples ->
     fst (get_team_shooting_numbers team sl h) = Ok (sum3 triples)) /\
  (forall team' t,
     team ≡ₚ team' ->
     fst (get_team_shooting_numbers team sl h) = Ok t <->
     fst (get_team_shooting_numbers team' sl h) = Ok t).
Proof.
  intros Hin. split.
  - intros triples Hall. rewrite team_totals_run by exact Hin.
    assert (Hm : mapM (fun p => player_numbers (h !!! p) sl) team
                 = Ok triples).
    { apply mapM_Forall2. eapply Forall2_impl; [exact Hall|].
      intros p t Hpt. cbv beta in Hpt.
      destruct (shooting_triple_run h p sl) as (h' & Hrun & _).
      rewrite Hrun in Hpt. exact Hpt. }
    now rewrite Hm.
  - assert (Hone : forall l l' t,
      (forall p, p ∈ l -> is_Some (h !! p)) -> l ≡ₚ l' ->
      fst (get_team_shooting_numbers l sl h) = Ok t ->
      fst (get_team_shooting_numbers l' sl h) = Ok t).
    { intros l l' t Hl Hperm.
      assert (Hl' : forall p, p ∈ l' -> is_Some (h !! p)).
      { intros p Hp. apply Hl. now rewrite Hperm. }
      rewrite !team_totals_run by assumption.
      destruct (mapM _ l) as [ts|e] eqn:Hm; [|discriminate].
      destruct (mapM_Permutation _ _ _ _ Hperm Hm) as (ts' & -> & Hts).
      intros Ht. inversion Ht; subst. f_equal. symmetry.
      now apply sum3_Permutation. }
    intros team' t Hperm. split.
    + apply Hone; assumption.
    + apply Hone; [|now symmetry].
      intros p Hp. apply Hin. now rewrite Hperm.
Qed.

(** ** Top scorers *)

Lemma goals_of_run (p : loc) (i : Z) (h : heap) :
  goals_of p i h = (fst (goals_of p i h), h).
Proof.
  cbv [goals_of bind getitem load lift].
  destruct (list_getitem (h !!! p) i); reflexivity.
Qed.

Lemma top_loop_run (gls_idx : Z) (h : heap) (players : list loc)
  (goals : list Z) :
  Forall2 (fun p g => fst (goals_of p gls_idx h) = Ok g) players goals ->
  forall acc,
    for_each players
      (fun '(top_scorers, high_score) player =>
         goals <- goals_of player gls_idx ;;
         if (goals >? high_score) && (goals >? 0)
         then ret ([player], goals)
         else if (goals =? high_score) && (goals >? 0)
         then ret (top_scorers ++ [player], high_score)
         else ret (top_scorers, high_score))
      acc h
    = (Ok (fold_left top_step (zip players goals) acc), h).
Proof.
  induction 1 as [|p g players goals Hp _ IH]; intros [top high].
  - reflexivity.
  - cbn [for_each zip zip_with fold_left].
    assert (Hrun : goals_of p gls_idx h = (Ok g, h))
      by (rewrite goals_of_run, Hp; reflexivity).
    unfold bind at 1. unfold bind at 1. rewrite Hrun.
    unfold top_step at 2.
    destruct ((g >? high) && (g >? 0)); [apply IH|].
    destruct ((g =? high) && (g >? 0)); apply IH.
Qed.

Lemma fold_max_ge (gs : list Z) :
  forall high, high <= fold_left Z.max gs high.
Proof.
  induction gs as [|g gs IH]; intros high; simpl; [lia|].
  specialize (IH (Z.max high g)). lia.
Qed.

Lemma top_fold_spec (pgs : list (loc * Z)) :
  forall (top : list loc) (high : Z),
    0 <= high ->
    let m := fold_left Z.max pgs.*2 high in
    fold_left top_step pgs (top, high)
    = ((if decide (m = high) then top else [])
         ++ (filter (fun pg => pg.2 = m /\ 0 < m) pgs).*1, m).
Proof.
  induction pgs as [|[p g] pgs IH]; intros top high Hhigh m.
  - subst m. simpl. rewrite decide_True by reflexivity.
    now rewrite app_nil_r.
  - cbn [fold_left fmap list_fmap snd] in *.
    pose proof (fold_max_ge pgs.*2 (Z.max high g)) as Hge.
    fold (fmap (M := list) (@snd loc Z) pgs) in m, Hge. fold m in Hge.
    rewrite filter_cons. cbn [snd top_step].
    destruct (Z.gtb_spec g high) as [Hgt|Hle]; cbn [andb].
    + destruct (Z.gtb_spec g 0) as [_|?]; [|lia].
      rewrite IH by lia. fold (fmap (M := list) (@snd loc Z) pgs).
      replace (fold_left Z.max pgs.*2 g) with m
        by (subst m; f_equal; lia).
      rewrite (decide_False (P := m = high)) by lia.
      destruct (decide (m = g)) as [Hm|Hm].
      * rewrite decide_True by (split; [congruence|lia]). reflexivity.
      * rewrite decide_False by (intros [? _]; congruence). reflexivity.
    + destruct (Z.eqb_spec g high) as [->|Hne]; cbn [andb].
      * destruct (Z.gtb_spec high 0) as [Hpos|Hnpos].
        -- rewrite IH by lia. fold (fmap (M := list) (@snd loc Z) pgs).
           replace (fold_left Z.max pgs.*2 high) with m
             by (subst m; f_equal; lia).
           destruct (decide (m = high)) as [Hm|Hm].
           ++ rewrite decide_True by (split; [congruence|lia]).
              cbn [fmap list_fmap fst]. now rewrite <- app_assoc.
           ++ rewrite decide_False by (intros [? _]; congruence).
              reflexivity.
        -- rewrite IH by lia. fold (fmap (M := list) (@snd loc Z) pgs).
           replace (fold_left Z.max pgs.*2 high) with m
             by (subst m; f_equal; lia).
           rewrite (decide_False (P := high = m /\ 0 < m)) by lia.
           reflexivity.
      * rewrite IH by lia. fold (fmap (M := list) (@snd loc Z) pgs).
        replace (fold_left Z.max pgs.*2 high) with m
          by (subst m; f_equal; lia).
        rewrite (decide_False (P := g = m /\ 0 < m)) by lia.
        reflexivity.
Qed.

Lemma get_top_scorer_run (gls_idx : Z) (h : heap) (players : list loc)
  (goals : list Z) :
  Forall2 (fun p g => fst (goals_of p gls_idx h) = Ok g) players goals ->
  let m := fold_left Z.max goals 0 in
  get_top_scorer players gls_idx h
  = (Ok (filter (fun pg => pg.2 = m /\ 0 < m) (zip players goals)).*1, h).
Proof.
  intros Hall m. unfold get_top_scorer.
  rewrite (bind_ok _ _ _ _ _ (top_loop_run gls_idx h players goals Hall _)).
  rewrite top_fold_spec by lia. unfold ret. cbn [fst].
  rewrite snd_zip by (apply Forall2_length in Hall; lia). fold m.
  destruct (decide (m = 0)); reflexivity.
Qed.

Lemma fold_max_spec (gs : list Z) :
  forall high,
    let m := fold_left Z.max gs high in
    (m = high \/ m ∈ gs) /\ high <= m /\ Forall (fun g => g <= m) gs.
Proof.
  induction gs as [|g gs IH]; intros high m.
  - subst m. simpl. split; [now left|]. split; [lia|constructor].
  - subst m. cbn [fold_left]. destruct (IH (Z.max high g)) as (Hin & Hge & Hall).
    split; [|split].
    + destruct Hin as [Heq|Hin].
      * destruct (Z.max_spec high g) as [[_ Hm]|[_ Hm]].
        -- right. rewrite Heq, Hm. apply list_elem_of_here.
        -- left. now rewrite Heq, Hm.
      * right. now apply list_elem_of_further.
    + lia.
    + constructor; [lia|exact Hall].
Qed.

(** C1.  When every goal field is an integer, the result is exactly the
    rows whose goal count is the maximum, in input order, if the maximum
    is positive, and is empty when no count is positive; a row with no
    goals is never in it. *)
Theorem top_scorers_max (h : heap) (players : list loc) (gls_idx : Z)
  (goals : list Z) :
  Forall2 (fun p g => fst (goals_of p gls_idx h) = Ok g) players goals ->
  (forall M,
     M ∈ goals -> Forall (fun g => g <= M) goals -> 0 < M ->
     get_top_scorer players gls_idx h
     = (Ok (filter (fun pg => pg.2 = M) (zip players goals)).*1, h)) /\
  (Forall (fun g => g <= 0) goals ->
   get_top_scorer players gls_idx h = (Ok [], h)) /\
  (forall r h' p g,
     get_top_scorer players gls_idx h = (Ok r, h') ->
     p ∈ r -> fst (goals_of p gls_idx h) = Ok g -> 0 < g).
Proof.
  intros Hall.
  pose proof (get_top_scorer_run gls_idx h players goals Hall) as Hrun.
  cbv zeta in Hrun.
  destruct (fold_max_spec goals 0) as (Hin & Hge & Hmax).
  set (m := fold_left Z.max goals 0) in *.
  split; [|split].
  - intros M HM HallM HposM.
    assert (Hm : m = M).
    { pose proof (proj1 (Forall_forall _ _) Hmax M HM) as H1. cbv beta in H1.
      destruct Hin as [Hin|Hin]; [lia|].
      pose proof (proj1 (Forall_forall _ _) HallM m Hin) as H2.
      cbv beta in H2. lia. }
    rewrite Hrun, Hm. do 3 f_equal.
    apply list_filter_iff. intros pg. tauto.
  - intros Hnone.
    assert (Hm : m = 0).
    { destruct Hin as [Hin|Hin]; [exact Hin|].
      pose proof (proj1 (Forall_forall _ _) Hnone m Hin) as H2.
      cbv beta in H2. lia. }
    rewrite Hrun, Hm. do 2 f_equal. clear Hrun.
    induction (zip players goals) as [|pg l IH]; [reflexivity|].
    rewrite filter_cons_False by lia. exact IH.
  - intros r h' p g Hr Hp Hg. rewrite Hrun in Hr. inversion Hr; subst r h'.
    apply list_elem_of_fmap in Hp as ([p' g'] & -> & Hpg).
    apply list_elem_of_filter in Hpg as [[Hgm Hpos] Hzip]. cbn [fst snd] in *.
    apply list_elem_of_lookup in Hzip as [i Hi].
    apply lookup_zip_Some in Hi as [Hpi Hgi].
    pose proof (Forall2_lookup_lr _ _ _ _ _ _ Hall Hpi Hgi) as Hpg.
    cbv beta in Hpg. rewrite Hpg in Hg. inversion Hg; subst. lia.
Qed.

(** ** Arity of the rows of a table *)

Lemma bind_inv {A B} (m : M A) (k : A -> M B) (h h' : heap) (b : B) :
  bind m k h = (Ok b, h') ->
  exists a h1, m h = (Ok a, h1) /\ k a h1 = (Ok b, h').
Proof.
  unfold bind. destruct (m h) as [[a|e] h1]; [eauto|discriminate].
Qed.

Lemma lift_inv {A} (r : result A) (h h' : heap) (a : A) :
  lift r h = (Ok a, h') -> r = Ok a /\ h' = h.
Proof. unfold lift. inversion 1; auto. Qed.

Lemma getitem_inv (p : loc) (i : Z) (h h' : heap) (v : value) :
  getitem p i h = (Ok v, h') -> list_getitem (h !!! p) i = Ok v /\ h' = h.
Proof. rewrite getitem_run. inversion 1; auto. Qed.

Lemma setitem_inv (p : loc) (i : Z) (v : value) (h h' : heap) (u : unit) :
  setitem p i v h = (Ok u, h') ->
  exists l', list_setitem (h !!! p) i v = Ok l' /\ h' = <[p := l']> h.
Proof.
  rewrite setitem_run. destruct (list_setitem _ _ _) as [l'|e];
    inversion 1; eauto.
Qed.

Lemma norm_index_inv (len : nat) (i : Z) (j : nat) :
  norm_index len i = Ok j ->
  (j < len)%nat /\ (0 <= i -> j = Z.to_nat i).
Proof.
  unfold norm_index.
  set (k := if i <? 0 then i + Z.of_nat len else i).
  assert (Hk : 0 <= i -> k = i).
  { intros Hi. subst k. destruct (Z.ltb_spec i 0); lia. }
  destruct (Z.leb_spec 0 k); [|discriminate].
  destruct (Z.ltb_spec k (Z.of_nat len)); [|discriminate].
  simpl. inversion 1; subst. split; [lia|].
  intros Hi. now rewrite (Hk Hi).
Qed.

Lemma list_getitem_inv (l : list value) (i : Z) (v : value) :
  list_getitem l i = Ok v ->
  0 <= i -> l !! Z.to_nat i = Some v /\ (Z.to_nat i < length l)%nat.
Proof.
  unfold list_getitem. destruct (norm_index (length l) i) as [j|e] eqn:Hj;
    [|discriminate].
  simpl. intros Hv Hi. apply norm_index_inv in Hj as [Hlt Heq].
  rewrite <- (Heq Hi). destruct (l !! j) eqn:Hl; inversion Hv; subst; auto.
Qed.

Lemma list_setitem_inv (l l' : list value) (i : Z) (v : value) :
  list_setitem l i v = Ok l' ->
  length l' = length l /\ (0 <= i -> l' = <[Z.to_nat i := v]> l).
Proof.
  unfold list_setitem. destruct (norm_index (length l) i) as [j|e] eqn:Hj;
    [|discriminate].
  simpl. inversion 1; subst. apply norm_index_inv in Hj as [Hlt Heq].
  split; [apply length_insert|]. intros Hi. now rewrite <- (Heq Hi).
Qed.

Lemma adjust_index_nat (len n : nat) :
  (n <= len)%nat -> adjust_index len (Z.of_nat n) = n.
Proof.
  intros Hn. unfold adjust_index.
  destruct (Z.ltb_spec (Z.of_nat n) 0); lia.
Qed.

Lemma list_insert_at_nat (l : list value) (n : nat) (v : value) :
  (n <= length l)%nat ->
  list_insert_at l (Z.of_nat n) v = take n l ++ v :: drop n l.
Proof.
  intros Hn. unfold list_insert_at. now rewrite adjust_index_nat.
Qed.

Lemma length_insert_at (l : list value) (i : Z) (v : value) :
  length (list_insert_at l i v) = S (length l).
Proof.
  unfold list_insert_at. rewrite length_app. cbn [length].
  rewrite length_take, length_drop.
  assert (adjust_index (length l) i <= length l)%nat; [|lia].
  unfold adjust_index. destruct (Z.ltb_spec i 0); lia.
Qed.

(** One player of step 3.2: the row grows by one field, the country code
    at position [n]. *)
Lemma normalize_player_run (pos_idx : Z) (n : nat) (p : loc) (h h' : heap)
  (u : unit) :
  normalize_player pos_idx (Z.of_nat n) tt p h = (Ok u, h') ->
  exists row',
    h' = <[p := row']> h /\
    length row' = S (length (h !!! p)) /\
    exists code, row' !! n = Some (VStr code).
Proof.
  unfold normalize_player. intros H.
  apply bind_inv in H as (v & h1 & Hv & H).
  apply getitem_inv in Hv as [_ ->].
  apply bind_inv in H as (position & h1 & Hpos & H).
  apply lift_inv in Hpos as [_ ->].
  apply bind_inv in H as (u1 & h1 & Hset & H).
  apply setitem_inv in Hset as (row1 & Hrow1 & ->).
  apply list_setitem_inv in Hrow1 as [Hlen1 _].
  apply bind_inv in H as (w & h2 & Hw & H).
  apply getitem_inv in Hw as [Hw ->].
  rewrite lookup_total_insert_eq in Hw.
  apply list_getitem_inv in Hw as [_ Hn]; [|lia]. rewrite Nat2Z.id in Hn.
  apply bind_inv in H as (raw & h2 & Hraw & H).
  apply lift_inv in Hraw as [_ ->].
  destruct (clean_squad raw) as [code squad].
  apply bind_inv in H as (u2 & h2 & Hins & H).
  unfold insert_at, bind, load, store in Hins. inversion Hins; subst h2 u2.
  clear Hins. rewrite lookup_total_insert_eq, insert_insert_eq in H.
  apply setitem_inv in H as (row3 & Hrow3 & ->).
  rewrite lookup_total_insert_eq in Hrow3.
  rewrite insert_insert_eq.
  apply list_setitem_inv in Hrow3 as [Hlen3 Hrow3].
  specialize (Hrow3 ltac:(lia)).
  exists row3. split; [reflexivity|]. split.
  - rewrite Hlen3, length_insert_at. lia.
  - exists code. rewrite Hrow3.
    rewrite list_lookup_insert_ne by lia.
    rewrite list_insert_at_nat by lia.
    apply list_lookup_middle. rewrite length_take. lia.
Qed.

Lemma normalize_loop (pos_idx : Z) (n : nat) (players : list loc) :
  forall (h h' : heap) (u : unit),
    NoDup players ->
    for_each players (normalize_player pos_idx (Z.of_nat n)) tt h
    = (Ok u, h') ->
    (forall p, p ∈ players ->
       length (h' !!! p) = S (length (h !!! p)) /\
       exists code, (h' !!! p) !! n = Some (VStr code)) /\
    (forall q, q ∉ players -> h' !! q = h !! q).
Proof.
  induction players as [|p players IH]; intros h h' u Hnd Hrun.
  - inversion Hrun; subst. split; [|reflexivity].
    intros p Hp. inversion Hp.
  - cbn [for_each] in Hrun.
    apply bind_inv in Hrun as ([] & h1 & Hrow & Hrun).
    apply normalize_player_run in Hrow as (row' & -> & Hlen & code & Hcode).
    apply NoDup_cons in Hnd as [Hp Hnd].
    destruct (IH _ _ _ Hnd Hrun) as [Hrows Hframe].
    split.
    + intros q Hq. apply elem_of_cons in Hq as [->|Hq].
      * rewrite lookup_total_alt, (Hframe p Hp), lookup_insert_eq. simpl.
        split; [exact Hlen|eauto].
      * destruct (Hrows q Hq) as [Hlq Hcq].
        rewrite lookup_total_insert_ne in Hlq by (intros ->; contradiction).
        auto.
    + intros q Hq. apply not_elem_of_cons in Hq as [Hne Hq].
      rewrite (Hframe q Hq). now apply lookup_insert_ne.
Qed.

Lemma list_index_inv (hs : list value) (name : string) (i : Z) :
  list_index hs name = Ok i ->
  exists n : nat, i = Z.of_nat n /\ hs !! n = Some (VStr name).
Proof.
  unfold list_index. intros H.
  pose proof (list_index_from_spec hs name 0) as Hspec. rewrite H in Hspec.
  destruct Hspec as (n & -> & Hn & _). exists n. split; [lia|exact Hn].
Qed.

(** Steps 3.1-3.4: the country code goes in at the position of the squad
    column, in the header and in every row. *)
Lemma normalize_run (h h' : heap) (headers : loc) (players : list loc)
  (r : Z * Z) :
  NoDup (headers :: players) ->
  normalize headers players h = (Ok r, h') ->
  exists n : nat,
    (h !!! headers) !! n = Some (VStr "Squad") /\
    h' !!! headers
    = take n (h !!! headers) ++ VStr "Country_Code" :: drop n (h !!! headers) /\
    forall p, p ∈ players ->
      length (h' !!! p) = S (length (h !!! p)) /\
      exists code, (h' !!! p) !! n = Some (VStr code).
Proof.
  intros Hnd H. apply NoDup_cons in Hnd as [Hhd Hnd].
  unfold normalize in H.
  apply bind_inv in H as (hs & h1 & Hhs & H).
  unfold load in Hhs. inversion Hhs; subst hs h1. clear Hhs.
  apply bind_inv in H as (pos_idx & h1 & Hpos & H).
  apply lift_inv in Hpos as [_ ->].
  apply bind_inv in H as (squad_idx & h1 & Hsq & H).
  apply lift_inv in Hsq as [Hsq ->].
  apply list_index_inv in Hsq as (n & -> & Hn).
  apply bind_inv in H as ([] & h1 & Hloop & H).
  destruct (normalize_loop _ _ _ _ _ _ Hnd Hloop) as [Hrows Hframe].
  apply bind_inv in H as ([] & h2 & Hins & H).
  unfold ret in H. inversion H; subst r h2. clear H.
  unfold insert_at, bind, load, store in Hins. inversion Hins; subst h'.
  clear Hins.
  assert (Hsame : h1 !!! headers = h !!! headers)
    by (rewrite !lookup_total_alt; now rewrite (Hframe headers Hhd)).
  exists n. split; [exact Hn|]. split.
  - rewrite lookup_total_insert_eq, Hsame.
    apply list_insert_at_nat. apply lookup_lt_Some in Hn. lia.
  - intros p Hp. rewrite lookup_total_insert_ne by (intros ->; contradiction).
    now apply Hrows.
Qed.

Lemma unpack3_inv (nums : loc) (h h' : heap) (t : Z * Z * Z) :
  unpack3 nums h = (Ok t, h') -> h' = h.
Proof.
  unfold unpack3, bind, load.
  destruct (h !!! nums) as [|[] [|[] [|[] []]]]; inversion 1; reflexivity.
Qed.

(** One player of steps 10.2-4: two floats at the end of the row, every
    other list of the store as it was. *)
Lemma add_player_efficiency_run (sl : slice) (p : loc) (h h' : heap)
  (u : unit) :
  is_Some (h !! p) ->
  add_player_efficiency sl tt p h = (Ok u, h') ->
  (exists a b, h' !!! p = h !!! p ++ [VFloat a; VFloat b]) /\
  (forall q, q <> p -> is_Some (h !! q) -> h' !! q = h !! q) /\
  (forall q, is_Some (h !! q) -> is_Some (h' !! q)).
Proof.
  intros Hp H. unfold add_player_efficiency in H.
  apply bind_inv in H as (nums & h1 & Hnums & H).
  apply get_player_shooting_numbers_frame in Hnums as Hext.
  apply bind_inv in H as ([[goals shots] sot] & h2 & Hun & H).
  apply unpack3_inv in Hun as ->.
  apply bind_inv in H as (a & h2 & Ha & H).
  apply lift_inv in Ha as [_ ->].
  apply bind_inv in H as ([] & h2 & Happ & H).
  unfold append, bind, load, store in Happ. inversion Happ; subst h2.
  clear Happ.
  apply bind_inv in H as (b & h2 & Hb & H).
  apply lift_inv in Hb as [_ ->].
  unfold append, bind, load, store in H. inversion H; subst h'. clear H.
  rewrite lookup_total_insert_eq, insert_insert_eq.
  rewrite (extends_total h h1 p Hext Hp).
  split; [|split].
  - exists a, b. rewrite lookup_total_insert_eq. now rewrite <- app_assoc.
  - intros q Hne Hq. rewrite lookup_insert_ne by congruence.
    now apply Hext.
  - intros q Hq. destruct (decide (q = p)) as [->|Hne].
    + rewrite lookup_insert_eq. eauto.
    + rewrite lookup_insert_ne by congruence. rewrite (Hext q Hq). exact Hq.
Qed.

Lemma add_efficiency_loop (sl : slice) (players : list loc) :
  forall (h h' : heap) (u : unit),
    NoDup players ->
    (forall p, p ∈ players -> is_Some (h !! p)) ->
    for_each players (add_player_efficiency sl) tt h = (Ok u, h') ->
    (forall p, p ∈ players ->
       exists a b, h' !!! p = h !!! p ++ [VFloat a; VFloat b]) /\
    (forall q, q ∉ players -> is_Some (h !! q) -> h' !! q = h !! q) /\
    (forall q, is_Some (h !! q) -> is_Some (h' !! q)).
Proof.
  induction players as [|p players IH]; intros h h' u Hnd Hin Hrun.
  - inversion Hrun; subst. split; [|split]; auto.
    intros p Hp. inversion Hp.
  - cbn [for_each] in Hrun.
    apply bind_inv in Hrun as ([] & h1 & Hrow & Hrun).
    apply NoDup_cons in Hnd as [Hp Hnd].
    assert (Hpin : is_Some (h !! p)) by (apply Hin; apply list_elem_of_here).
    destruct (add_player_efficiency_run _ _ _ _ _ Hpin Hrow)
      as ((a & b & Hab) & Hframe1 & Hdom1).
    assert (Hin1 : forall q, q ∈ players -> is_Some (h1 !! q)).
    { intros q Hq. apply Hdom1, Hin. now apply list_elem_of_further. }
    destruct (IH _ _ _ Hnd Hin1 Hrun) as (Hrows & Hframe & Hdom).
    split; [|split].
    + intros q Hq. apply elem_of_cons in Hq as [->|Hq].
      * exists a, b. rewrite <- Hab. rewrite !lookup_total_alt.
        now rewrite (Hframe p Hp (Hdom1 p Hpin)).
      * destruct (Hrows q Hq) as (a' & b' & Hq').
        exists a', b'. rewrite Hq'. f_equal.
        rewrite !lookup_total_alt. rewrite Hframe1; [reflexivity| |].
        -- intros ->. contradiction.
        -- apply Hin. now apply list_elem_of_further.
    + intros q Hq Hsome. apply not_elem_of_cons in Hq as [Hne Hq].
      rewrite (Hframe q Hq (Hdom1 q Hsome)). now apply Hframe1.
    + intros q Hq. apply Hdom, Hdom1, Hq.
Qed.

(** Steps 10.2-5: two floats at the end of every row, the two names at
    the end of the header. *)
Lemma add_efficiency_run (h h' : heap) (headers : loc) (players : list loc)
  (sl : slice) (u : unit) :
  NoDup (headers :: players) ->
  (forall p, p ∈ headers :: players -> is_Some (h !! p)) ->
  add_efficiency headers players sl h = (Ok u, h') ->
  h' !!! headers
  = h !!! headers
      ++ [VStr "shots_conv_rate"; VStr "shots_on_target_conv_rate"] /\
  forall p, p ∈ players ->
    exists a b, h' !!! p = h !!! p ++ [VFloat a; VFloat b].
Proof.
  intros Hnd Hin H. apply NoDup_cons in Hnd as [Hhd Hnd].
  unfold add_efficiency in H.
  apply bind_inv in H as ([] & h1 & Hloop & H).
  assert (Hin' : forall p, p ∈ players -> is_Some (h !! p)).
  { intros p Hp. apply Hin. now apply list_elem_of_further. }
  destruct (add_efficiency_loop _ _ _ _ _ Hnd Hin' Hloop)
    as (Hrows & Hframe & _).
  unfold extend, bind, load, store in H. inversion H; subst h'. clear H.
  assert (Hsame : h1 !!! headers = h !!! headers).
  { rewrite !lookup_total_alt. rewrite (Hframe headers Hhd); [reflexivity|].
    apply Hin. apply list_elem_of_here. }
  split.
  - now rewrite lookup_total_insert_eq, Hsame.
  - intros p Hp. rewrite lookup_total_insert_ne by (intros ->; contradiction).
    now apply Hrows.
Qed.

Lemma truncate_loop (data : list loc) :
  forall (h h' : heap) (acc rows : list loc),
    NoDup acc -> (forall p, p ∈ acc -> is_Some (h !! p)) ->
    for_each data
      (fun rows row =>
         l <- load row ;;
         p <- alloc (list_slice l (mk_slice None (Some 10))) ;;
         ret (rows ++ [p]))
      acc h
    = (Ok rows, h') ->
    NoDup rows /\ (forall p, p ∈ rows -> is_Some (h' !! p)) /\ extends h h'.
Proof.
  induction data as [|row data IH]; intros h h' acc rows Hnd Hin Hrun.
  - inversion Hrun; subst. auto using extends_refl.
  - cbn [for_each] in Hrun.
    apply bind_inv in Hrun as (acc' & h1 & Hstep & Hrun).
    unfold bind, load, alloc, ret in Hstep. inversion Hstep; subst acc' h1.
    clear Hstep.
    assert (Hfresh : h !! fresh (dom h) = None)
      by (apply not_elem_of_dom, is_fresh).
    apply IH in Hrun as (Hnd' & Hin' & Hext).
    + split; [exact Hnd'|]. split; [exact Hin'|].
      eapply extends_trans; [apply extends_fresh|exact Hext].
    + apply NoDup_app. split; [exact Hnd|]. split; [|apply NoDup_singleton].
      intros p Hp Hp'. apply list_elem_of_singleton in Hp'. subst p.
      destruct (Hin _ Hp) as [x Hx]. congruence.
    + intros p Hp. apply elem_of_app in Hp as [Hp|Hp].
      * rewrite (extends_fresh h _ p (Hin p Hp)). now apply Hin.
      * apply list_elem_of_singleton in Hp. subst p.
        rewrite lookup_insert_eq. eauto.
Qed.

(** After step 1.3 the header and the player rows are distinct lists of
    the store. *)
Lemma truncate_rows_distinct (data : list loc) (h h' : heap)
  (headers : loc) (players : list loc) :
  truncate_rows data h = (Ok (headers :: players), h') ->
  NoDup (headers :: players) /\
  (forall p, p ∈ headers :: players -> is_Some (h' !! p)) /\
  extends h h'.
Proof.
  intros Hrun. apply (truncate_loop data h h' []); [constructor| |exact Hrun].
  intros p Hp. inversion Hp.
Qed.

(** ** Stable insertion sort *)

Section StableSortFacts.
Context {A : Type} (cmp : A -> A -> comparison).
Variable P : A -> Prop.
Hypothesis cmp_antisym : forall x y, cmp y x = CompOpp (cmp x y).
Hypothesis cmp_le_trans :
  forall x y z, P x -> P y -> P z ->
                cmp_le cmp x y -> cmp_le cmp y z -> cmp_le cmp x z.

Lemma insert_sorted_Permutation (x : A) (l : list A) :
  insert_sorted cmp x l ≡ₚ x :: l.
Proof.
  induction l as [|y l IH]; simpl; [reflexivity|].
  destruct (cmp y x); try reflexivity.
  rewrite IH. apply perm_swap.
Qed.

Lemma insertion_sort_Permutation (l : list A) : insertion_sort cmp l ≡ₚ l.
Proof.
  induction l as [|x l IH]; simpl; [reflexivity|].
  rewrite insert_sorted_Permutation. now rewrite IH.
Qed.

Lemma insert_sorted_StronglySorted (x : A) (l : list A) :
  P x -> Forall P l -> StronglySorted (cmp_le cmp) l ->
  StronglySorted (cmp_le cmp) (insert_sorted cmp x l).
Proof.
  intros Hx HP Hs. induction Hs as [|y l Hs IH Hy]; simpl.
  - repeat constructor.
  - apply Forall_cons in HP as [Hpy HP].
    destruct (cmp y x) eqn:Hyx.
    + constructor; [now constructor|]. constructor.
      * unfold cmp_le. rewrite cmp_antisym, Hyx. discriminate.
      * apply Forall_forall. intros z Hz.
        apply (cmp_le_trans x y z); auto.
        -- exact (proj1 (Forall_forall _ _) HP z Hz).
        -- unfold cmp_le. rewrite cmp_antisym, Hyx. discriminate.
        -- exact (proj1 (Forall_forall _ _) Hy z Hz).
    + constructor; [now apply IH|].
      rewrite insert_sorted_Permutation. constructor; [|exact Hy].
      unfold cmp_le. rewrite Hyx. discriminate.
    + constructor; [now constructor|]. constructor.
      * unfold cmp_le. rewrite cmp_antisym, Hyx. discriminate.
      * apply Forall_forall. intros z Hz.
        apply (cmp_le_trans x y z); auto.
        -- exact (proj1 (Forall_forall _ _) HP z Hz).
        -- unfold cmp_le. rewrite cmp_antisym, Hyx. discriminate.
        -- exact (proj1 (Forall_forall _ _) Hy z Hz).
Qed.

Lemma insertion_sort_StronglySorted (l : list A) :
  Forall P l -> StronglySorted (cmp_le cmp) (insertion_sort cmp l).
Proof.
  induction 1 as [|x l Hx HP IH]; simpl; [constructor|].
  apply insert_sorted_StronglySorted; auto.
  now rewrite insertion_sort_Permutation.
Qed.

Lemma insertion_sort_id (l : list A) :
  StronglySorted (cmp_le cmp) l -> insertion_sort cmp l = l.
Proof.
  induction 1 as [|x l Hs IH Hx]; simpl; [reflexivity|].
  rewrite IH. destruct l as [|y l]; [reflexivity|]. simpl.
  apply Forall_cons in Hx as [Hxy _]. unfold cmp_le in Hxy.
  rewrite cmp_antisym. destruct (cmp x y); simpl; congruence.
Qed.

Lemma insert_sorted_filter (Q : A -> Prop) `{!forall x, Decision (Q x)}
  (x : A) (l : list A) :
  (forall y, y ∈ l -> Q x -> Q y -> cmp y x <> Lt) ->
  filter Q (insert_sorted cmp x l) = filter Q (x :: l).
Proof.
  induction l as [|y l IH]; intros HQ; simpl; [reflexivity|].
  destruct (cmp y x) eqn:Hyx; try reflexivity.
  rewrite !filter_cons.
  rewrite IH by (intros z Hz; apply HQ; now apply list_elem_of_further).
  rewrite filter_cons.
  destruct (decide (Q x)) as [Hqx|Hqx], (decide (Q y)) as [Hqy|Hqy];
    try reflexivity.
  exfalso. exact (HQ y (list_elem_of_here _ _) Hqx Hqy Hyx).
Qed.

Lemma insertion_sort_filter (Q : A -> Prop) `{!forall x, Decision (Q x)}
  (l : list A) :
  (forall x y, Q x -> Q y -> cmp y x <> Lt) ->
  filter Q (insertion_sort cmp l) = filter Q l.
Proof.
  intros HQ. induction l as [|x l IH]; simpl; [reflexivity|].
  rewrite insert_sorted_filter by (intros y _; apply HQ).
  now rewrite !filter_cons, IH.
Qed.
(** A sorted list is determined by its ties: two sorted lists with the
    same elements, and with the elements of each class of equal keys in
    the same order, are equal.  So every stable sort returns what
    [insertion_sort] returns. *)
Lemma stable_sorted_unique `{!forall x y, Decision (cmp x y = Eq)}
  (l1 : list A) :
  forall l2,
    StronglySorted (cmp_le cmp) l1 -> StronglySorted (cmp_le cmp) l2 ->
    l1 ≡ₚ l2 ->
    (forall x, filter (fun y => cmp x y = Eq) l1
               = filter (fun y => cmp x y = Eq) l2) ->
    l1 = l2.
Proof.
  assert (Hrefl : forall x, cmp x x = Eq).
  { intros x. pose proof (cmp_antisym x x) as Hx.
    destruct (cmp x x); simpl in Hx; congruence. }
  induction l1 as [|a l1 IH]; intros l2 Hs1 Hs2 Hperm Hties.
  - now apply Permutation_nil_l in Hperm.
  - destruct l2 as [|b l2];
      [now apply Permutation_nil_r in Hperm|].
    apply StronglySorted_inv in Hs1 as [Hs1 Ha].
    apply StronglySorted_inv in Hs2 as [Hs2 Hb].
    assert (Hab : cmp a b = Eq).
    { assert (H1 : cmp_le cmp a b).
      { assert (Hin : b ∈ a :: l1)
          by (rewrite Hperm; apply list_elem_of_here).
        apply elem_of_cons in Hin as [->|Hin].
        - unfold cmp_le. rewrite Hrefl. discriminate.
        - exact (proj1 (Forall_forall _ _) Ha b Hin). }
      assert (H2 : cmp_le cmp b a).
      { assert (Hin : a ∈ b :: l2)
          by (rewrite <- Hperm; apply list_elem_of_here).
        apply elem_of_cons in Hin as [->|Hin].
        - unfold cmp_le. rewrite Hrefl. discriminate.
        - exact (proj1 (Forall_forall _ _) Hb a Hin). }
      unfold cmp_le in H1, H2. rewrite (cmp_antisym a b) in H2.
      destruct (cmp a b); simpl in H2; congruence. }
    assert (Heq : a = b).
    { pose proof (Hties a) as Hf. rewrite !filter_cons in Hf.
      rewrite (decide_True (P := cmp a a = Eq)) in Hf by apply Hrefl.
      rewrite (decide_True (P := cmp a b = Eq)) in Hf by exact Hab.
      congruence. }
    subst b. f_equal. apply IH; auto.
    + now apply Permutation_cons_inv in Hperm.
    + intros x. pose proof (Hties x) as Hf. rewrite !filter_cons in Hf.
      destruct (decide (cmp x a = Eq)); congruence.
Qed.

End StableSortFacts.

(** ** The order on sort keys *)

Lemma fcmp_antisym (x y : float) : fcmp y x = CompOpp (fcmp x y).
Proof.
  unfold fcmp. rewrite (SFcompare_antisym x y).
  now destruct (SFcompare x y).
Qed.

Lemma fcmp_some (x y : float) :
  is_nan x = false -> is_nan y = false -> SFcompare x y = Some (fcmp x y).
Proof.
  intros Hx Hy. unfold fcmp.
  destruct (SFcompare_some x y Hx Hy) as [c ->]. reflexivity.
Qed.

Lemma fcmp_trans (x y z : float) (c : comparison) :
  is_nan x = false -> is_nan y = false -> is_nan z = false ->
  fcmp x y = c -> fcmp y z = c -> fcmp x z = c.
Proof.
  intros Hx Hy Hz H1 H2.
  pose proof (fcmp_some x y Hx Hy) as E1. rewrite H1 in E1.
  pose proof (fcmp_some y z Hy Hz) as E2. rewrite H2 in E2.
  unfold fcmp. now rewrite (SFcompare_trans x y z c E1 E2).
Qed.

Lemma fcmp_eq_l (x y z : float) :
  is_nan x = false -> is_nan y = false ->
  fcmp x y = Eq -> fcmp x z = fcmp y z.
Proof.
  intros Hx Hy H. pose proof (fcmp_some x y Hx Hy) as E. rewrite H in E.
  unfold fcmp. now rewrite (SFcompare_eq_l x y z E).
Qed.

Lemma string_compare_trans (c : comparison) (s1 : string) :
  forall s2 s3,
    String.compare s1 s2 = c -> String.compare s2 s3 = c ->
    String.compare s1 s3 = c.
Proof.
  induction s1 as [|a1 s1 IH]; intros [|a2 s2] [|a3 s3]; simpl;
    try congruence.
  unfold Ascii.compare.
  destruct (N.compare_spec (N_of_ascii a1) (N_of_ascii a2)) as [E12|L12|G12];
    destruct (N.compare_spec (N_of_ascii a2) (N_of_ascii a3)) as [E23|L23|G23];
    destruct (N.compare_spec (N_of_ascii a1) (N_of_ascii a3)) as [E13|L13|G13];
    try congruence; try lia; try apply IH.
Qed.

Lemma string_compare_refl (s : string) : String.compare s s = Eq.
Proof.
  induction s as [|a s IH]; simpl; [reflexivity|].
  unfold Ascii.compare. now rewrite N.compare_refl.
Qed.

Lemma key_cmp_antisym (k1 k2 : float * value) :
  key_cmp k2 k1 = CompOpp (key_cmp k1 k2).
Proof.
  unfold key_cmp. rewrite (fcmp_antisym k1.1 k2.1).
  destruct (fcmp k1.1 k2.1); simpl; try reflexivity.
  apply String.compare_antisym.
Qed.

Lemma key_cmp_le_trans (k1 k2 k3 : float * value) :
  nice_key k1 -> nice_key k2 -> nice_key k3 ->
  cmp_le key_cmp k1 k2 -> cmp_le key_cmp k2 k3 -> cmp_le key_cmp k1 k3.
Proof.
  intros [N1 _] [N2 _] [N3 _]. unfold cmp_le, key_cmp.
  destruct (fcmp k1.1 k2.1) eqn:F12; [| |congruence];
    (destruct (fcmp k2.1 k3.1) eqn:F23; [| |congruence]); intros H12 H23.
  - rewrite (fcmp_trans _ _ _ Eq N1 N2 N3 F12 F23).
    destruct (String.compare (str_of k1.2) (str_of k2.2)) eqn:S12;
      [| |congruence];
      (destruct (String.compare (str_of k2.2) (str_of k3.2)) eqn:S23;
       [| |congruence]).
    + now rewrite (string_compare_trans Eq _ _ _ S12 S23).
    + apply String.compare_eq_iff in S12 as ->. now rewrite S23.
    + apply String.compare_eq_iff in S23 as <-. now rewrite S12.
    + now rewrite (string_compare_trans Lt _ _ _ S12 S23).
  - rewrite (fcmp_eq_l _ _ k3.1 N1 N2 F12), F23. discriminate.
  - assert (F32 : fcmp k3.1 k2.1 = Eq)
      by (rewrite fcmp_antisym, F23; reflexivity).
    pose proof (fcmp_eq_l _ _ k1.1 N3 N2 F32) as F31.
    rewrite (fcmp_antisym k1.1 k2.1), F12 in F31. simpl in F31.
    rewrite (fcmp_antisym k3.1 k1.1), F31. discriminate.
  - rewrite (fcmp_trans _ _ _ Lt N1 N2 N3 F12 F23). discriminate.
Qed.

(** On such keys [<] raises nothing and is the strict part of [key_cmp]. *)
Lemma key_lt_cmp (k1 k2 : float * value) :
  nice_key k1 -> nice_key k2 ->
  key_lt k1 k2 = Ok (match key_cmp k1 k2 with Lt => true | _ => false end).
Proof.
  destruct k1 as [f1 v1], k2 as [f2 v2].
  intros [N1 [c1 E1]] [N2 [c2 E2]]. simpl in *. subst v1 v2.
  unfold key_lt, key_cmp, Float.eq, Float.lt, SFeqb, SFltb. simpl.
  rewrite (fcmp_some f1 f2 N1 N2).
  destruct (fcmp f1 f2); try reflexivity.
  unfold String.ltb.
  destruct (String.eqb_spec c1 c2) as [->|Hne]; [|reflexivity].
  now rewrite string_compare_refl.
Qed.

Lemma insert_by_key_pure {A} (x : (float * value) * A)
  (l : list ((float * value) * A)) :
  nice_key x.1 -> Forall (fun y => nice_key y.1) l ->
  insert_by_key x l = Ok (insert_sorted pair_cmp x l).
Proof.
  intros Hx. induction 1 as [|y l Hy _ IH]; simpl; [reflexivity|].
  rewrite (key_lt_cmp _ _ Hy Hx). unfold pair_cmp at 1. simpl.
  destruct (key_cmp y.1 x.1); try reflexivity.
  now rewrite IH.
Qed.

Lemma sort_by_key_pure {A} (l : list ((float * value) * A)) :
  Forall (fun y => nice_key y.1) l ->
  sort_by_key l = Ok (insertion_sort pair_cmp l).
Proof.
  induction 1 as [|x l Hx Hl IH]; simpl; [reflexivity|].
  rewrite IH. simpl. apply insert_by_key_pure; [exact Hx|].
  now rewrite insertion_sort_Permutation.
Qed.

(** ** Ranking the teams *)

Lemma rank_key_run (h : heap) (x : loc) (rate : float) (name : string) :
  team_row h x rate name ->
  rank_key x h = (Ok (SFopp rate, VStr name), h).
Proof.
  intros (Hr & _ & Hn). unfold rank_key.
  rewrite (bind_ok _ _ h h (VFloat rate)) by (rewrite getitem_run, Hr; reflexivity).
  rewrite (bind_ok _ _ h h rate) by reflexivity.
  rewrite (bind_ok _ _ h h (VStr name)) by (rewrite getitem_run, Hn; reflexivity).
  reflexivity.
Qed.

Lemma keyed_loop (h : heap) (rate : loc -> float) (name : loc -> string)
  (teams : list loc) :
  (forall x, x ∈ teams -> team_row h x (rate x) (name x)) ->
  forall acc,
    for_each teams (fun acc x => k <- rank_key x ;; ret (acc ++ [(k, x)]))
      acc h
    = (Ok (acc ++ (keyed rate name <$> teams)), h).
Proof.
  induction teams as [|x teams IH]; intros Hrows acc.
  - simpl. unfold ret. now rewrite app_nil_r.
  - cbn [for_each].
    assert (Hx : team_row h x (rate x) (name x))
      by (apply Hrows; apply list_elem_of_here).
    erewrite bind_ok; cycle 1.
    { erewrite bind_ok by (apply rank_key_run; exact Hx). reflexivity. }
    rewrite IH by (intros y Hy; apply Hrows; now apply list_elem_of_further).
    rewrite <- app_assoc. reflexivity.
Qed.

Lemma keyed_nice (h : heap) (rate : loc -> float) (name : loc -> string)
  (teams : list loc) :
  (forall x, x ∈ teams -> team_row h x (rate x) (name x)) ->
  Forall (fun y : (float * value) * loc => nice_key y.1)
    (keyed rate name <$> teams).
Proof.
  intros Hrows. apply Forall_fmap, Forall_forall. intros x Hx.
  destruct (Hrows x Hx) as (_ & Hnan & _). split; simpl.
  - destruct (rate x); simpl in *; congruence.
  - eauto.
Qed.

Lemma rank_teams_run (h : heap) (rate : loc -> float) (name : loc -> string)
  (teams : list loc) :
  (forall x, x ∈ teams -> team_row h x (rate x) (name x)) ->
  rank_teams teams h
  = (Ok (snd <$> insertion_sort pair_cmp (keyed rate name <$> teams)), h).
Proof.
  intros Hrows. unfold rank_teams.
  rewrite (bind_ok _ _ _ _ _ (keyed_loop h rate name teams Hrows [])).
  cbn [app]. unfold lift, bind.
  now rewrite (sort_by_key_pure _ (keyed_nice h rate name teams Hrows)).
Qed.

Lemma filter_fmap {A B} (f : A -> B) (Q : B -> Prop)
  `{!forall y, Decision (Q y)} (l : list A) :
  filter Q (f <$> l) = f <$> filter (fun x => Q (f x)) l.
Proof.
  induction l as [|x l IH]; [reflexivity|].
  cbn [fmap list_fmap]. rewrite !filter_cons.
  fold (fmap (M := list) f l). rewrite IH.
  destruct (decide (Q (f x))); reflexivity.
Qed.

Lemma StronglySorted_fmap_inv {A B} (f : A -> B) (R1 : A -> A -> Prop)
  (R2 : B -> B -> Prop) (l : list A) :
  (forall x y, x ∈ l -> y ∈ l -> R2 (f x) (f y) -> R1 x y) ->
  StronglySorted R2 (f <$> l) -> StronglySorted R1 l.
Proof.
  induction l as [|x l IH]; intros HR Hs; [constructor|].
  cbn [fmap list_fmap] in Hs. apply StronglySorted_inv in Hs as [Hs Hx].
  constructor.
  - apply IH; [|exact Hs]. intros y z Hy Hz.
    apply HR; now apply list_elem_of_further.
  - apply Forall_forall. intros y Hy. apply HR.
    + apply list_elem_of_here.
    + now apply list_elem_of_further.
    + apply (proj1 (Forall_forall _ _) Hx). now apply list_elem_of_fmap_2.
Qed.

Lemma keyed_le_ranked (rate : loc -> float) (name : loc -> string)
  (x y : loc) :
  is_nan (rate x) = false -> is_nan (rate y) = false ->
  cmp_le pair_cmp (keyed rate name x) (keyed rate name y) ->
  ranked_before rate name x y.
Proof.
  intros Nx Ny. unfold cmp_le, pair_cmp, key_cmp, keyed, ranked_before.
  cbn [fst snd str_of].
  replace (fcmp (SFopp (rate x)) (SFopp (rate y))) with (fcmp (rate y) (rate x))
    by (unfold fcmp; now rewrite SFcompare_opp).
  unfold Float.ge, Float.eq, SFleb, SFeqb.
  rewrite (fcmp_some (rate y) (rate x) Ny Nx).
  rewrite (fcmp_some (rate x) (rate y) Nx Ny).
  rewrite (fcmp_antisym (rate y) (rate x)).
  destruct (fcmp (rate y) (rate x)); simpl; intros H.
  - split; [reflexivity|]. intros _. unfold String.leb.
    destruct (String.compare (name x) (name y)); congruence.
  - split; [reflexivity|]. discriminate.
  - congruence.
Qed.

Lemma tied_keys (f : float) (c : string) (a b : (float * value) * loc) :
  Float.eq a.1.1 (SFopp f) = true /\ a.1.2 = VStr c ->
  Float.eq b.1.1 (SFopp f) = true /\ b.1.2 = VStr c ->
  pair_cmp b a <> Lt.
Proof.
  intros [Ha Hca] [Hb Hcb]. unfold pair_cmp, key_cmp.
  rewrite Hca, Hcb. cbn [str_of]. rewrite string_compare_refl.
  unfold Float.eq, SFeqb in Ha, Hb.
  destruct (SFcompare a.1.1 (SFopp f)) as [[]|] eqn:Ea; try discriminate.
  destruct (SFcompare b.1.1 (SFopp f)) as [[]|] eqn:Eb; try discriminate.
  pose proof (SFcompare_antisym a.1.1 (SFopp f)) as Ea'.
  rewrite Ea in Ea'. simpl in Ea'.
  unfold fcmp. rewrite (SFcompare_trans _ _ _ Eq Eb Ea'). simpl. discriminate.
Qed.

(** C3.  On team rows (a rate that is not a NaN, a string name) the sort
    returns a permutation of its input, descending by rate and ascending
    by name among equal rates; rows tied on both keep their input order;
    and sorting the result again returns it unchanged. *)
Theorem rank_teams_sorted (h : heap) (teams : list loc)
  (rate : loc -> float) (name : loc -> string) :
  (forall x, x ∈ teams -> team_row h x (rate x) (name x)) ->
  exists ranked : list loc,
    rank_teams teams h = (Ok ranked, h) /\
    ranked ≡ₚ teams /\
    StronglySorted (ranked_before rate name) ranked /\
    (forall f c,
       filter (tied rate name f c) ranked = filter (tied rate name f c) teams) /\
    rank_teams ranked h = (Ok ranked, h).
Proof.
  intros Hrows.
  set (sorted := insertion_sort pair_cmp (keyed rate name <$> teams)).
  exists (snd <$> sorted).
  assert (Hperm : sorted ≡ₚ keyed rate name <$> teams)
    by apply insertion_sort_Permutation.
  assert (Hranked : snd <$> sorted ≡ₚ teams).
  { rewrite Hperm, <- list_fmap_compose. apply reflexive_eq, list_fmap_id. }
  assert (Hkeyed : keyed rate name <$> (snd <$> sorted) = sorted).
  { assert (Hall : Forall (fun e => keyed rate name e.2 = e) sorted).
    { rewrite Hperm. apply Forall_fmap, Forall_forall. intros x _. reflexivity. }
    clear -Hall. induction Hall as [|e l He _ IH]; [reflexivity|].
    cbn [fmap list_fmap]. f_equal; [exact He|exact IH]. }
  assert (Hsorted : StronglySorted (cmp_le pair_cmp) sorted).
  { apply (insertion_sort_StronglySorted pair_cmp
             (fun e : (float * value) * loc => nice_key e.1)).
    - intros a b. apply key_cmp_antisym.
    - intros a b c. apply key_cmp_le_trans.
    - exact (keyed_nice h rate name teams Hrows). }
  assert (Hrows' : forall x, x ∈ snd <$> sorted ->
                             team_row h x (rate x) (name x)).
  { intros x Hx. apply Hrows. now rewrite <- Hranked. }
  split; [apply (rank_teams_run h rate name teams Hrows)|].
  split; [exact Hranked|]. split; [|split].
  - apply (StronglySorted_fmap_inv (keyed rate name) _ (cmp_le pair_cmp)).
    + intros x y Hx Hy. apply keyed_le_ranked.
      * now destruct (Hrows' x Hx) as (_ & ? & _).
      * now destruct (Hrows' y Hy) as (_ & ? & _).
    + now rewrite Hkeyed.
  - intros f c.
    assert (Hiff : forall l : list loc,
      filter (tied rate name f c) l
      = snd <$> filter (fun e : (float * value) * loc =>
                          Float.eq e.1.1 (SFopp f) = true /\ e.1.2 = VStr c)
                  (keyed rate name <$> l)).
    { intros l. rewrite filter_fmap, <- list_fmap_compose.
      rewrite (list_fmap_ext _ id) by reflexivity. rewrite list_fmap_id.
      apply list_filter_iff. intros x. unfold tied, keyed. cbn [fst snd].
      unfold Float.eq, SFeqb. rewrite SFcompare_opp.
      rewrite (SFcompare_antisym (rate x) f).
      destruct (SFcompare (rate x) f) as [[]|]; simpl;
        split; intros [? ?]; split; congruence. }
    rewrite !Hiff, Hkeyed. f_equal.
    apply (insertion_sort_filter pair_cmp). intros a b. apply tied_keys.
  - rewrite (rank_teams_run h rate name _ Hrows'), Hkeyed.
    rewrite (insertion_sort_id pair_cmp); [reflexivity| |exact Hsorted].
    intros a b. apply key_cmp_antisym.
Qed.

(** * The roster, worked *)

Lemma roster_rows (p : loc) :
  p ∈ 0%nat :: roster_players -> is_Some (roster !! p).
Proof.
  intros Hp. unfold roster_players in Hp.
  repeat (apply elem_of_cons in Hp as [->|Hp]; [eexists; reflexivity|]).
  inversion Hp.
Qed.

Lemma roster_NoDup : NoDup (0%nat :: roster_players).
Proof.
  unfold roster_players.
  repeat (apply NoDup_cons; split;
          [intros H; repeat (apply elem_of_cons in H as [H|H];
                             [discriminate|]); inversion H|]).
  apply NoDup_nil. exact I.
Qed.

Lemma roster_arity (p : loc) :
  p ∈ roster_players -> length (roster !!! p) = length (roster !!! 0%nat).
Proof.
  intros Hp. unfold roster_players in Hp.
  repeat (apply elem_of_cons in Hp as [->|Hp]; [reflexivity|]).
  inversion Hp.
Qed.

Lemma top_scorers_max_witness :
  get_top_scorer roster_players 7 roster = (Ok [3%nat; 4%nat], roster).
Proof.
  assert (H : Forall2 (fun p g => fst (goals_of p 7 roster) = Ok g)
                roster_players [0; 3; 5; 5; 2])
    by (repeat constructor).
  refine (proj1 (top_scorers_max roster roster_players 7 [0; 3; 5; 5; 2] H)
            5 _ _ _).
  - do 2 apply list_elem_of_further. apply list_elem_of_here.
  - repeat constructor; lia.
  - lia.
Defined.

Lemma keeps_row_witness :
  snd (get_player_shooting_numbers 1%nat (mk_slice (Some 2) (Some 5))
         broken_row) !! 1%nat
  = broken_row !! 1%nat /\
  fst (get_player_shooting_numbers 1%nat (mk_slice (Some 2) (Some 5))
         broken_row)
  = Raise ValueError.
Proof.
  split; [|reflexivity].
  refine (proj1 (get_player_shooting_numbers_keeps_row broken_row _ 1%nat
                   (mk_slice (Some 2) (Some 5)) _ _
                   (surjective_pairing _))).
  eexists. reflexivity.
Defined.

Lemma team_totals_sum_witness :
  fst (get_team_shooting_numbers [1; 2; 3]%nat
         (mk_slice (Some 7) (Some 10)) roster)
  = Ok (8, 26, 12) /\
  (fst (get_team_shooting_numbers [1; 2; 3]%nat
          (mk_slice (Some 7) (Some 10)) roster)
   = Ok (8, 26, 12) <->
   fst (get_team_shooting_numbers [3; 1; 2]%nat
          (mk_slice (Some 7) (Some 10)) roster)
   = Ok (8, 26, 12)).
Proof.
  assert (Hin : forall p, p ∈ [1; 2; 3]%nat -> is_Some (roster !! p)).
  { intros p Hp.
    repeat (apply elem_of_cons in Hp as [->|Hp]; [eexists; reflexivity|]).
    inversion Hp. }
  pose proof (team_totals_sum roster [1; 2; 3]%nat
                (mk_slice (Some 7) (Some 10)) Hin) as [Hsum Hperm].
  split.
  - apply (Hsum [(0, 4, 1); (3, 10, 4); (5, 12, 7)]). repeat constructor.
  - apply Hperm. change [3; 1; 2]%nat with ([3]%nat ++ [1; 2]%nat).
    change [1; 2; 3]%nat with ([1; 2]%nat ++ [3]%nat).
    apply Permutation_app_comm.
Defined.

Lemma team_table_rows (x : loc) :
  x ∈ [1; 2; 3; 4]%nat ->
  team_row team_table x (team_table_rate x) (team_table_name x).
Proof.
  intros Hx.
  repeat (apply elem_of_cons in Hx as [->|Hx];
          [repeat split; reflexivity|]).
  inversion Hx.
Qed.

Lemma rank_teams_sorted_witness :
  exists ranked : list loc,
    rank_teams [1; 2; 3; 4]%nat team_table = (Ok ranked, team_table) /\
    ranked ≡ₚ [1; 2; 3; 4]%nat /\
    StronglySorted (ranked_before team_table_rate team_table_name) ranked /\
    (forall f c,
       filter (tied team_table_rate team_table_name f c) ranked
       = filter (tied team_table_rate team_table_name f c) [1; 2; 3; 4]%nat) /\
    rank_teams ranked team_table = (Ok ranked, team_table).
Proof.
  apply (rank_teams_sorted team_table [1; 2; 3; 4]%nat
           team_table_rate team_table_name).
  exact team_table_rows.
Defined.

(** Nigeria and Brazil have the same rate and are ordered by name. *)
Example rank_teams_example :
  fst (rank_teams [1; 2; 3; 4]%nat team_table) = Ok [3; 1; 2; 4]%nat.
Proof. reflexivity. Qed.

(** * Further properties *)

(** ** Position strings *)

Lemma map_chars_length (f : ascii -> ascii) (s : string) :
  String.length (map_chars f s) = String.length s.
Proof. induction s as [|c s IH]; simpl; congruence. Qed.

Lemma split_on_nonempty (sep : ascii) (s : string) : split_on sep s <> [].
Proof.
  destruct s as [|c s]; simpl; [discriminate|].
  destruct (Ascii.eqb c sep); [discriminate|].
  destruct (split_on sep s); discriminate.
Qed.

Lemma split_on_length (sep : ascii) (s : string) :
  (1 < length (split_on sep s))%nat <-> contains_char sep s = true.
Proof.
  induction s as [|c s IH]; simpl.
  - split; [lia|discriminate].
  - pose proof (split_on_nonempty sep s) as Hne.
    destruct (Ascii.eqb c sep); simpl.
    + split; [reflexivity|]. intros _.
      destruct (split_on sep s); [congruence|simpl; lia].
    + rewrite <- IH. destruct (split_on sep s) as [|x [|y l]]; simpl; lia.
Qed.

Lemma contains_char_replace (old new c : ascii) (s : string) :
  contains_char c (replace old new s)
  = if Ascii.eqb c old then
      if Ascii.eqb c new then contains_char old s || contains_char new s
      else false
    else if Ascii.eqb c new then contains_char old s || contains_char new s
    else contains_char c s.
Proof.
  unfold replace. induction s as [|d s IH]; simpl.
  - destruct (Ascii.eqb c old), (Ascii.eqb c new); reflexivity.
  - rewrite IH. clear IH.
    destruct (Ascii.eqb_spec d old); simpl;
    repeat match goal with
      | |- context [Ascii.eqb ?a ?b] =>
          destruct (Ascii.eqb_spec a b)
      end; subst; simpl; try congruence;
      repeat match goal with
        | |- context [contains_char ?a s] => destruct (contains_char a s)
        end; simpl; congruence.
Qed.

(** X1.  Formatting a position string twice is formatting it once; the
    result has no comma and is as long as the input. *)
Theorem format_player_position_idempotent (position : string) :
  format_player_position (format_player_position position)
  = format_player_position position /\
  contains_char "," (format_player_position position) = false /\
  String.length (format_player_position position) = String.length position.
Proof.
  unfold format_player_position. split; [|split].
  - unfold replace. induction position as [|c s IH]; simpl; [reflexivity|].
    rewrite IH. f_equal.
    destruct (Ascii.eqb_spec c ","); [reflexivity|].
    destruct (Ascii.eqb_spec c ","); congruence.
  - rewrite contains_char_replace. reflexivity.
  - apply map_chars_length.
Qed.

(** X2.  After formatting, a position string splits into more than one
    position exactly when the raw string had a comma or a pipe. *)
Theorem multi_position_after_format (position : string) :
  (1 < length (split_on "|" (format_player_position position)))%nat <->
  contains_char "," position = true \/ contains_char "|" position = true.
Proof.
  rewrite split_on_length. unfold format_player_position.
  rewrite contains_char_replace. simpl.
  destruct (contains_char "," position), (contains_char "|" position);
    simpl; intuition congruence.
Qed.

(** ** Loops that only read the store *)

Lemma for_each_pure {A S} (f : S -> A -> S) (body : S -> A -> M S)
  (xs : list A) (h : heap) :
  (forall s x, x ∈ xs -> body s x h = (Ok (f s x), h)) ->
  forall s, for_each xs body s h = (Ok (foldl f s xs), h).
Proof.
  induction xs as [|x xs IH]; intros Hbody s; [reflexivity|].
  cbn [for_each foldl].
  rewrite (bind_ok _ _ _ _ _ (Hbody s x (list_elem_of_here _ _))).
  apply IH. intros s' y Hy. apply Hbody. now apply list_elem_of_further.
Qed.

Lemma for_each_read_only {A S} (body : S -> A -> M S) (xs : list A) :
  (forall s x h r h', body s x h = (r, h') -> h' = h) ->
  forall s h r h', for_each xs body s h = (r, h') -> h' = h.
Proof.
  intros Hbody. induction xs as [|x xs IH]; intros s h r h' Hrun.
  - inversion Hrun; reflexivity.
  - cbn [for_each] in Hrun. unfold bind in Hrun.
    destruct (body s x h) as [[s'|e] h1] eqn:Hb.
    + apply Hbody in Hb as ->. eauto.
    + apply Hbody in Hb as ->. inversion Hrun; reflexivity.
Qed.

Lemma foldl_filter {A} (b : A -> bool) (xs : list A) :
  forall acc,
    foldl (fun acc x => if b x then acc ++ [x] else acc) acc xs
    = acc ++ filter (fun x => b x = true) xs.
Proof.
  induction xs as [|x xs IH]; intros acc; cbn [foldl].
  - now rewrite app_nil_r.
  - rewrite IH, filter_cons. destruct (b x) eqn:Hb.
    + rewrite decide_True by reflexivity. now rewrite <- app_assoc.
    + rewrite decide_False by discriminate. reflexivity.
Qed.

Lemma getitem_read_only (p : loc) (i : Z) (h : heap) (r : result value)
  (h' : heap) :
  getitem p i h = (r, h') -> h' = h.
Proof. rewrite getitem_run. inversion 1; reflexivity. Qed.

Lemma read_then_pure {A B} (m : M A) (k : A -> M B) :
  (forall h r h', m h = (r, h') -> h' = h) ->
  (forall a h r h', k a h = (r, h') -> h' = h) ->
  forall h r h', bind m k h = (r, h') -> h' = h.
Proof.
  intros Hm Hk h r h' Hrun. unfold bind in Hrun.
  destruct (m h) as [[a|e] h1] eqn:Hmh.
  - apply Hm in Hmh as ->. eauto.
  - apply Hm in Hmh as ->. inversion Hrun; reflexivity.
Qed.

Lemma lift_read_only {A} (x : result A) (h : heap) (r : result A)
  (h' : heap) :
  lift x h = (r, h') -> h' = h.
Proof. inversion 1; reflexivity. Qed.

Lemma ret_read_only {A} (a : A) (h : heap) (r : result A) (h' : heap) :
  ret a h = (r, h') -> h' = h.
Proof. inversion 1; reflexivity. Qed.

Lemma goals_of_read_only (p : loc) (i : Z) (h : heap) (r : result Z)
  (h' : heap) :
  goals_of p i h = (r, h') -> h' = h.
Proof. rewrite goals_of_run. inversion 1; reflexivity. Qed.

Lemma get_team_read_only (players : list loc) (i : Z) (squad : string)
  (h : heap) (r : result (list loc)) (h' : heap) :
  get_team players i squad h = (r, h') -> h' = h.
Proof.
  revert h r h'. apply for_each_read_only. intros s x.
  apply read_then_pure; [apply getitem_read_only|]. intros v.
  apply read_then_pure; [apply lift_read_only|]. intros name.
  destruct (String.eqb name (lower squad)); apply ret_read_only.
Qed.

Lemma get_team_names_read_only (players : list loc) (i : Z) (h : heap)
  (r : result (list value)) (h' : heap) :
  get_team_names players i h = (r, h') -> h' = h.
Proof.
  revert h r h'. apply for_each_read_only. intros s x.
  apply read_then_pure; [apply getitem_read_only|]. intros v.
  destruct (negb (py_contains s v)); apply ret_read_only.
Qed.

(** X3.  The four filters never change the store, whether they return
    or raise. *)
Theorem filters_read_only :
  (forall players i h r h',
     get_multi_position_players players i h = (r, h') -> h' = h) /\
  (forall players i squad h r h',
     get_team players i squad h = (r, h') -> h' = h) /\
  (forall players i h r h',
     get_team_names players i h = (r, h') -> h' = h) /\
  (forall players i h r h',
     get_top_scorer players i h = (r, h') -> h' = h).
Proof.
  repeat apply conj.
  - intros players i. apply for_each_read_only. intros s x.
    apply read_then_pure; [apply getitem_read_only|]. intros v.
    apply read_then_pure; [apply lift_read_only|]. intros positions.
    destruct (1 <? length positions)%nat; apply ret_read_only.
  - exact get_team_read_only.
  - exact get_team_names_read_only.
  - intros players i. unfold get_top_scorer.
    apply read_then_pure; [|intros acc; apply ret_read_only].
    apply for_each_read_only. intros [top high] x.
    apply read_then_pure; [apply goals_of_read_only|]. intros g.
    destruct ((g >? high) && (g >? 0)); [apply ret_read_only|].
    destruct ((g =? high) && (g >? 0)); apply ret_read_only.
Qed.

(** ** Multi-position players and teams *)

(** X4.  When the position fields are strings, the result is the players
    whose position has a pipe, in input order. *)
Theorem multi_position_players_filter (h : heap) (players : list loc)
  (pos_idx : Z) (position : loc -> string) :
  (forall p, p ∈ players ->
             list_getitem (h !!! p) pos_idx = Ok (VStr (position p))) ->
  get_multi_position_players players pos_idx h
  = (Ok (filter (fun p => contains_char "|" (position p) = true) players), h).
Proof.
  intros Hpos. unfold get_multi_position_players.
  rewrite (for_each_pure
             (fun acc p =>
                if (1 <? length (split_on "|" (position p)))%nat
                then acc ++ [p] else acc)).
  - rewrite foldl_filter. cbn [app]. do 2 f_equal.
    apply list_filter_iff. intros p.
    rewrite <- split_on_length. apply Nat.ltb_lt.
  - intros acc p Hp. rewrite (bind_ok _ _ h h (VStr (position p)))
      by (rewrite getitem_run, (Hpos p Hp); reflexivity).
    rewrite (bind_ok _ _ h h (split_on "|" (position p))) by reflexivity.
    destruct (1 <? length (split_on "|" (position p)))%nat; reflexivity.
Qed.

(** The loop of [get_team] on string squads, as a fold. *)
Lemma get_team_fold (h : heap) (players : list loc) (squad_idx : Z)
  (squad : string) (name : loc -> string) :
  (forall p, p ∈ players ->
             list_getitem (h !!! p) squad_idx = Ok (VStr (name p))) ->
  get_team players squad_idx squad h
  = (Ok (foldl (fun acc p =>
                  if String.eqb (lower (name p)) (lower squad)
                  then acc ++ [p] else acc) [] players), h).
Proof.
  intros Hname. unfold get_team. apply for_each_pure.
  intros acc p Hp. rewrite (bind_ok _ _ h h (VStr (name p)))
    by (rewrite getitem_run, (Hname p Hp); reflexivity).
  rewrite (bind_ok _ _ h h (lower (name p))) by reflexivity.
  destruct (String.eqb (lower (name p)) (lower squad)); reflexivity.
Qed.

(** X5.  When the squad fields are strings, the team is the players whose
    squad name equals the given one up to case, in input order. *)
Theorem get_team_filter (h : heap) (players : list loc) (squad_idx : Z)
  (squad : string) (name : loc -> string) :
  (forall p, p ∈ players ->
             list_getitem (h !!! p) squad_idx = Ok (VStr (name p))) ->
  get_team players squad_idx squad h
  = (Ok (filter (fun p => lower (name p) = lower squad) players), h).
Proof.
  intros Hname. rewrite (get_team_fold h players squad_idx squad name Hname).
  rewrite foldl_filter. cbn [app]. do 2 f_equal.
  apply list_filter_iff. intros p. apply String.eqb_eq.
Qed.

Lemma roster_fields (i : Z) (p : loc) :
  (0 <= i < 11) -> p ∈ roster_players ->
  list_getitem (roster_normalized !!! p) i = Ok (VStr (roster_field i p)).
Proof.
  intros Hi Hp.
  assert (Hi' : i ∈ (Z.of_nat <$> seq 0 11)).
  { replace i with (Z.of_nat (Z.to_nat i)) by lia.
    apply list_elem_of_fmap_2, elem_of_seq. lia. }
  clear Hi. unfold roster_players in Hp. cbn in Hi'.
  repeat (apply elem_of_cons in Hp as [->|Hp];
          [repeat (apply elem_of_cons in Hi' as [->|Hi']; [reflexivity|]);
           inversion Hi'|]).
  inversion Hp.
Qed.

Lemma multi_position_players_filter_witness :
  get_multi_position_players roster_players 2 roster_normalized
  = (Ok (filter (fun p => contains_char "|" (roster_field 2 p) = true)
           roster_players), roster_normalized) /\
  filter (fun p => contains_char "|" (roster_field 2 p) = true) roster_players
  = [1%nat].
Proof.
  split; [|reflexivity].
  apply (multi_position_players_filter roster_normalized roster_players 2
           (roster_field 2)).
  intros p Hp. apply roster_fields; [lia|exact Hp].
Defined.

Lemma get_team_filter_witness :
  get_team roster_players 4 "NIGERIA" roster_normalized
  = (Ok (filter (fun p => lower (roster_field 4 p) = lower "NIGERIA")
           roster_players), roster_normalized) /\
  filter (fun p => lower (roster_field 4 p) = lower "NIGERIA") roster_players
  = [1; 2; 4]%nat.
Proof.
  split; [|reflexivity].
  apply (get_team_filter roster_normalized roster_players 4 "NIGERIA"
           (roster_field 4)).
  intros p Hp. apply roster_fields; [lia|exact Hp].
Defined.

(** ** Team names *)

Lemma py_contains_strings (acc : list string) (n : string) :
  py_contains (VStr <$> acc) (VStr n) = bool_decide (n ∈ acc).
Proof.
  unfold py_contains. induction acc as [|a acc IH]; [reflexivity|].
  cbn [fmap list_fmap existsb py_eq]. fold (fmap (M := list) VStr acc).
  rewrite IH. destruct (String.eqb_spec a n) as [->|Hne]; simpl.
  - symmetry. apply bool_decide_eq_true. apply list_elem_of_here.
  - apply bool_decide_ext. rewrite elem_of_cons. intuition congruence.
Qed.

Lemma firsts_values (name : loc -> string) (players : list loc) :
  forall acc,
    foldl (fun acc p =>
             if negb (py_contains acc (VStr (name p)))
             then acc ++ [VStr (name p)] else acc)
      (VStr <$> acc) players
    = VStr <$> firsts acc (name <$> players).
Proof.
  unfold firsts.
  induction players as [|p players IH]; intros acc; [reflexivity|].
  cbn [foldl fmap list_fmap]. fold (fmap (M := list) name players).
  rewrite py_contains_strings.
  destruct (bool_decide (name p ∈ acc)); cbn [negb]; [apply IH|].
  rewrite <- IH. f_equal. now rewrite fmap_app.
Qed.

Lemma firsts_spec (l : list string) :
  forall acc pre,
    NoDup acc ->
    (forall n, n ∈ acc <-> n ∈ pre) ->
    (forall i j n m, acc !! i = Some n -> acc !! j = Some m -> (i < j)%nat ->
                     occurs_first pre n m) ->
    NoDup (firsts acc l) /\
    (forall n, n ∈ firsts acc l <-> n ∈ pre ++ l) /\
    (forall i j n m,
       firsts acc l !! i = Some n -> firsts acc l !! j = Some m ->
       (i < j)%nat -> occurs_first (pre ++ l) n m).
Proof.
  induction l as [|x l IH]; intros acc pre Hnd Hmem Hord.
  - unfold firsts. cbn [foldl]. rewrite app_nil_r. auto.
  - assert (Hstep : forall i j n m,
              acc !! i = Some n -> acc !! j = Some m -> (i < j)%nat ->
              occurs_first (pre ++ [x]) n m).
    { intros i j n m Hi Hj Hij.
      destruct (Hord i j n m Hi Hj Hij) as (k & Hk & Hlater).
      exists k. split; [now apply lookup_app_l_Some|].
      intros k' Hk'. apply lookup_app_Some in Hk' as [Hk'|[Hlen _]].
      - now apply Hlater.
      - apply lookup_lt_Some in Hk. lia. }
    change (firsts acc (x :: l))
      with (firsts (if bool_decide (x ∈ acc) then acc else acc ++ [x]) l).
    replace (pre ++ x :: l) with ((pre ++ [x]) ++ l)
      by (now rewrite <- app_assoc).
    destruct (bool_decide_reflect (x ∈ acc)) as [Hin|Hnin].
    + apply IH; [exact Hnd| |exact Hstep].
      intros n. rewrite elem_of_app, list_elem_of_singleton, <- Hmem.
      split; [auto|]. intros [H| ->]; assumption.
    + apply IH.
      * apply NoDup_app. split; [exact Hnd|].
        split; [|apply NoDup_singleton].
        intros n Hn Hn'. apply list_elem_of_singleton in Hn'. congruence.
      * intros n. rewrite !elem_of_app, Hmem. reflexivity.
      * intros i j n m Hi Hj Hij.
        apply lookup_app_Some in Hj as [Hj|[Hlen Hj]].
        -- apply (Hstep i j n m); auto.
           apply lookup_app_Some in Hi as [Hi|[Hlen _]]; [exact Hi|].
           apply lookup_lt_Some in Hj. lia.
        -- apply list_lookup_singleton_Some in Hj as [Hj ->].
           apply lookup_app_Some in Hi as [Hi|[Hlen' _]]; [|lia].
           assert (Hn : n ∈ pre)
             by (apply Hmem, list_elem_of_lookup; eauto).
           apply list_elem_of_lookup in Hn as [k Hk].
           exists k. split; [now apply lookup_app_l_Some|].
           intros k' Hk'. apply lookup_app_Some in Hk' as [Hk'|[Hk' _]].
           ++ exfalso. apply Hnin, Hmem, list_elem_of_lookup. eauto.
           ++ apply lookup_lt_Some in Hk. lia.
Qed.

(** The loop of [get_team_names] on string squads, as a fold. *)
Lemma get_team_names_fold (h : heap) (players : list loc) (squad_idx : Z)
  (name : loc -> string) :
  (forall p, p ∈ players ->
             list_getitem (h !!! p) squad_idx = Ok (VStr (name p))) ->
  get_team_names players squad_idx h
  = (Ok (foldl (fun acc p =>
                  if negb (py_contains acc (VStr (name p)))
                  then acc ++ [VStr (name p)] else acc) [] players), h).
Proof.
  intros Hname. unfold get_team_names. apply for_each_pure.
  intros acc p Hp. rewrite (bind_ok _ _ h h (VStr (name p)))
    by (rewrite getitem_run, (Hname p Hp); reflexivity).
  destruct (negb (py_contains acc (VStr (name p)))); reflexivity.
Qed.

(** X6.  When the squad fields are strings, the names returned have no
    duplicate, are exactly the names that occur, and stand in the order
    of their first occurrences. *)
Theorem get_team_names_first_occurrences (h : heap) (players : list loc)
  (squad_idx : Z) (name : loc -> string) :
  (forall p, p ∈ players ->
             list_getitem (h !!! p) squad_idx = Ok (VStr (name p))) ->
  exists names : list string,
    get_team_names players squad_idx h = (Ok (VStr <$> names), h) /\
    NoDup names /\
    (forall n, n ∈ names <-> n ∈ name <$> players) /\
    (forall i j n m,
       names !! i = Some n -> names !! j = Some m -> (i < j)%nat ->
       occurs_first (name <$> players) n m).
Proof.
  intros Hname. exists (firsts [] (name <$> players)). split.
  - rewrite (get_team_names_fold h players squad_idx name Hname).
    now rewrite <- firsts_values.
  - pose proof (firsts_spec (name <$> players) [] []) as Hspec.
    cbn [app] in Hspec. apply Hspec.
    + constructor.
    + reflexivity.
    + intros i j n m Hi. discriminate Hi.
Qed.

Lemma get_team_names_first_occurrences_witness :
  exists names : list string,
    get_team_names roster_players 4 roster_normalized
    = (Ok (VStr <$> names), roster_normalized) /\
    NoDup names /\
    (forall n, n ∈ names <-> n ∈ roster_field 4 <$> roster_players) /\
    (forall i j n m,
       names !! i = Some n -> names !! j = Some m -> (i < j)%nat ->
       occurs_first (roster_field 4 <$> roster_players) n m).
Proof.
  apply (get_team_names_first_occurrences roster_normalized roster_players 4
           (roster_field 4)).
  intros p Hp. apply roster_fields; [lia|exact Hp].
Defined.

(** ** More on top scorers *)

Lemma get_top_scorer_by (h : heap) (l : list loc) (gls_idx : Z)
  (g : loc -> Z) :
  (forall q, q ∈ l -> fst (goals_of q gls_idx h) = Ok (g q)) ->
  get_top_scorer l gls_idx h
  = (Ok (filter (fun q => g q = best g l /\ 0 < best g l) l), h).
Proof.
  intros Hg.
  assert (Hall : Forall2 (fun p n => fst (goals_of p gls_idx h) = Ok n)
                   l (g <$> l)).
  { apply Forall2_fmap_r, Forall_Forall2_diag, Forall_forall. exact Hg. }
  rewrite (get_top_scorer_run gls_idx h l (g <$> l) Hall). fold (best g l).
  do 2 f_equal. rewrite zip_with_fmap_r, zip_with_diag.
  rewrite filter_fmap, <- list_fmap_compose.
  rewrite (list_fmap_ext _ id) by reflexivity. apply list_fmap_id.
Qed.

Lemma best_spec (g : loc -> Z) (l : list loc) :
  0 <= best g l /\ (forall q, q ∈ l -> g q <= best g l) /\
  (best g l = 0 \/ exists q, q ∈ l /\ g q = best g l).
Proof.
  unfold best. destruct (fold_max_spec (g <$> l) 0) as (Hin & Hge & Hall).
  split; [exact Hge|]. split.
  - intros q Hq. apply (proj1 (Forall_forall _ _) Hall).
    now apply list_elem_of_fmap_2.
  - destruct Hin as [Hin|Hin]; [now left|right].
    apply list_elem_of_fmap in Hin as (q & Hq & Hql). eauto.
Qed.

(** X7.  The top scorers of the top scorers are the top scorers: a second
    call on the result returns it unchanged. *)
Theorem get_top_scorer_idempotent (h : heap) (players : list loc)
  (gls_idx : Z) (g : loc -> Z) :
  (forall q, q ∈ players -> fst (goals_of q gls_idx h) = Ok (g q)) ->
  exists top,
    get_top_scorer players gls_idx h = (Ok top, h) /\
    get_top_scorer top gls_idx h = (Ok top, h).
Proof.
  intros Hg. eexists. split; [apply (get_top_scorer_by h players gls_idx g Hg)|].
  set (m := best g players).
  set (top := filter (fun q => g q = m /\ 0 < m) players).
  assert (Htop : forall q, q ∈ top -> q ∈ players /\ g q = m /\ 0 < m).
  { intros q Hq. apply list_elem_of_filter in Hq. tauto. }
  rewrite (get_top_scorer_by h top gls_idx g)
    by (intros q Hq; apply Hg, Htop, Hq).
  do 2 f_equal.
  destruct (best_spec g top) as (Hge & Hle & Hex).
  assert (Hall : forall q, q ∈ top -> g q = best g top /\ 0 < best g top).
  { intros q Hq. destruct (Htop q Hq) as (_ & Hq1 & Hq2).
    specialize (Hle q Hq). destruct Hex as [H0|(q' & Hq' & Hb)]; [lia|].
    destruct (Htop q' Hq') as (_ & Hq1' & _). split; lia. }
  generalize dependent (best g top). intros b _ _ _ Hall.
  clear -Hall. induction top as [|q top IH]; [reflexivity|].
  rewrite filter_cons_True by (apply Hall, list_elem_of_here).
  f_equal. apply IH. intros q' Hq'. apply Hall.
  now apply list_elem_of_further.
Qed.

Lemma roster_goals_read (q : loc) :
  q ∈ roster_players -> fst (goals_of q 7 roster) = Ok (roster_goals q).
Proof.
  intros Hq. unfold roster_players in Hq.
  repeat (apply elem_of_cons in Hq as [->|Hq]; [reflexivity|]).
  inversion Hq.
Qed.

Lemma get_top_scorer_idempotent_witness :
  exists top,
    get_top_scorer roster_players 7 roster = (Ok top, roster) /\
    get_top_scorer top 7 roster = (Ok top, roster).
Proof.
  exact (get_top_scorer_idempotent roster roster_players 7 roster_goals
           roster_goals_read).
Defined.

Lemma for_each_acc_inv {A S} (P : S -> Prop) (body : S -> A -> M S)
  (xs : list A) :
  (forall s x h s' h', x ∈ xs -> P s -> body s x h = (Ok s', h') -> P s') ->
  forall s h s' h', P s -> for_each xs body s h = (Ok s', h') -> P s'.
Proof.
  induction xs as [|x xs IH]; intros Hbody s h s' h' Hs Hrun.
  - inversion Hrun; subst. exact Hs.
  - cbn [for_each] in Hrun. apply bind_inv in Hrun as (s1 & h1 & Hb & Hrun).
    apply (IH (fun s x h s' h' Hx => Hbody s x h s' h'
                                      (list_elem_of_further _ _ _ Hx))
             s1 h1 s' h'); [|exact Hrun].
    exact (Hbody s x h s1 h1 (list_elem_of_here _ _) Hs Hb).
Qed.

Lemma for_each_app {A S} (body : S -> A -> M S) (xs ys : list A) (s : S)
  (h : heap) :
  for_each (xs ++ ys) body s h
  = bind (for_each xs body s) (fun s' => for_each ys body s') h.
Proof.
  revert s h. induction xs as [|x xs IH]; intros s h; [reflexivity|].
  cbn [app for_each]. rewrite bind_assoc.
  destruct (body s x h) as [[s1|e] h1] eqn:Hb.
  - rewrite !(bind_ok _ _ _ _ _ Hb). apply IH.
  - now rewrite !(bind_raise _ _ _ _ _ Hb).
Qed.

Lemma get_team_members (players : list loc) (squad_idx : Z) (squad : string)
  (h h' : heap) (team : list loc) :
  get_team players squad_idx squad h = (Ok team, h') ->
  forall q, q ∈ team -> q ∈ players.
Proof.
  unfold get_team.
  apply (for_each_acc_inv (fun acc => forall q, q ∈ acc -> q ∈ players)).
  - intros acc x h0 acc' h1 Hx Hacc Hbody.
    apply bind_inv in Hbody as (v & h2 & _ & Hbody).
    apply bind_inv in Hbody as (name & h3 & _ & Hbody).
    destruct (String.eqb name (lower squad)); inversion Hbody; subst;
      [|exact Hacc].
    intros q Hq. apply elem_of_app in Hq as [Hq|Hq]; [auto|].
    apply list_elem_of_singleton in Hq. now subst.
  - intros q Hq. inversion Hq.
Qed.

(** X8.  An overall top scorer is a top scorer of the team it plays for:
    the rows of step 7 appear again in the per-team lists of step 8. *)
Theorem overall_top_scorer_tops_team (h : heap) (players : list loc)
  (squad_idx gls_idx : Z) (squad : string) (g : loc -> Z)
  (top team : list loc) (p : loc) :
  (forall q, q ∈ players -> fst (goals_of q gls_idx h) = Ok (g q)) ->
  get_top_scorer players gls_idx h = (Ok top, h) ->
  get_team players squad_idx squad h = (Ok team, h) ->
  p ∈ top -> p ∈ team ->
  exists team_top,
    get_top_scorer team gls_idx h = (Ok team_top, h) /\ p ∈ team_top.
Proof.
  intros Hg Htop Hteam Hp Hpt.
  pose proof (get_team_members _ _ _ _ _ _ Hteam) as Hsub.
  rewrite (get_top_scorer_by h players gls_idx g Hg) in Htop.
  inversion Htop; subst top. clear Htop.
  apply list_elem_of_filter in Hp as [[Hgp Hpos] _].
  eexists. split.
  - apply (get_top_scorer_by h team gls_idx g).
    intros q Hq. apply Hg, Hsub, Hq.
  - apply list_elem_of_filter. split; [|exact Hpt].
    destruct (best_spec g players) as (_ & Hle & _).
    destruct (best_spec g team) as (_ & Hle' & Hex').
    specialize (Hle' p Hpt).
    assert (Hb : best g team <= best g players).
    { destruct Hex' as [H0|(q & Hq & <-)]; [lia|]. apply Hle, Hsub, Hq. }
    split; lia.
Qed.

Lemma overall_top_scorer_tops_team_witness :
  exists team_top,
    get_top_scorer [1; 2; 4]%nat 7 roster = (Ok team_top, roster) /\
    4%nat ∈ team_top.
Proof.
  apply (overall_top_scorer_tops_team roster roster_players 3 7 "ng nigeria"
           roster_goals [3; 4]%nat [1; 2; 4]%nat 4%nat roster_goals_read).
  - reflexivity.
  - reflexivity.
  - apply list_elem_of_further, list_elem_of_here.
  - do 2 apply list_elem_of_further. apply list_elem_of_here.
Defined.

(** X9.  One goal field that [int()] rejects fails the whole call, also
    when it belongs to a row after the best one: the exception of the
    first such row is raised. *)
Theorem get_top_scorer_raises (h : heap) (before after : list loc)
  (player : loc) (gls_idx : Z) (goals : list Z) (e : exn) :
  Forall2 (fun p g => fst (goals_of p gls_idx h) = Ok g) before goals ->
  fst (goals_of player gls_idx h) = Raise e ->
  get_top_scorer (before ++ player :: after) gls_idx h = (Raise e, h).
Proof.
  intros Hbefore Hplayer. unfold get_top_scorer.
  apply bind_raise. rewrite for_each_app.
  rewrite (bind_ok _ _ _ _ _ (top_loop_run gls_idx h before goals Hbefore _)).
  cbn [for_each]. apply bind_raise.
  destruct (fold_left top_step (zip before goals) ([], 0)) as [top high].
  apply bind_raise. now rewrite goals_of_run, Hplayer.
Qed.

Lemma get_top_scorer_raises_witness :
  get_top_scorer (roster_players ++ 6%nat :: []) 7 roster_unrecorded
  = (Raise ValueError, roster_unrecorded).
Proof.
  apply (get_top_scorer_raises roster_unrecorded roster_players []
           6%nat 7 [0; 3; 5; 5; 2] ValueError).
  - repeat constructor.
  - reflexivity.
Defined.

(** ** More on shooting numbers and rates *)

(** X10.  The list returned is new and holds [int()] of every field of
    the slice, in order; if [int()] rejects a field, its exception is
    raised, the first one from the left. *)
Theorem shooting_numbers_contents (h : heap) (player : loc) (sl : slice) :
  is_Some (h !! player) ->
  match ints_of (list_slice (h !!! player) sl) with
  | Ok ns =>
      exists nums h',
        get_player_shooting_numbers player sl h = (Ok nums, h') /\
        h !! nums = None /\ h' !!! nums = VInt <$> ns /\
        h' !!! player = h !!! player
  | Raise e =>
      exists h', get_player_shooting_numbers player sl h = (Raise e, h')
  end.
Proof.
  intros Hp.
  pose proof (get_player_shooting_numbers_run h player sl) as Hrun.
  cbv zeta in Hrun. destruct (ints_of _) as [ns|e].
  - eexists _, _. split; [exact Hrun|]. split; [|split].
    + apply not_elem_of_dom, is_fresh.
    + apply lookup_total_insert_eq.
    + apply extends_total; [apply extends_fresh|exact Hp].
  - destruct Hrun as [l' Hrun]. eauto.
Qed.

Lemma shooting_numbers_contents_witness :
  exists nums h',
    get_player_shooting_numbers 2%nat (mk_slice (Some 7) (Some 10)) roster
    = (Ok nums, h') /\
    roster !! nums = None /\ h' !!! nums = [VInt 3; VInt 10; VInt 4] /\
    h' !!! 2%nat = roster !!! 2%nat.
Proof.
  apply (shooting_numbers_contents roster 2%nat (mk_slice (Some 7) (Some 10))).
  eexists. reflexivity.
Defined.

Lemma list_slice_app (l extra : list value) (a b : Z) :
  0 <= a -> 0 <= b <= Z.of_nat (length l) ->
  list_slice (l ++ extra) (mk_slice (Some a) (Some b))
  = list_slice l (mk_slice (Some a) (Some b)).
Proof.
  intros Ha Hb. unfold list_slice, slice_bounds. cbn [start stop].
  unfold adjust_index. rewrite length_app.
  destruct (Z.ltb_spec a 0); [lia|]. destruct (Z.ltb_spec b 0); [lia|].
  replace (Z.min b (Z.of_nat (length l + length extra))) with b by lia.
  replace (Z.min b (Z.of_nat (length l))) with b by lia.
  destruct (Z.le_gt_cases a (Z.of_nat (length l))) as [Hal|Hal].
  - replace (Z.min a (Z.of_nat (length l + length extra))) with a by lia.
    replace (Z.min a (Z.of_nat (length l))) with a by lia.
    rewrite drop_app_le by lia. rewrite take_app_le; [reflexivity|].
    rewrite length_drop. lia.
  - replace (Z.to_nat b - Z.to_nat (Z.min a (Z.of_nat (length l + length extra))))%nat
      with 0%nat by lia.
    replace (Z.to_nat b - Z.to_nat (Z.min a (Z.of_nat (length l))))%nat
      with 0%nat by lia.
    reflexivity.
Qed.

(** X11.  A slice with bounds inside a row reads the same numbers after
    fields have been appended to the row: the slice made in step 9.2
    still selects goals, shots and shots on target in step 11, after
    step 10 has appended the two rates. *)
Theorem shooting_numbers_ignore_appended (h h2 : heap) (player : loc)
  (extra : list value) (a b : Z) :
  0 <= a -> 0 <= b <= Z.of_nat (length (h !!! player)) ->
  h2 !!! player = h !!! player ++ extra ->
  fst ((nums <- get_player_shooting_numbers player
                  (mk_slice (Some a) (Some b)) ;;
        unpack3 nums) h2)
  = fst ((nums <- get_player_shooting_numbers player
                    (mk_slice (Some a) (Some b)) ;;
          unpack3 nums) h).
Proof.
  intros Ha Hb Hrow.
  destruct (shooting_triple_run h player (mk_slice (Some a) (Some b)))
    as (h' & -> & _).
  destruct (shooting_triple_run h2 player (mk_slice (Some a) (Some b)))
    as (h2' & -> & _).
  cbn [fst]. unfold player_numbers.
  now rewrite Hrow, list_slice_app.
Qed.

Lemma shooting_numbers_ignore_appended_witness :
  fst ((nums <- get_player_shooting_numbers 2%nat
                  (mk_slice (Some 7) (Some 10)) ;;
        unpack3 nums)
         (<[2%nat := roster !!! 2%nat ++ [VFloat lit_0_3; VFloat lit_0_4]]>
            roster))
  = fst ((nums <- get_player_shooting_numbers 2%nat
                    (mk_slice (Some 7) (Some 10)) ;;
          unpack3 nums) roster).
Proof.
  apply (shooting_numbers_ignore_appended roster _ 2%nat
           [VFloat lit_0_3; VFloat lit_0_4] 7 10).
  - lia.
  - vm_compute. split; discriminate.
  - apply lookup_total_insert_eq.
Defined.

Lemma int_truediv_finite a b q : int_truediv a b = Ok q -> is_finite q = true.
Proof.
  intros H. pose proof (int_truediv_not_nan a b q H) as Hnan.
  unfold int_truediv in H. destruct (b =? 0); [discriminate|].
  destruct (nearest_ratio _ _ _); inversion H; subst; try reflexivity;
    discriminate.
Qed.

Lemma round_finite x p r :
  is_finite x = true -> round x p = Ok r -> is_finite r = true.
Proof.
  intros Hx H.
  assert (Hnan : is_nan r = false).
  { apply (round_not_nan x p r); [|exact H]. now destruct x. }
  unfold round in H. rewrite Hx in H. cbn [negb] in H.
  destruct (NDIGITS_MAX <? p); [inversion H; subst; exact Hx|].
  destruct (p <? NDIGITS_MIN).
  - inversion H; subst. now destruct x.
  - unfold double_round in H. destruct x; try (inversion H; subst; exact Hx).
    destruct (of_decimal _ _ _); inversion H; subst; try reflexivity;
      discriminate.
Qed.

(** X12.  A rate that is returned is a finite float: never a NaN, never
    an infinity. *)
Theorem conversion_rate_finite (goals shots precision : Z) (r : float) :
  calculate_shot_conversion_rate goals shots precision = Ok r ->
  is_finite r = true.
Proof.
  unfold calculate_shot_conversion_rate, try_except, rbind.
  destruct (int_truediv goals shots) as [q|e] eqn:Hq.
  - destruct (round q precision) as [r'|e] eqn:Hr.
    + inversion 1; subst.
      eapply round_finite; eauto using int_truediv_finite.
    + destruct (decide (e = ZeroDivisionError)); inversion 1; reflexivity.
  - destruct (decide (e = ZeroDivisionError)); inversion 1; reflexivity.
Qed.

Lemma conversion_rate_finite_witness :
  is_finite (of_decimal false 333 (-3)) = true.
Proof.
  apply (conversion_rate_finite 1 3 3). vm_compute. reflexivity.
Defined.

(** X13.  Without goals, or without shots, the rate is a zero at every
    precision: with zero goals the zero has the sign of the shots, with
    zero shots it is [0.0]; and a zero of either sign is rated Bottom
    Tier. *)
Theorem no_goals_bottom_tier (goals shots precision : Z) :
  calculate_shot_conversion_rate 0 shots precision
  = Ok (S754_zero (shots <? 0)) /\
  calculate_shot_conversion_rate goals 0 precision = Ok zero /\
  (forall s : bool, efficiency_rating (S754_zero s) = "Bottom Tier"%string).
Proof.
  split; [|split; [reflexivity|intros []; reflexivity]].
  unfold calculate_shot_conversion_rate, int_truediv.
  destruct (Z.eqb_spec shots 0) as [->|Hne]; [reflexivity|].
  cbn [Z.abs_N nearest_ratio SFdiv rbind Z.ltb Z.compare xorb].
  unfold round. cbn [is_finite negb].
  destruct (shots <? 0);
    destruct (NDIGITS_MAX <? precision); try reflexivity;
    destruct (precision <? NDIGITS_MIN); reflexivity.
Qed.

(** ** More on the steps of [main] *)

Lemma list_slice_first_ten (l : list value) :
  list_slice l (mk_slice None (Some 10)) = take 10 l.
Proof.
  unfold list_slice, slice_bounds, adjust_index. cbn [start stop Z.ltb Z.compare].
  rewrite drop_0, Nat.sub_0_r.
  destruct (Z.le_gt_cases 10 (Z.of_nat (length l))) as [Hl|Hl].
  - now replace (Z.to_nat (Z.min 10 (Z.of_nat (length l)))) with 10%nat by lia.
  - replace (Z.to_nat (Z.min 10 (Z.of_nat (length l)))) with (length l) by lia.
    rewrite firstn_all. symmetry. apply take_ge. lia.
Qed.

Lemma truncate_loop_run (data : list loc) :
  forall (h : heap) (acc : list loc),
    (forall p, p ∈ data -> is_Some (h !! p)) ->
    exists news h',
      for_each data
        (fun rows row =>
           l <- load row ;;
           p <- alloc (list_slice l (mk_slice None (Some 10))) ;;
           ret (rows ++ [p]))
        acc h
      = (Ok (acc ++ news), h') /\
      extends h h' /\ NoDup news /\
      Forall2 (fun old new =>
                 h !! new = None /\ h' !!! new = take 10 (h !!! old))
        data news.
Proof.
  induction data as [|row data IH]; intros h acc Hin.
  - exists [], h. rewrite app_nil_r.
    split; [reflexivity|]. split; [apply extends_refl|].
    split; constructor.
  - set (p := fresh (dom h)).
    set (h1 := <[p := take 10 (h !!! row)]> h).
    assert (Hfresh : h !! p = None) by (apply not_elem_of_dom, is_fresh).
    assert (Hext1 : extends h h1) by apply extends_fresh.
    destruct (IH h1 (acc ++ [p])) as (news & h' & Hrun & Hext & Hnd & Hall).
    { intros q Hq. apply (extends_is_Some h); [exact Hext1|].
      apply Hin. now apply list_elem_of_further. }
    exists (p :: news), h'. split; [|split; [|split]].
    + cbn [for_each].
      erewrite bind_ok; [|unfold bind, load, alloc, ret; reflexivity].
      rewrite list_slice_first_ten. fold p. fold h1. rewrite Hrun.
      now rewrite <- app_assoc.
    + eapply extends_trans; eauto.
    + apply NoDup_cons. split; [|exact Hnd]. intros Hp.
      apply list_elem_of_lookup in Hp as [k Hk].
      destruct (Forall2_lookup_r _ _ _ _ _ Hall Hk) as (old & _ & Hnone & _).
      unfold h1 in Hnone. rewrite lookup_insert_eq in Hnone. discriminate.
    + constructor.
      * split; [exact Hfresh|].
        rewrite (extends_total h1 h' p Hext)
          by (unfold h1; rewrite lookup_insert_eq; eauto).
        unfold h1. apply lookup_total_insert_eq.
      * apply Forall2_same_length_lookup. split.
        { eapply Forall2_length; eauto. }
        intros k old new Hold Hk.
        destruct (Forall2_lookup_l _ _ _ _ _ Hall Hold)
          as (new' & Hk' & Hnone & Hnew).
        assert (new' = new) as -> by congruence.
        assert (Hne : new <> p).
        { intros ->. unfold h1 in Hnone. rewrite lookup_insert_eq in Hnone.
          discriminate. }
        assert (Hold' : old <> p).
        { intros ->. destruct (Hin p) as [x Hx]; [|congruence].
          apply list_elem_of_further. eapply list_elem_of_lookup_2; eauto. }
        split.
        -- unfold h1 in Hnone. now rewrite lookup_insert_ne in Hnone.
        -- rewrite Hnew. f_equal. unfold h1.
           now apply lookup_total_insert_ne.
Qed.

(** X14.  Step 1.3 makes a new list for every row, with the first ten
    fields of the old one; the new lists are distinct and the old ones
    are left as they were. *)
Theorem truncate_rows_first_ten (h : heap) (data : list loc) :
  (forall p, p ∈ data -> is_Some (h !! p)) ->
  exists rows h',
    truncate_rows data h = (Ok rows, h') /\
    NoDup rows /\
    Forall2 (fun old new =>
               h !! new = None /\ h' !!! new = take 10 (h !!! old))
      data rows /\
    (forall q, is_Some (h !! q) -> h' !! q = h !! q).
Proof.
  intros Hin.
  destruct (truncate_loop_run data h [] Hin)
    as (rows & h' & Hrun & Hext & Hnd & Hall).
  exists rows, h'. unfold truncate_rows. rewrite Hrun. auto.
Qed.

Lemma truncate_rows_first_ten_witness :
  exists rows h',
    truncate_rows (0%nat :: roster_players) roster = (Ok rows, h') /\
    NoDup rows /\
    Forall2 (fun old new =>
               roster !! new = None /\ h' !!! new = take 10 (roster !!! old))
      (0%nat :: roster_players) rows /\
    (forall q, is_Some (roster !! q) -> h' !! q = roster !! q).
Proof.
  exact (truncate_rows_first_ten roster (0%nat :: roster_players) roster_rows).
Defined.

(** A loop whose body replaces the list at its row by a function of it. *)
Lemma for_each_update (F : loc -> list value -> list value)
  (good : loc -> list value -> Prop) (body : unit -> loc -> M unit) :
  (forall p h, good p (h !!! p) ->
               body tt p h = (Ok tt, <[p := F p (h !!! p)]> h)) ->
  forall (players : list loc) (h : heap),
    NoDup players ->
    (forall p, p ∈ players -> good p (h !!! p)) ->
    exists h',
      for_each players body tt h = (Ok tt, h') /\
      (forall p, p ∈ players -> h' !!! p = F p (h !!! p)) /\
      (forall q, q ∉ players -> h' !! q = h !! q).
Proof.
  intros Hbody. induction players as [|p players IH]; intros h Hnd Hgood.
  - exists h. split; [reflexivity|]. split; [|reflexivity].
    intros p Hp. inversion Hp.
  - apply NoDup_cons in Hnd as [Hp Hnd].
    destruct (IH (<[p := F p (h !!! p)]> h) Hnd)
      as (h' & Hrun & Hrows & Hframe).
    { intros q Hq. rewrite lookup_total_insert_ne by (intros ->; contradiction).
      apply Hgood. now apply list_elem_of_further. }
    exists h'. split; [|split].
    + cbn [for_each].
      rewrite (bind_ok _ _ _ _ _ (Hbody p h (Hgood p (list_elem_of_here _ _)))).
      exact Hrun.
    + intros q Hq. apply elem_of_cons in Hq as [->|Hq].
      * rewrite lookup_total_alt, (Hframe p Hp), lookup_insert_eq. reflexivity.
      * rewrite (Hrows q Hq).
        now rewrite lookup_total_insert_ne by (intros ->; contradiction).
    + intros q Hq. apply not_elem_of_cons in Hq as [Hne Hq].
      rewrite (Hframe q Hq). now apply lookup_insert_ne.
Qed.

Lemma normalize_player_ok (j n : nat) (p : loc) (h : heap)
  (position raw : string) :
  j <> n ->
  (h !!! p) !! j = Some (VStr position) ->
  (h !!! p) !! n = Some (VStr raw) ->
  normalize_player (Z.of_nat j) (Z.of_nat n) tt p h
  = (Ok tt, <[p := normalized_row j n position raw (h !!! p)]> h).
Proof.
  intros Hne Hj Hn. unfold normalize_player, normalized_row.
  set (row := h !!! p) in *.
  set (row1 := <[j := VStr (format_player_position position)]> row).
  assert (Hn1 : row1 !! n = Some (VStr raw))
    by (unfold row1; now rewrite list_lookup_insert_ne).
  assert (Hlen : (n < length row1)%nat) by (eapply lookup_lt_Some; eauto).
  rewrite (bind_ok _ _ h h (VStr position))
    by (rewrite getitem_run; fold row;
        now rewrite (list_getitem_nat _ _ _ Hj)).
  rewrite (bind_ok _ _ h h position) by reflexivity.
  rewrite (bind_ok _ _ h (<[p := row1]> h) tt).
  2:{ rewrite setitem_run. fold row.
      rewrite list_setitem_nat by (eapply lookup_lt_Some; eauto).
      reflexivity. }
  rewrite (bind_ok _ _ (<[p := row1]> h) (<[p := row1]> h) (VStr raw))
    by (rewrite getitem_run, lookup_total_insert_eq;
        now rewrite (list_getitem_nat _ _ _ Hn1)).
  rewrite (bind_ok _ _ (<[p := row1]> h) (<[p := row1]> h) raw)
    by reflexivity.
  destruct (clean_squad raw) as [code squad]. cbn [fst snd].
  rewrite (bind_ok _ _ (<[p := row1]> h)
             (<[p := take n row1 ++ VStr code :: drop n row1]> h) tt).
  2:{ unfold insert_at, bind, load, store.
      rewrite lookup_total_insert_eq, insert_insert_eq.
      now rewrite list_insert_at_nat by lia. }
  rewrite setitem_run, lookup_total_insert_eq.
  replace (Z.of_nat n + 1) with (Z.of_nat (S n)) by lia.
  rewrite list_setitem_nat
    by (rewrite length_app, length_take; cbn [length];
        rewrite length_drop; lia).
  rewrite insert_insert_eq. do 2 f_equal.
  rewrite insert_app_r_alt by (rewrite length_take; lia).
  rewrite length_take, Nat.min_l by lia.
  replace (S n - n)%nat with 1%nat by lia.
  now rewrite (drop_S _ _ _ Hn1).
Qed.

(** X15.  Steps 3.1-3.4 on a table with string positions and squads:
    they succeed and return the two indices; every player row gets its
    position reformatted and its squad field split into the code and the
    name, the header gets the new column name at the same place, and
    every other list of the store stays as it was. *)
Theorem normalize_contents (h : heap) (headers : loc) (players : list loc)
  (j n : nat) (position raw : loc -> string) :
  NoDup (headers :: players) ->
  list_index (h !!! headers) "Pos" = Ok (Z.of_nat j) ->
  list_index (h !!! headers) "Squad" = Ok (Z.of_nat n) ->
  (forall p, p ∈ players ->
     (h !!! p) !! j = Some (VStr (position p)) /\
     (h !!! p) !! n = Some (VStr (raw p))) ->
  exists h',
    normalize headers players h = (Ok (Z.of_nat j, Z.of_nat n + 1), h') /\
    h' !!! headers
    = take n (h !!! headers) ++ VStr "Country_Code" :: drop n (h !!! headers)
    /\
    (forall p, p ∈ players ->
       h' !!! p = normalized_row j n (position p) (raw p) (h !!! p)) /\
    (forall q, q ∉ headers :: players -> h' !! q = h !! q).
Proof.
  intros Hnd Hpos Hsq Hrows. apply NoDup_cons in Hnd as [Hhd Hnd].
  destruct (list_index_inv _ _ _ Hpos) as (j' & Hj' & Hjh).
  destruct (list_index_inv _ _ _ Hsq) as (n' & Hn' & Hnh).
  apply Nat2Z.inj in Hj', Hn'. subst j' n'.
  assert (Hne : j <> n) by (intros ->; congruence).
  destruct (for_each_update
              (fun p => normalized_row j n (position p) (raw p))
              (fun p row => row !! j = Some (VStr (position p)) /\
                            row !! n = Some (VStr (raw p)))
              (normalize_player (Z.of_nat j) (Z.of_nat n)))
    with (players := players) (h := h)
    as (h1 & Hloop & Hnew & Hframe); [|exact Hnd|exact Hrows|].
  { intros p h0 [Hp1 Hp2]. now apply normalize_player_ok. }
  assert (Hsame : h1 !!! headers = h !!! headers)
    by (rewrite !lookup_total_alt; now rewrite (Hframe headers Hhd)).
  exists (<[headers := take n (h !!! headers)
                         ++ VStr "Country_Code" :: drop n (h !!! headers)]> h1).
  split; [|split; [|split]].
  - unfold normalize.
    rewrite (bind_ok _ _ h h (h !!! headers)) by reflexivity.
    rewrite (bind_ok _ _ h h (Z.of_nat j)) by (unfold lift; now rewrite Hpos).
    rewrite (bind_ok _ _ h h (Z.of_nat n)) by (unfold lift; now rewrite Hsq).
    rewrite (bind_ok _ _ _ _ _ Hloop).
    unfold insert_at, bind, load, store, ret. rewrite Hsame.
    rewrite list_insert_at_nat; [reflexivity|].
    apply lookup_lt_Some in Hnh. lia.
  - apply lookup_total_insert_eq.
  - intros p Hp. rewrite lookup_total_insert_ne by (intros ->; contradiction).
    now apply Hnew.
  - intros q Hq. apply not_elem_of_cons in Hq as [Hq1 Hq2].
    rewrite lookup_insert_ne by congruence. now apply Hframe.
Qed.

Lemma normalize_contents_witness :
  exists h',
    normalize 0%nat roster_players roster = (Ok (2, 3 + 1), h') /\
    h' !!! 0%nat
    = take 3 (roster !!! 0%nat)
        ++ VStr "Country_Code" :: drop 3 (roster !!! 0%nat) /\
    (forall p, p ∈ roster_players ->
       h' !!! p = normalized_row 2 3 (roster_raw_field 2 p)
                    (roster_raw_field 3 p) (roster !!! p)) /\
    (forall q, q ∉ 0%nat :: roster_players -> h' !! q = roster !! q).
Proof.
  apply (normalize_contents roster 0%nat roster_players 2 3
           (roster_raw_field 2) (roster_raw_field 3) roster_NoDup).
  - reflexivity.
  - reflexivity.
  - intros p Hp. unfold roster_players in Hp.
    repeat (apply elem_of_cons in Hp as [->|Hp]; [split; reflexivity|]).
    inversion Hp.
Defined.

(** A loop whose body changes the list at its row and no other list of
    the store. *)
Lemma for_each_rows_inv (R : loc -> list value -> list value -> Prop)
  (body : unit -> loc -> M unit) :
  (forall p h h' u,
     is_Some (h !! p) -> body tt p h = (Ok u, h') ->
     R p (h !!! p) (h' !!! p) /\
     (forall q, q <> p -> is_Some (h !! q) -> h' !! q = h !! q) /\
     (forall q, is_Some (h !! q) -> is_Some (h' !! q))) ->
  forall (players : list loc) (h h' : heap) (u : unit),
    NoDup players ->
    (forall p, p ∈ players -> is_Some (h !! p)) ->
    for_each players body tt h = (Ok u, h') ->
    (forall p, p ∈ players -> R p (h !!! p) (h' !!! p)) /\
    (forall q, q ∉ players -> is_Some (h !! q) -> h' !! q = h !! q) /\
    (forall q, is_Some (h !! q) -> is_Some (h' !! q)).
Proof.
  intros Hbody.
  induction players as [|p players IH]; intros h h' u Hnd Hin Hrun.
  - inversion Hrun; subst. split; [|split]; auto.
    intros p Hp. inversion Hp.
  - cbn [for_each] in Hrun.
    apply bind_inv in Hrun as ([] & h1 & Hrow & Hrun).
    apply NoDup_cons in Hnd as [Hp Hnd].
    assert (Hpin : is_Some (h !! p)) by (apply Hin; apply list_elem_of_here).
    destruct (Hbody _ _ _ _ Hpin Hrow) as (HR & Hframe1 & Hdom1).
    assert (Hin1 : forall q, q ∈ players -> is_Some (h1 !! q)).
    { intros q Hq. apply Hdom1, Hin. now apply list_elem_of_further. }
    destruct (IH _ _ _ Hnd Hin1 Hrun) as (Hrows & Hframe & Hdom).
    split; [|split].
    + intros q Hq. apply elem_of_cons in Hq as [->|Hq].
      * replace (h' !!! p) with (h1 !!! p); [exact HR|].
        rewrite !lookup_total_alt.
        now rewrite (Hframe p Hp (Hdom1 p Hpin)).
      * replace (h !!! q) with (h1 !!! q); [now apply Hrows|].
        rewrite !lookup_total_alt. rewrite Hframe1; [reflexivity| |].
        -- intros ->. contradiction.
        -- apply Hin. now apply list_elem_of_further.
    + intros q Hq Hsome. apply not_elem_of_cons in Hq as [Hne Hq].
      rewrite (Hframe q Hq (Hdom1 q Hsome)). now apply Hframe1.
    + intros q Hq. apply Hdom, Hdom1, Hq.
Qed.

(** One player of steps 10.2-4: the two floats appended are the rates of
    the numbers read off the row. *)
Lemma add_player_efficiency_rates (sl : slice) (p : loc) (h h' : heap)
  (u : unit) :
  is_Some (h !! p) ->
  add_player_efficiency sl tt p h = (Ok u, h') ->
  exists goals shots shots_on_target a b,
    player_numbers (h !!! p) sl = Ok (goals, shots, shots_on_target) /\
    calculate_shot_conversion_rate goals shots 3 = Ok a /\
    calculate_shot_conversion_rate goals shots_on_target 3 = Ok b /\
    h' !!! p = h !!! p ++ [VFloat a; VFloat b].
Proof.
  intros Hp H. unfold add_player_efficiency in H.
  rewrite <- bind_assoc in H.
  apply bind_inv in H as ([[goals shots] sot] & h1 & Ht & H).
  destruct (shooting_triple_run h p sl) as (h1' & Hrun & Hext).
  assert (Heq : (player_numbers (h !!! p) sl, h1')
                = (Ok (goals, shots, sot), h1))
    by (rewrite <- Hrun; exact Ht).
  inversion Heq as [[Hnums Hh]]. subst h1'. clear Ht Heq.
  apply bind_inv in H as (a & h2 & Ha & H).
  apply lift_inv in Ha as [Ha ->].
  apply bind_inv in H as ([] & h2 & Happ & H).
  unfold append, bind, load, store in Happ. inversion Happ; subst h2.
  clear Happ.
  apply bind_inv in H as (b & h2 & Hb & H).
  apply lift_inv in Hb as [Hb ->].
  unfold append, bind, load, store in H. inversion H; subst h'. clear H.
  exists goals, shots, sot, a, b. repeat split; try assumption.
  rewrite !lookup_total_insert_eq.
  rewrite (extends_total h h1 p Hext Hp). now rewrite <- app_assoc.
Qed.

(** X16.  When steps 10.2-5 succeed, the two floats appended to a player
    row are the conversion rates, to three places, of the goals over the
    shots and of the goals over the shots on target read off that row. *)
Theorem add_efficiency_rates (h h' : heap) (headers : loc)
  (players : list loc) (sl : slice) (u : unit) :
  NoDup (headers :: players) ->
  (forall p, p ∈ headers :: players -> is_Some (h !! p)) ->
  add_efficiency headers players sl h = (Ok u, h') ->
  forall p, p ∈ players ->
    exists goals shots shots_on_target a b,
      player_numbers (h !!! p) sl = Ok (goals, shots, shots_on_target) /\
      calculate_shot_conversion_rate goals shots 3 = Ok a /\
      calculate_shot_conversion_rate goals shots_on_target 3 = Ok b /\
      h' !!! p = h !!! p ++ [VFloat a; VFloat b].
Proof.
  intros Hnd Hin H. apply NoDup_cons in Hnd as [Hhd Hnd].
  unfold add_efficiency in H.
  apply bind_inv in H as ([] & h1 & Hloop & H).
  assert (Hin' : forall p, p ∈ players -> is_Some (h !! p)).
  { intros p Hp. apply Hin. now apply list_elem_of_further. }
  destruct (for_each_rows_inv
              (fun p row row' =>
                 exists goals shots shots_on_target a b,
                   player_numbers row sl = Ok (goals, shots, shots_on_target)
                   /\ calculate_shot_conversion_rate goals shots 3 = Ok a
                   /\ calculate_shot_conversion_rate goals shots_on_target 3
                      = Ok b
                   /\ row' = row ++ [VFloat a; VFloat b])
              (add_player_efficiency sl))
    with (players := players) (h := h) (h' := h1) (u := tt)
    as (Hrows & _ & _); [|exact Hnd|exact Hin'|exact Hloop|].
  { intros p h0 h0' u0 Hp Hrun. split.
    - eapply add_player_efficiency_rates; eauto.
    - eapply add_player_efficiency_run; eauto. }
  unfold extend, bind, load, store in H. inversion H; subst h'. clear H.
  intros p Hp. rewrite lookup_total_insert_ne by (intros ->; contradiction).
  now apply Hrows.
Qed.

Lemma roster_normalized_rows (p : loc) :
  p ∈ 0%nat :: roster_players -> is_Some (roster_normalized !! p).
Proof.
  intros Hp. unfold roster_players in Hp.
  repeat (apply elem_of_cons in Hp as [->|Hp];
          [vm_compute; eexists; reflexivity|]).
  inversion Hp.
Qed.

Lemma add_efficiency_rates_witness :
  exists goals shots shots_on_target a b,
    player_numbers (roster_normalized !!! 3%nat) (mk_slice (Some 8) (Some 11))
    = Ok (goals, shots, shots_on_target) /\
    calculate_shot_conversion_rate goals shots 3 = Ok a /\
    calculate_shot_conversion_rate goals shots_on_target 3 = Ok b /\
    snd (add_efficiency 0%nat roster_players (mk_slice (Some 8) (Some 11))
           roster_normalized) !!! 3%nat
    = roster_normalized !!! 3%nat ++ [VFloat a; VFloat b].
Proof.
  apply (add_efficiency_rates roster_normalized _ 0%nat roster_players
           (mk_slice (Some 8) (Some 11)) tt roster_NoDup
           roster_normalized_rows).
  - vm_compute. reflexivity.
  - do 2 apply list_elem_of_further. apply list_elem_of_here.
Defined.

(** ** Team metrics *)

Lemma extends_None (h h' : heap) (x : loc) :
  extends h h' -> h' !! x = None -> h !! x = None.
Proof.
  intros Hext Hx. destruct (h !! x) as [l|] eqn:Hl; [|reflexivity].
  rewrite (Hext x) in Hx by (rewrite Hl; eauto). congruence.
Qed.

Lemma get_team_step (i : Z) (squad : string) (acc : list loc) (p : loc)
  (h : heap) :
  (v <- getitem p i ;;
   name <- lift (str_lower v) ;;
   if String.eqb name (lower squad) then ret (acc ++ [p]) else ret acc) h
  = (rbind (rbind (list_getitem (h !!! p) i) str_lower)
       (fun name =>
          Ok (if String.eqb name (lower squad) then acc ++ [p] else acc)),
     h).
Proof.
  destruct (list_getitem (h !!! p) i) as [v|e] eqn:Hv.
  - rewrite (bind_ok _ _ h h v) by (rewrite getitem_run, Hv; reflexivity).
    cbn [rbind]. destruct (str_lower v) as [name|e] eqn:Hn.
    + rewrite (bind_ok _ _ h h name) by reflexivity.
      cbn [rbind]. destruct (String.eqb name (lower squad)); reflexivity.
    + rewrite (bind_raise _ _ h h e) by reflexivity.
      reflexivity.
  - rewrite (bind_raise _ _ h h e) by (rewrite getitem_run, Hv; reflexivity).
    reflexivity.
Qed.

(** The team depends on the player rows only. *)
Lemma get_team_ext (players : list loc) (i : Z) (squad : string)
  (h h' : heap) :
  (forall p, p ∈ players -> h' !!! p = h !!! p) ->
  fst (get_team players i squad h') = fst (get_team players i squad h).
Proof.
  unfold get_team. intros Hsame.
  enough (Hloop : forall acc,
             fst (for_each players
                    (fun team_players player =>
                       v <- getitem player i ;;
                       name <- lift (str_lower v) ;;
                       if String.eqb name (lower squad)
                       then ret (team_players ++ [player])
                       else ret team_players)
                    acc h')
             = fst (for_each players
                      (fun team_players player =>
                         v <- getitem player i ;;
                         name <- lift (str_lower v) ;;
                         if String.eqb name (lower squad)
                         then ret (team_players ++ [player])
                         else ret team_players)
                      acc h))
    by apply Hloop.
  revert Hsame.
  induction players as [|p players IH]; intros Hsame acc; [reflexivity|].
  cbn [for_each].
  pose proof (get_team_step i squad acc p h) as Hs.
  pose proof (get_team_step i squad acc p h') as Hs'.
  rewrite (Hsame p (list_elem_of_here _ _)) in Hs'.
  destruct (rbind (rbind (list_getitem (h !!! p) i) str_lower) _)
    as [acc'|e].
  - erewrite (bind_ok _ _ h'); [|exact Hs'].
    erewrite (bind_ok _ _ h); [|exact Hs].
    apply IH. intros q Hq. apply Hsame. now apply list_elem_of_further.
  - erewrite (bind_raise _ _ h'); [|exact Hs'].
    erewrite (bind_raise _ _ h); [|exact Hs]. reflexivity.
Qed.

Lemma get_team_fst (players : list loc) (i : Z) (squad : string) (h : heap)
  (team : list loc) :
  fst (get_team players i squad h) = Ok team ->
  get_team players i squad h = (Ok team, h).
Proof.
  destruct (get_team players i squad h) as [r h'] eqn:Hrun.
  apply get_team_read_only in Hrun as ->. cbn [fst]. now intros ->.
Qed.

(** The totals depend on the rows of the team only. *)
Lemma team_totals_ext (team : list loc) (sl : slice) (h h' : heap) :
  (forall p, p ∈ team -> is_Some (h !! p)) ->
  extends h h' ->
  fst (get_team_shooting_numbers team sl h')
  = fst (get_team_shooting_numbers team sl h).
Proof.
  intros Hin Hext.
  rewrite (team_totals_run h team sl Hin).
  rewrite (team_totals_run h' team sl)
    by (intros p Hp; eapply extends_is_Some; eauto).
  rewrite (mapM_ext _ (fun p => player_numbers (h !!! p) sl));
    [reflexivity|].
  intros p Hp. now rewrite (extends_total h h' p Hext (Hin p Hp)).
Qed.

(** Steps 11.3-7, one country. *)
Lemma team_metrics_run (players : list loc) (squad_idx : Z) (sl : slice)
  (acc teams : list loc) (country : value) (h h' : heap) :
  (forall p, p ∈ players -> is_Some (h !! p)) ->
  team_metrics players squad_idx sl acc country h = (Ok teams, h') ->
  exists x,
    teams = acc ++ [x] /\ is_Some (h' !! x) /\ extends h h' /\
    team_entry players squad_idx sl h h' country x.
Proof.
  intros Hin H. unfold team_metrics in H.
  apply bind_inv in H as (squad & h1 & Hsq & H).
  apply lift_inv in Hsq as [Hsq ->].
  destruct country as [c| |]; try discriminate Hsq.
  cbn in Hsq. inversion Hsq; subst squad. clear Hsq.
  apply bind_inv in H as (team & h1 & Hteam & H).
  pose proof (get_team_read_only _ _ _ _ _ _ Hteam) as ->.
  pose proof (get_team_members _ _ _ _ _ _ Hteam) as Hsub.
  apply bind_inv in H as ([[goals shots] sot] & h2 & Htot & H).
  assert (Hext : extends h h2).
  { destruct (team_loop sl team h (0, 0, 0)) as (h2' & Hrun & Hext).
    - intros p Hp. apply Hin, Hsub, Hp.
    - unfold get_team_shooting_numbers in Htot. rewrite Hrun in Htot.
      inversion Htot; subst. exact Hext. }
  apply bind_inv in H as (a & h3 & Ha & H).
  apply lift_inv in Ha as [Ha ->].
  apply bind_inv in H as (b & h3 & Hb & H).
  apply lift_inv in Hb as [Hb ->].
  apply bind_inv in H as (x & h3 & Hx & H).
  unfold alloc in Hx. inversion Hx; subst x h3. clear Hx.
  unfold ret in H. inversion H; subst teams h'. clear H.
  assert (Hfresh : h2 !! fresh (dom h2) = None)
    by (apply not_elem_of_dom, is_fresh).
  exists (fresh (dom h2)). split; [reflexivity|]. split; [|split; [|split]].
  - rewrite lookup_insert_eq. eauto.
  - eapply extends_trans; [exact Hext|apply extends_fresh].
  - eapply extends_None; eauto.
  - exists c, team, goals, shots, sot, a, b.
    split; [reflexivity|]. split; [now rewrite Hteam|].
    split; [now rewrite Htot|]. split; [exact Ha|]. split; [exact Hb|].
    apply lookup_total_insert_eq.
Qed.

Lemma team_entry_ext (players : list loc) (squad_idx : Z) (sl : slice)
  (h h1 h' : heap) (country : value) (x : loc) :
  (forall p, p ∈ players -> is_Some (h !! p)) ->
  extends h h1 ->
  team_entry players squad_idx sl h1 h' country x ->
  team_entry players squad_idx sl h h' country x.
Proof.
  intros Hin Hext (Hnew & c & team & g & s & t & a & b
                   & Hc & Hteam & Htot & Ha & Hb & Hrow).
  split; [eapply extends_None; eauto|].
  assert (Hteam' : fst (get_team players squad_idx c h) = Ok team).
  { rewrite <- Hteam. symmetry. apply get_team_ext.
    intros p Hp. apply extends_total; auto. }
  exists c, team, g, s, t, a, b. repeat split; try assumption.
  rewrite <- Htot. symmetry. apply team_totals_ext; [|exact Hext].
  intros p Hp. apply Hin.
  eapply get_team_members; [apply get_team_fst; exact Hteam'|exact Hp].
Qed.

Lemma build_loop (players : list loc) (squad_idx : Z) (sl : slice)
  (countries : list value) :
  forall (h h' : heap) (acc teams : list loc),
    (forall p, p ∈ players -> is_Some (h !! p)) ->
    for_each countries (team_metrics players squad_idx sl) acc h
    = (Ok teams, h') ->
    exists news,
      teams = acc ++ news /\ NoDup news /\ extends h h' /\
      Forall2 (team_entry players squad_idx sl h h') countries news.
Proof.
  induction countries as [|country countries IH];
    intros h h' acc teams Hin Hrun.
  - inversion Hrun; subst. exists []. rewrite app_nil_r.
    split; [reflexivity|]. split; [constructor|].
    split; [apply extends_refl|constructor].
  - cbn [for_each] in Hrun.
    apply bind_inv in Hrun as (acc1 & h1 & Hstep & Hrun).
    apply team_metrics_run in Hstep as (x & -> & Hx & Hext1 & Hentry);
      [|exact Hin].
    apply IH in Hrun as (news & -> & Hnd & Hext & Hall).
    2:{ intros p Hp. eapply extends_is_Some; eauto. }
    exists (x :: news). split; [now rewrite <- app_assoc|].
    split; [|split].
    + apply NoDup_cons. split; [|exact Hnd]. intros Hin'.
      apply list_elem_of_lookup in Hin' as [k Hk].
      destruct (Forall2_lookup_r _ _ _ _ _ Hall Hk) as (c & _ & Hnone & _).
      destruct Hx as [l Hl]. congruence.
    + eapply extends_trans; eauto.
    + constructor.
      * destruct Hentry as (Hnew & c & team & g & s & t & a & b
                            & Hc & Hteam & Htot & Ha & Hb & Hrow).
        split; [exact Hnew|].
        exists c, team, g, s, t, a, b. repeat split; try assumption.
        now rewrite (extends_total h1 h' x Hext Hx).
      * eapply Forall2_impl; [exact Hall|]. intros c y Hy.
        eapply team_entry_ext; eauto.
Qed.

(** X17.  When steps 11.3-7 succeed there is one new list for every name
    that [get_team_names] returns, in the same order; it holds the name,
    the totals of the team of that name and the two rates of the totals,
    all as computed on the store before the step, whose lists are left
    as they were. *)
Theorem build_teams_rows (h h' : heap) (players : list loc) (squad_idx : Z)
  (sl : slice) (teams : list loc) :
  (forall p, p ∈ players -> is_Some (h !! p)) ->
  build_teams players squad_idx sl h = (Ok teams, h') ->
  exists countries,
    get_team_names players squad_idx h = (Ok countries, h) /\
    Forall2 (team_entry players squad_idx sl h h') countries teams /\
    NoDup teams /\
    (forall q, is_Some (h !! q) -> h' !! q = h !! q).
Proof.
  intros Hin H. unfold build_teams in H.
  apply bind_inv in H as (countries & h1 & Hnames & H).
  pose proof (get_team_names_read_only _ _ _ _ _ Hnames) as ->.
  apply build_loop in H as (news & -> & Hnd & Hext & Hall); [|exact Hin].
  exists countries. cbn [app]. auto.
Qed.

Lemma roster_normalized_players (p : loc) :
  p ∈ roster_players -> is_Some (roster_normalized !! p).
Proof. intros Hp. apply roster_normalized_rows. now apply list_elem_of_further. Qed.

Lemma build_teams_rows_witness :
  exists countries,
    get_team_names roster_players 4 roster_normalized
    = (Ok countries, roster_normalized) /\
    Forall2 (team_entry roster_players 4 (mk_slice (Some 8) (Some 11))
               roster_normalized roster_teams)
      countries [9; 12]%nat /\
    NoDup [9; 12]%nat /\
    (forall q, is_Some (roster_normalized !! q) ->
               roster_teams !! q = roster_normalized !! q).
Proof.
  apply (build_teams_rows roster_normalized roster_teams roster_players 4
           (mk_slice (Some 8) (Some 11)) [9; 12]%nat
           roster_normalized_players).
  vm_compute. reflexivity.
Defined.

(** ** Rating and ranking the team rows *)

(** Step 12.1-2 on distinct rows that end with a float. *)
Lemma rate_teams_run (rate : loc -> float) (teams : list loc) (h : heap) :
  NoDup teams ->
  (forall x, x ∈ teams ->
             list_getitem (h !!! x) (-1) = Ok (VFloat (rate x))) ->
  exists h',
    rate_teams teams h = (Ok tt, h') /\
    (forall x, x ∈ teams ->
       h' !!! x = h !!! x ++ [VStr (efficiency_rating (rate x))]) /\
    (forall q, q ∉ teams -> h' !! q = h !! q).
Proof.
  intros Hnd Hlast. unfold rate_teams.
  apply (for_each_update
           (fun x row => row ++ [VStr (efficiency_rating (rate x))])
           (fun x row => list_getitem row (-1) = Ok (VFloat (rate x))));
    [|exact Hnd|exact Hlast].
  intros x h0 Hx.
  rewrite (bind_ok _ _ h0 h0 (VFloat (rate x)))
    by (rewrite getitem_run, Hx; reflexivity).
  rewrite (bind_ok _ _ h0 h0 (rate x)) by reflexivity.
  reflexivity.
Qed.

(** X18.  When steps 11.3-7 succeed, so do steps 12.1-2 and 12.4: every
    team row gets the rating of its on-target rate as a seventh field,
    one more than the six team headers; it is then a row as the ranking
    expects, with a rate that is not a NaN second from the end and the
    name first; and the ranking returns the teams in some order and
    changes no list. *)
Theorem teams_rated_and_ranked (h h1 : heap) (players : list loc)
  (squad_idx : Z) (sl : slice) (teams : list loc) :
  (forall p, p ∈ players -> is_Some (h !! p)) ->
  build_teams players squad_idx sl h = (Ok teams, h1) ->
  exists h2 ranked,
    rate_teams teams h1 = (Ok tt, h2) /\
    (forall x, x ∈ teams ->
       exists row r name,
         h1 !!! x = row ++ [VFloat r] /\
         h2 !!! x = row ++ [VFloat r; VStr (efficiency_rating r)] /\
         length (h2 !!! x) = S (length team_headers) /\
         team_row h2 x r name) /\
    (forall q, q ∉ teams -> h2 !! q = h1 !! q) /\
    rank_teams teams h2 = (Ok ranked, h2) /\
    ranked ≡ₚ teams.
Proof.
  intros Hin H. unfold build_teams in H.
  apply bind_inv in H as (countries & h0 & Hnames & H).
  pose proof (get_team_names_read_only _ _ _ _ _ Hnames) as ->.
  apply build_loop in H as (news & -> & Hnd & Hext & Hall); [|exact Hin].
  cbn [app].
  set (rate := fun x : loc =>
                 match list_getitem (h1 !!! x) (-1) with
                 | Ok (VFloat f) => f
                 | _ => zero
                 end).
  set (name := fun x : loc =>
                 match list_getitem (h1 !!! x) 0 with
                 | Ok (VStr s) => s
                 | _ => EmptyString
                 end).
  assert (Hshape : forall x, x ∈ news ->
            exists g s t a,
              h1 !!! x = [VStr (name x); VInt g; VInt s; VInt t; VFloat a;
                          VFloat (rate x)] /\
              is_nan (rate x) = false).
  { intros x Hx. apply list_elem_of_lookup in Hx as [k Hk].
    destruct (Forall2_lookup_r _ _ _ _ _ Hall Hk)
      as (country & _ & _ & c & team & g & s & t & a & b
          & -> & _ & _ & _ & Hb & Hrow).
    exists g, s, t, a. unfold rate, name. rewrite Hrow. cbn.
    split; [reflexivity|]. eapply conversion_rate_not_nan; eauto. }
  destruct (rate_teams_run rate news h1 Hnd) as (h2 & Hrate & Hrows & Hframe).
  { intros x Hx. destruct (Hshape x Hx) as (g & s & t & a & -> & _).
    reflexivity. }
  assert (Hteam : forall x, x ∈ news -> team_row h2 x (rate x) (name x)).
  { intros x Hx. destruct (Hshape x Hx) as (g & s & t & a & Hrow & Hnan).
    unfold team_row. rewrite (Hrows x Hx), Hrow. cbn. auto. }
  exists h2, (snd <$> insertion_sort pair_cmp (keyed rate name <$> news)).
  split; [exact Hrate|]. split; [|split; [exact Hframe|split]].
  - intros x Hx. destruct (Hshape x Hx) as (g & s & t & a & Hrow & Hnan).
    exists [VStr (name x); VInt g; VInt s; VInt t; VFloat a], (rate x),
      (name x).
    split; [now rewrite Hrow|]. split; [now rewrite (Hrows x Hx), Hrow|].
    split; [now rewrite (Hrows x Hx), Hrow|]. now apply Hteam.
  - now apply rank_teams_run.
  - rewrite insertion_sort_Permutation, <- list_fmap_compose.
    rewrite (list_fmap_ext _ id) by reflexivity. now rewrite list_fmap_id.
Qed.

Lemma teams_rated_and_ranked_witness :
  exists h2 ranked,
    rate_teams [9; 12]%nat roster_teams = (Ok tt, h2) /\
    (forall x, x ∈ [9; 12]%nat ->
       exists row r name,
         roster_teams !!! x = row ++ [VFloat r] /\
         h2 !!! x = row ++ [VFloat r; VStr (efficiency_rating r)] /\
         length (h2 !!! x) = S (length team_headers) /\
         team_row h2 x r name) /\
    (forall q, q ∉ [9; 12]%nat -> h2 !! q = roster_teams !! q) /\
    rank_teams [9; 12]%nat h2 = (Ok ranked, h2) /\
    ranked ≡ₚ [9; 12]%nat.
Proof.
  apply (teams_rated_and_ranked roster_normalized roster_teams roster_players
           4 (mk_slice (Some 8) (Some 11)) [9; 12]%nat
           roster_normalized_players).
  vm_compute. reflexivity.
Defined.

(** ** The teams partition the players *)

Lemma concat_insert_key {A K} `{EqDecision K} (x : A) (k0 : K)
  (g : K -> list A) (keys : list K) :
  NoDup keys ->
  concat ((fun k => if decide (k0 = k) then x :: g k else g k) <$> keys)
  ≡ₚ (if decide (k0 ∈ keys) then [x] else []) ++ concat (g <$> keys).
Proof.
  induction 1 as [|k ks Hk Hnd IH].
  - destruct (decide (k0 ∈ [])) as [Hin|_]; [inversion Hin|reflexivity].
  - rewrite !fmap_cons. cbn [concat]. rewrite IH.
    destruct (decide (k0 = k)) as [->|Hne].
    + destruct (decide (k ∈ ks)) as [Hin|_]; [contradiction|].
      destruct (decide (k ∈ k :: ks)) as [_|Hnin]; [reflexivity|].
      exfalso. apply Hnin, list_elem_of_here.
    + destruct (decide (k0 ∈ ks)) as [Hin|Hnin];
        destruct (decide (k0 ∈ k :: ks)) as [Hin'|Hnin'].
      * cbn [app]. symmetry. apply Permutation_middle.
      * exfalso. apply Hnin'. now apply list_elem_of_further.
      * exfalso. apply elem_of_cons in Hin' as [Heq|Hin']; contradiction.
      * reflexivity.
Qed.

(** Grouping a list by a key, over keys without duplicates that cover
    it, loses and repeats no element. *)
Lemma partition_by_key {A K} `{EqDecision K} (f : A -> K) (keys : list K)
  (l : list A) :
  NoDup keys -> (forall x, x ∈ l -> f x ∈ keys) ->
  concat ((fun k => filter (fun x => f x = k) l) <$> keys) ≡ₚ l.
Proof.
  intros Hnd. induction l as [|x l IH]; intros Hin.
  - clear. induction keys as [|k ks IH]; [reflexivity|].
    rewrite fmap_cons. cbn [concat]. exact IH.
  - rewrite (list_fmap_ext _
               (fun k => if decide (f x = k)
                         then x :: filter (fun y => f y = k) l
                         else filter (fun y => f y = k) l))
      by reflexivity.
    rewrite (concat_insert_key x (f x)
               (fun k => filter (fun y => f y = k) l) keys Hnd).
    destruct (decide (f x ∈ keys)) as [_|Hn].
    + cbn [app]. constructor. apply IH. intros y Hy. apply Hin.
      now apply list_elem_of_further.
    + exfalso. apply Hn, Hin, list_elem_of_here.
Qed.

Lemma filter_ext_in {A} (P Q : A -> Prop)
  `{!forall x, Decision (P x), !forall x, Decision (Q x)} (l : list A) :
  (forall x, x ∈ l -> P x <-> Q x) -> filter P l = filter Q l.
Proof.
  induction l as [|x l IH]; intros Hext; [reflexivity|].
  rewrite !filter_cons.
  rewrite IH by (intros y Hy; apply Hext; now apply list_elem_of_further).
  pose proof (Hext x (list_elem_of_here _ _)) as Hx.
  destruct (decide (P x)), (decide (Q x)); try reflexivity; tauto.
Qed.

Lemma mapM_app {A B} (f : A -> result B) (l1 l2 : list A)
  (ys1 ys2 : list B) :
  mapM f l1 = Ok ys1 -> mapM f l2 = Ok ys2 ->
  mapM f (l1 ++ l2) = Ok (ys1 ++ ys2).
Proof.
  intros H1 H2. apply mapM_Forall2 in H1, H2. apply mapM_Forall2.
  now apply Forall2_app.
Qed.

Lemma sum3_app (a b : list (Z * Z * Z)) :
  sum3 (a ++ b) = add3 (sum3 a) (sum3 b).
Proof.
  induction a as [|x a IH].
  - change (sum3 b = add3 (0, 0, 0) (sum3 b)).
    now rewrite add3_comm, add3_0_r.
  - change (add3 x (sum3 (a ++ b)) = add3 (add3 x (sum3 a)) (sum3 b)).
    now rewrite IH, add3_assoc.
Qed.

(** The sum over the groups is the sum of the sums of the groups. *)
Lemma groups_sum {K} (pn : loc -> result (Z * Z * Z))
  (group : K -> list loc) (T : loc -> Z * Z * Z) (keys : list K)
  (teams : list loc) :
  Forall2 (fun c x => exists ts, mapM pn (group c) = Ok ts /\ T x = sum3 ts)
    keys teams ->
  exists tss,
    mapM pn (concat (group <$> keys)) = Ok tss /\
    sum3 tss = sum3 (T <$> teams).
Proof.
  induction 1 as [|c x keys teams (ts & Hts & HT) _ (tss & Htss & Hsum)].
  - exists []. split; reflexivity.
  - exists (ts ++ tss). rewrite !fmap_cons. cbn [concat]. split.
    + now apply mapM_app.
    + rewrite sum3_app, Hsum, <- HT. reflexivity.
Qed.

(** X19.  The team totals add up to the totals of all players: when the
    squad fields are strings and no two squad names differ by letter case
    only, and steps 11.3-7 succeed, the componentwise sum of the goals,
    shots and shots on target held by the team rows is what
    [get_team_shooting_numbers] returns on the whole list of players. *)
Theorem team_totals_partition (h h' : heap) (players : list loc)
  (squad_idx : Z) (sl : slice) (name : loc -> string) (teams : list loc) :
  (forall p, p ∈ players -> is_Some (h !! p)) ->
  (forall p, p ∈ players ->
             list_getitem (h !!! p) squad_idx = Ok (VStr (name p))) ->
  (forall p q, p ∈ players -> q ∈ players ->
               lower (name p) = lower (name q) -> name p = name q) ->
  build_teams players squad_idx sl h = (Ok teams, h') ->
  fst (get_team_shooting_numbers players sl h)
  = Ok (sum3 ((fun x => row_totals (h' !!! x)) <$> teams)).
Proof.
  intros Hin Hname Hcase H. unfold build_teams in H.
  rewrite (bind_ok _ _ _ _ _
             (get_team_names_fold h players squad_idx name Hname)) in H.
  pose proof (firsts_values name players []) as Hfirsts.
  change (VStr <$> []) with (@nil value) in Hfirsts.
  rewrite Hfirsts in H. clear Hfirsts.
  destruct (firsts_spec (name <$> players) [] []) as (Hnd & Hmem & _);
    [constructor|reflexivity|intros i j n m Hi; discriminate Hi|].
  cbn [app] in Hmem.
  set (names := firsts [] (name <$> players)) in *.
  apply build_loop in H as (news & -> & _ & _ & Hall); [|exact Hin].
  cbn [app].
  assert (Hgroups :
            Forall2 (fun c x =>
                       exists ts,
                         mapM (fun p => player_numbers (h !!! p) sl)
                           (filter (fun p => name p = c) players) = Ok ts /\
                         row_totals (h' !!! x) = sum3 ts)
              names news).
  { apply Forall2_same_length_lookup. split.
    - apply Forall2_length in Hall. now rewrite length_fmap in Hall.
    - intros i c x Hc Hx.
      assert (Hc' : (VStr <$> names) !! i = Some (VStr c))
        by (rewrite list_lookup_fmap, Hc; reflexivity).
      destruct (Forall2_lookup_lr _ _ _ _ _ _ Hall Hc' Hx)
        as (_ & c0 & team & g & s & t & a & b
            & Hc0 & Hteam & Htot & _ & _ & Hrow).
      inversion Hc0; subst c0. clear Hc0.
      rewrite (get_team_fold h players squad_idx c name Hname) in Hteam.
      cbn [fst] in Hteam. rewrite foldl_filter in Hteam. cbn [app] in Hteam.
      inversion Hteam as [Hteam']. clear Hteam.
      assert (Heq : team = filter (fun p => name p = c) players).
      { rewrite <- Hteam'.
        assert (Hcin : c ∈ name <$> players)
          by (apply Hmem, list_elem_of_lookup; eauto).
        apply list_elem_of_fmap in Hcin as (q & Hcq & Hq).
        apply filter_ext_in. intros p Hp. rewrite String.eqb_eq. split.
        - intros Hl. rewrite Hcq. apply Hcase; [exact Hp|exact Hq|].
          now rewrite <- Hcq.
        - now intros ->. }
      rewrite Heq in Htot.
      rewrite team_totals_run in Htot.
      2:{ intros p Hp. apply list_elem_of_filter in Hp as [_ Hp].
          now apply Hin. }
      destruct (mapM _ (filter (fun p => name p = c) players))
        as [ts|e] eqn:Hts; [|discriminate Htot].
      exists ts. split; [reflexivity|]. rewrite Hrow. cbn [row_totals].
      congruence. }
  destruct (groups_sum _ _ (fun x => row_totals (h' !!! x)) names news
              Hgroups) as (tss & Htss & Hsum).
  assert (Hperm : concat ((fun c => filter (fun p => name p = c) players)
                            <$> names) ≡ₚ players).
  { apply partition_by_key; [exact Hnd|]. intros p Hp. apply Hmem.
    now apply list_elem_of_fmap_2. }
  destruct (mapM_Permutation _ _ _ tss Hperm Htss) as (ts' & Hts' & Hp').
  rewrite (team_totals_run h players sl Hin), Hts'.
  f_equal. rewrite <- Hsum. symmetry. now apply sum3_Permutation.
Qed.

Lemma team_totals_partition_witness :
  fst (get_team_shooting_numbers roster_players (mk_slice (Some 8) (Some 11))
         roster_normalized)
  = Ok (sum3 ((fun x => row_totals (roster_teams !!! x)) <$> [9; 12]%nat)).
Proof.
  apply (team_totals_partition roster_normalized roster_teams roster_players
           4 (mk_slice (Some 8) (Some 11)) (roster_field 4) [9; 12]%nat
           roster_normalized_players).
  - intros p Hp. apply roster_fields; [lia|exact Hp].
  - intros p q Hp Hq. unfold roster_players in Hp, Hq.
    repeat (apply elem_of_cons in Hp as [->|Hp];
            [repeat (apply elem_of_cons in Hq as [->|Hq];
                     [vm_compute; intros H;
                      first [reflexivity|discriminate H]|]);
             inversion Hq|]).
    inversion Hp.
  - vm_compute. reflexivity.
Defined.

(** ** The top scorers of every team *)

Lemma foldl_snoc_fmap {A B} (F : A -> B) (l : list A) :
  forall acc, foldl (fun acc x => acc ++ [F x]) acc l = acc ++ (F <$> l).
Proof.
  induction l as [|x l IH]; intros acc; cbn [foldl].
  - now rewrite app_nil_r.
  - rewrite IH, fmap_cons. now rewrite <- app_assoc.
Qed.

(** X20.  Steps 8.1-5 on string squads and integer goals: one entry per
    country, in order, each the players of that country, up to letter
    case, whose goals equal the best count of the country when that count
    is positive, and nobody otherwise; the store is not changed. *)
Theorem team_top_scorers_entries (h : heap) (players : list loc)
  (squad_idx gls_idx : Z) (countries : list string) (name : loc -> string)
  (g : loc -> Z) :
  (forall p, p ∈ players ->
             list_getitem (h !!! p) squad_idx = Ok (VStr (name p))) ->
  (forall p, p ∈ players -> fst (goals_of p gls_idx h) = Ok (g p)) ->
  team_top_scorers players squad_idx gls_idx countries h
  = (Ok ((fun c =>
            let team := filter (fun p => lower (name p) = lower c) players in
            filter (fun q => g q = best g team /\ 0 < best g team) team)
           <$> countries), h).
Proof.
  intros Hname Hg. unfold team_top_scorers.
  rewrite (for_each_pure
             (fun acc c =>
                acc ++ [let team := filter (fun p => lower (name p) = lower c)
                                      players in
                        filter (fun q => g q = best g team /\ 0 < best g team)
                          team])).
  - now rewrite foldl_snoc_fmap.
  - intros acc c _.
    assert (Hteam : get_team players squad_idx c h
                    = (Ok (filter (fun p => lower (name p) = lower c)
                             players), h)).
    { rewrite (get_team_fold h players squad_idx c name Hname).
      rewrite foldl_filter. cbn [app]. do 2 f_equal.
      apply list_filter_iff. intros p. apply String.eqb_eq. }
    rewrite (bind_ok _ _ _ _ _ Hteam).
    rewrite (bind_ok _ _ _ _ _
               (get_top_scorer_by h _ gls_idx g
                  (fun q Hq => Hg q (proj2 (proj1 (list_elem_of_filter _ _ _)
                                               Hq))))).
    reflexivity.
Qed.

Lemma team_top_scorers_entries_witness :
  team_top_scorers roster_players 4 8 ["Nigeria"; "South Africa"]%string
    roster_normalized
  = (Ok ((fun c =>
            let team := filter (fun p => lower (roster_field 4 p) = lower c)
                          roster_players in
            filter (fun q => roster_normalized_goals q
                             = best roster_normalized_goals team /\
                             0 < best roster_normalized_goals team) team)
           <$> ["Nigeria"; "South Africa"]%string), roster_normalized).
Proof.
  apply (team_top_scorers_entries roster_normalized roster_players 4 8
           ["Nigeria"; "South Africa"]%string (roster_field 4)
           roster_normalized_goals).
  - intros p Hp. apply roster_fields; [lia|exact Hp].
  - intros p Hp. unfold roster_players in Hp.
    repeat (apply elem_of_cons in Hp as [->|Hp]; [vm_compute; reflexivity|]).
    inversion Hp.
Defined.

(** ** The player table, in lockstep *)

Lemma normalized_row_length (j n : nat) (position raw : string)
  (row : list value) :
  (n < length row)%nat ->
  length (normalized_row j n position raw row) = S (length row).
Proof.
  intros Hn. unfold normalized_row.
  rewrite !length_app, length_take, length_drop, length_insert.
  cbn [length]. lia.
Qed.

(** One player of step 3.2, when it succeeds: the two fields were
    strings, and the row is the normalised one. *)
Lemma normalize_player_inv (j n : nat) (p : loc) (h h' : heap) (u : unit) :
  j <> n ->
  normalize_player (Z.of_nat j) (Z.of_nat n) tt p h = (Ok u, h') ->
  exists position raw,
    (h !!! p) !! j = Some (VStr position) /\
    (h !!! p) !! n = Some (VStr raw) /\
    h' = <[p := normalized_row j n position raw (h !!! p)]> h.
Proof.
  intros Hne H. pose proof H as H0. unfold normalize_player in H.
  apply bind_inv in H as (v & h1 & Hv & H).
  apply getitem_inv in Hv as [Hv ->].
  apply list_getitem_inv in Hv as [Hj _]; [|lia]. rewrite Nat2Z.id in Hj.
  apply bind_inv in H as (position & h1 & Hpos & H).
  apply lift_inv in Hpos as [Hpos ->].
  destruct v as [s| |]; try discriminate Hpos.
  cbn in Hpos. inversion Hpos; subst s. clear Hpos.
  apply bind_inv in H as (u1 & h1 & Hset & H).
  apply setitem_inv in Hset as (row1 & Hrow1 & ->).
  apply list_setitem_inv in Hrow1 as [_ Hrow1].
  specialize (Hrow1 ltac:(lia)). rewrite Nat2Z.id in Hrow1. subst row1.
  apply bind_inv in H as (w & h2 & Hw & H).
  apply getitem_inv in Hw as [Hw ->]. rewrite lookup_total_insert_eq in Hw.
  apply list_getitem_inv in Hw as [Hn _]; [|lia]. rewrite Nat2Z.id in Hn.
  rewrite list_lookup_insert_ne in Hn by exact Hne.
  apply bind_inv in H as (raw & h2 & Hraw & _).
  apply lift_inv in Hraw as [Hraw _].
  destruct w as [s| |]; try discriminate Hraw.
  cbn in Hraw. inversion Hraw; subst s. clear Hraw.
  exists position, raw. split; [exact Hj|]. split; [exact Hn|].
  rewrite (normalize_player_ok j n p h position raw Hne Hj Hn) in H0.
  now inversion H0.
Qed.

(** X21.  The two steps that change the player table in place keep the
    header and the rows in lockstep.  When steps 3.1-3.4 succeed, the
    header gets the new name at the index of the squad column and every
    row gets the country code at that same index, before the squad name,
    with the fields before it in place and the fields after it moved up
    by one; when steps 10.2-5 succeed, every row gets two floats at its
    end and the header their two names.  After either step every row is
    as long as the header, if it was before. *)
Theorem player_table_arity (h : heap) (headers : loc) (players : list loc) :
  NoDup (headers :: players) ->
  (forall p, p ∈ headers :: players -> is_Some (h !! p)) ->
  (forall p, p ∈ players -> length (h !!! p) = length (h !!! headers)) ->
  (forall r h',
     normalize headers players h = (Ok r, h') ->
     (forall p, p ∈ players -> length (h' !!! p) = length (h' !!! headers)) /\
     exists j n : nat,
       r = (Z.of_nat j, Z.of_nat n + 1) /\
       (h !!! headers) !! j = Some (VStr "Pos") /\
       (h !!! headers) !! n = Some (VStr "Squad") /\
       h' !!! headers
       = take n (h !!! headers)
           ++ VStr "Country_Code" :: drop n (h !!! headers) /\
       forall p, p ∈ players ->
         exists position raw,
           (h !!! p) !! j = Some (VStr position) /\
           (h !!! p) !! n = Some (VStr raw) /\
           h' !!! p = normalized_row j n position raw (h !!! p)) /\
  (forall sl h',
     add_efficiency headers players sl h = (Ok tt, h') ->
     (forall p, p ∈ players -> length (h' !!! p) = length (h' !!! headers)) /\
     h' !!! headers
     = h !!! headers
         ++ [VStr "shots_conv_rate"; VStr "shots_on_target_conv_rate"] /\
     forall p, p ∈ players ->
       exists a b, h' !!! p = h !!! p ++ [VFloat a; VFloat b]).
Proof.
  intros Hnd Hin Harity. split.
  - intros r h' H. apply NoDup_cons in Hnd as [Hhd Hnd].
    unfold normalize in H.
    apply bind_inv in H as (hs & h1 & Hhs & H).
    unfold load in Hhs. inversion Hhs; subst hs h1. clear Hhs.
    apply bind_inv in H as (pos_idx & h1 & Hpos & H).
    apply lift_inv in Hpos as [Hpos ->].
    apply list_index_inv in Hpos as (j & -> & Hj).
    apply bind_inv in H as (squad_idx & h1 & Hsq & H).
    apply lift_inv in Hsq as [Hsq ->].
    apply list_index_inv in Hsq as (n & -> & Hn).
    assert (Hne : j <> n) by (intros ->; congruence).
    apply bind_inv in H as ([] & h1 & Hloop & H).
    destruct (for_each_rows_inv
                (fun p row row' =>
                   exists position raw,
                     row !! j = Some (VStr position) /\
                     row !! n = Some (VStr raw) /\
                     row' = normalized_row j n position raw row)
                (normalize_player (Z.of_nat j) (Z.of_nat n)))
      with (players := players) (h := h) (h' := h1) (u := tt)
      as (Hrows & Hframe & _); [|exact Hnd| |exact Hloop|].
    { intros p h0 h0' u0 Hp Hrun.
      apply normalize_player_inv in Hrun
        as (position & raw & Hpj & Hpn & ->); [|exact Hne].
      split; [|split].
      - exists position, raw. rewrite lookup_total_insert_eq. auto.
      - intros q Hq _. now apply lookup_insert_ne.
      - intros q Hq. destruct (decide (q = p)) as [->|Hqp].
        + rewrite lookup_insert_eq. eauto.
        + now rewrite lookup_insert_ne by congruence. }
    { intros p Hp. apply Hin. now apply list_elem_of_further. }
    apply bind_inv in H as ([] & h2 & Hins & H).
    unfold ret in H. inversion H; subst r h2. clear H.
    unfold insert_at, bind, load, store in Hins. inversion Hins; subst h'.
    clear Hins.
    assert (Hsame : h1 !!! headers = h !!! headers).
    { rewrite !lookup_total_alt. rewrite (Hframe headers Hhd); [reflexivity|].
      apply Hin, list_elem_of_here. }
    assert (Hlen : (n < length (h !!! headers))%nat)
      by (eapply lookup_lt_Some; eauto).
    assert (Hhd' : <[headers := list_insert_at (h1 !!! headers) (Z.of_nat n)
                                  (VStr "Country_Code")]> h1 !!! headers
                   = take n (h !!! headers)
                       ++ VStr "Country_Code" :: drop n (h !!! headers)).
    { rewrite lookup_total_insert_eq, Hsame.
      apply list_insert_at_nat. lia. }
    assert (Hrows' : forall p, p ∈ players ->
              exists position raw,
                (h !!! p) !! j = Some (VStr position) /\
                (h !!! p) !! n = Some (VStr raw) /\
                <[headers := list_insert_at (h1 !!! headers) (Z.of_nat n)
                               (VStr "Country_Code")]> h1 !!! p
                = normalized_row j n position raw (h !!! p)).
    { intros p Hp.
      rewrite lookup_total_insert_ne by (intros ->; contradiction).
      now apply Hrows. }
    split.
    + intros p Hp. destruct (Hrows' p Hp) as (position & raw & _ & Hpn & ->).
      rewrite Hhd', normalized_row_length
        by (eapply lookup_lt_Some; eauto).
      rewrite length_app. cbn [length].
      rewrite length_take, length_drop, (Harity p Hp). lia.
    + exists j, n. auto.
  - intros sl h' Hrun.
    destruct (add_efficiency_run _ _ _ _ _ _ Hnd Hin Hrun) as [Hhd Hrows].
    split; [|split; assumption].
    intros p Hp. destruct (Hrows p Hp) as (a & b & ->).
    rewrite Hhd, !length_app, (Harity p Hp). reflexivity.
Qed.

Lemma player_table_arity_witness :
  Forall (fun p => length (roster_normalized !!! p)
                   = length (roster_normalized !!! 0%nat)) roster_players /\
  (exists position raw,
     (roster !!! 1%nat) !! 2%nat = Some (VStr position) /\
     (roster !!! 1%nat) !! 3%nat = Some (VStr raw) /\
     roster_normalized !!! 1%nat
     = normalized_row 2 3 position raw (roster !!! 1%nat)) /\
  Forall (fun p =>
            length (snd (add_efficiency 0%nat roster_players
                           (mk_slice (Some 8) (Some 11)) roster_normalized)
                    !!! p)
            = 13%nat) roster_players.
Proof.
  pose proof (player_table_arity roster 0%nat roster_players roster_NoDup
                roster_rows roster_arity) as [Hnorm _].
  assert (Hrun : normalize 0%nat roster_players roster
                 = (Ok (2, 4), roster_normalized))
    by (vm_compute; reflexivity).
  destruct (Hnorm _ _ Hrun)
    as (Harity & j & n & Hr & _ & _ & _ & Hrows).
  assert (j = 2%nat /\ n = 3%nat) as [-> ->] by (inversion Hr; lia).
  split; [apply Forall_forall; exact Harity|].
  split; [apply Hrows, list_elem_of_here|].
  vm_compute. repeat constructor.
Defined.

(** ** The table of step 8 *)

(** C5.  On a roster that passes the assertions of [main], the rows of
    the table of step 8 do not have the arity of the header it is written
    with: each row is the list of one squad's top scorers, here one
    scorer or none, and the header has eleven names. *)
Lemma top_scorers_table_arity :
  exists (table : list (list loc)) (countries : list value),
    fst (main_to_step_8 (seq 0 33) wwc_sample)
    = Ok (table, countries, 33%nat) /\
    length countries = 32%nat /\
    length (snd (main_to_step_8 (seq 0 33) wwc_sample) !!! 33%nat) = 11%nat /\
    table
    = (
       [[34]; [35]; []; [37]; [38]; []; [40]; [41]; []; [43];
        [44]; []; [46]; [47]; []; [49]; [50]; []; [52]; [53]; [];
        [55]; [56]; []; [58]; [59]; []; []; [61]; [62]; []; [64]])%nat /\
    Forall (fun row : list loc => (length row <= 1)%nat) table.
Proof.
  eexists _, _. split; [vm_compute; reflexivity|].
  split; [reflexivity|]. split; [vm_compute; reflexivity|].
  split; [reflexivity|]. repeat constructor.
Qed.
